(** * StructuredJS: the matching engine of [structured.js]

    A shallow embedding of [src/structured.js]: syntax trees are JavaScript
    values, the matcher's mutable objects ([wVars], [matchResults], the
    console, the two caches) are threaded explicitly, and a [TypeError]
    raised by the JavaScript is an outcome of its own.

    Conventions of the model.
    - Numbers are integers ([Z]); the code only negates them and compares
      them with [===].
    - An object is the list of its own enumerable properties in [for..in]
      order; a node never lists a key twice.  A property key is a name or,
      when it is the decimal numeral of an array index, that index.
    - Underscore is read as in its 1.8 line: [_.extend] and [_.has] do
      nothing on [undefined]/[null], [_.isObject] holds of objects and
      arrays.
    - Type tags ([type]) and identifier names ([name]) are strings wherever
      they are truthy, as in every tree the parser builds.
    - The two [replace] calls of [addStyling] are read from the left, one
      character at a time, as the regular expression engine finds the
      matches; what [Object.prototype] gives for a name is a parameter.
      [prettyHtml] hands its text to Rainbow and is not part of the
      model. *)

From stdpp Require Import gmap strings list.
From Stdlib Require Import ZArith Lia Ascii.

Open Scope string_scope.

(** ** JavaScript values *)

(** Property keys.  JavaScript has strings only; the keys that name array
    indices (["0"], ["1"], ...) are kept apart as [KIdx]. *)
Inductive key : Type :=
| KName (s : string)
| KIdx (i : nat).

Coercion KName : string >-> key.

Definition key_eqb (a b : key) : bool :=
  match a, b with
  | KName s, KName s' => String.eqb s s'
  | KIdx i, KIdx i' => (i =? i')%nat
  | _, _ => false
  end.

(** [VCell x] is a reference to the object [wVars.values[x]]: the template
    tree holds such references after [simplifyTree], and what they denote is
    read from the state at each use. *)
#[local] Set Warnings "-register-all".
Inductive value : Type :=
| VUndef
| VNull
| VBool (b : bool)
| VNum (n : Z)
| VStr (s : string)
| VArr (xs : list value)
| VObj (fs : list (key * value))
| VCell (name : string).

Section value_induction.
Variable P : value -> Prop.
Hypothesis Hundef : P VUndef.
Hypothesis Hnull : P VNull.
Hypothesis Hbool : forall b, P (VBool b).
Hypothesis Hnum : forall n, P (VNum n).
Hypothesis Hstr : forall s, P (VStr s).
Hypothesis Harr : forall xs, Forall P xs -> P (VArr xs).
Hypothesis Hobj : forall fs, Forall (fun kv => P (snd kv)) fs -> P (VObj fs).
Hypothesis Hcell : forall x, P (VCell x).

Fixpoint value_rect' (v : value) : P v :=
  match v with
  | VUndef => Hundef
  | VNull => Hnull
  | VBool b => Hbool b
  | VNum n => Hnum n
  | VStr s => Hstr s
  | VArr xs =>
      Harr xs ((fix go (l : list value) : Forall P l :=
                  match l with
                  | [] => List.Forall_nil P
                  | x :: l' => List.Forall_cons P x l' (value_rect' x) (go l')
                  end) xs)
  | VObj fs =>
      Hobj fs ((fix go (l : list (key * value))
                 : Forall (fun kv => P (snd kv)) l :=
                  match l with
                  | [] => List.Forall_nil _
                  | kv :: l' =>
                      List.Forall_cons (fun kv => P (snd kv)) kv l'
                        (value_rect' (snd kv)) (go l')
                  end) fs)
  | VCell x => Hcell x
  end.
End value_induction.

(** Truthiness ([!v] is its negation). *)
Definition truthy (v : value) : bool :=
  match v with
  | VUndef | VNull => false
  | VBool b => b
  | VNum n => negb (n =? 0)%Z
  | VStr s => negb (String.eqb s "")
  | VArr _ | VObj _ | VCell _ => true
  end.

(** [_.isObject], [_.isArray], [_.isNumber], [_.isString], [typeof]. *)
Definition isObject (v : value) : bool :=
  match v with VArr _ | VObj _ | VCell _ => true | _ => false end.

Definition isArray (v : value) : bool :=
  match v with VArr _ => true | _ => false end.

Definition isNumber (v : value) : bool :=
  match v with VNum _ => true | _ => false end.

Definition isString (v : value) : bool :=
  match v with VStr _ => true | _ => false end.

Inductive jstype := TUndefined | TObject | TBoolean | TNumber | TString.

Definition typeof (v : value) : jstype :=
  match v with
  | VUndef => TUndefined
  | VNull | VArr _ | VObj _ | VCell _ => TObject
  | VBool _ => TBoolean
  | VNum _ => TNumber
  | VStr _ => TString
  end.

Definition jstype_eqb (a b : jstype) : bool :=
  match a, b with
  | TUndefined, TUndefined | TObject, TObject | TBoolean, TBoolean
  | TNumber, TNumber | TString, TString => true
  | _, _ => false
  end.

(** [v === "s"] for a string constant. *)
Definition is_str (v : value) (s : string) : bool :=
  match v with VStr s' => String.eqb s' s | _ => false end.

(** [a === b] on the values that reach the scalar comparison of
    [exactMatchNode]: both sides have the same [typeof] and neither is an
    object. *)
Definition strict_eq_scalar (a b : value) : bool :=
  match a, b with
  | VBool x, VBool y => Bool.eqb x y
  | VNum x, VNum y => (x =? y)%Z
  | VStr x, VStr y => String.eqb x y
  | VUndef, VUndef | VNull, VNull => true
  | _, _ => false
  end.

(** *** Properties *)

Fixpoint assoc (k : key) (fs : list (key * value)) : option value :=
  match fs with
  | [] => None
  | (k', v) :: fs' => if key_eqb k' k then Some v else assoc k fs'
  end.

(** [obj[k] = v]: an existing property keeps its place. *)
Fixpoint assoc_set (k : key) (v : value) (fs : list (key * value))
  : list (key * value) :=
  match fs with
  | [] => [(k, v)]
  | (k', v') :: fs' =>
      if key_eqb k' k then (k', v) :: fs' else (k', v') :: assoc_set k v fs'
  end.

Fixpoint chars (s : string) : list value :=
  match s with
  | EmptyString => []
  | String c s' => VStr (String c EmptyString) :: chars s'
  end.

Definition indexed (xs : list value) : list (key * value) :=
  imap (fun i x => (KIdx i, x)) xs.

(** The own enumerable properties of a value, in [for..in] order.  A cell
    is looked up in the state by whoever holds the state; on its own it
    shows none. *)
Definition own_props (v : value) : list (key * value) :=
  match v with
  | VObj fs => fs
  | VArr xs => indexed xs
  | VStr s => indexed (chars s)
  | _ => []
  end.

(** [xs[k]] and [xs.length]. *)
Definition element (xs : list value) (k : key) : value :=
  match k with
  | KIdx i => default VUndef (xs !! i)
  | KName s =>
      if String.eqb s "length" then VNum (Z.of_nat (length xs)) else VUndef
  end.

(** [v[k]] for a [v] that is neither [undefined] nor [null]. *)
Definition get (v : value) (k : key) : value :=
  match v with
  | VObj fs => default VUndef (assoc k fs)
  | VArr xs => element xs k
  | VStr s => element (chars s) k
  | _ => VUndef
  end.

Definition nullish (v : value) : bool :=
  match v with VUndef | VNull => true | _ => false end.

(** [s.slice(n)]. *)
Fixpoint str_slice (n : nat) (s : string) : string :=
  match n, s with
  | 0, _ => s
  | S n', String _ s' => str_slice n' s'
  | S _, EmptyString => EmptyString
  end.

(** ** [deepClone]: [JSON.parse(JSON.stringify(obj))]

    [JSON.stringify] leaves out the properties whose value is [undefined]
    and writes [null] for such an array element; everything else comes back
    as a fresh tree of the same shape.  A binding cell never occurs in a
    tree that is cloned. *)
Section clone_props.
Variable rec : value -> value.

Definition clone_elem (x : value) : value :=
  match x with
  | VUndef => VNull
  | _ => rec x
  end.

Fixpoint clone_fields (l : list (key * value)) : list (key * value) :=
  match l with
  | [] => []
  | (k, v) :: l' =>
      match v with
      | VUndef => clone_fields l'
      | _ => (k, rec v) :: clone_fields l'
      end
  end.
End clone_props.

Fixpoint deepClone (obj : value) : value :=
  match obj with
  | VArr xs => VArr (map (clone_elem deepClone) xs)
  | VObj fs => VObj (clone_fields deepClone fs)
  | VCell _ => VObj []
  | v => v
  end.

(** ** [foldConstants]

    The tree is rewritten in place, so a [TypeError] raised half-way leaves
    the part already visited rewritten: the function returns how it
    completed together with the tree as it then stands. *)
Inductive completion := Normal | Abrupt.

(** The body of [if (ast.type == esprima.Syntax.UnaryExpression) {...}]:
    what [tree[key]] holds afterwards, or [None] when [argument.type] is
    read off [undefined] or [null]. *)
Definition fold_unary (ast : value) : option value :=
  if is_str (get ast "type") "UnaryExpression" then
    let argument := get ast "argument" in
    if nullish argument then None
    else if is_str (get argument "type") "Literal" then
      match argument, get argument "value" with
      | VObj fs, VNum n =>
          if is_str (get ast "operator") "-" then
            Some (VObj (assoc_set "value" (VNum (- n)) fs))
          else if is_str (get ast "operator") "+" then
            Some (VObj (assoc_set "value" (VNum n) fs))
          else Some ast
      | _, _ => Some ast
      end
    else Some ast
  else Some ast.

Section fold_props.
Context {A : Type} (getv : A -> value) (setv : A -> value -> A).
Variable rec : value -> completion * value.

(** One pass of [for (var key in tree)] over the properties [ps]. *)
Fixpoint fold_props (ps : list A) : completion * list A :=
  match ps with
  | [] => (Normal, [])
  | p :: ps' =>
      let ast := getv p in
      if isObject ast then
        match rec ast with
        | (Abrupt, ast1) => (Abrupt, setv p ast1 :: ps')
        | (Normal, ast1) =>
            match fold_unary ast1 with
            | None => (Abrupt, setv p ast1 :: ps')
            | Some ast2 =>
                let '(c, ps1) := fold_props ps' in (c, setv p ast2 :: ps1)
            end
        end
      else
        let '(c, ps1) := fold_props ps' in (c, p :: ps1)
  end.
End fold_props.

Definition set_snd (kv : key * value) (v : value) : key * value :=
  (fst kv, v).

Fixpoint foldConstants (tree : value) : completion * value :=
  match tree with
  | VObj fs =>
      let '(c, fs') := fold_props snd set_snd foldConstants fs in (c, VObj fs')
  | VArr xs =>
      let '(c, xs') := fold_props id (fun _ v => v) foldConstants xs in
      (c, VArr xs')
  | _ => (Normal, tree)
  end.

(** ** [simplifyTree] and the search state *)

(** [wVars]: [order] lists the variables by first occurrence, [skipData]
    and [leftToSkip] count occurrences to pass over, [values] holds one
    binding cell per variable.  [leftToSkip] exists only once [anyPossible]
    has assigned it. *)
Record wildcardVars := {
  order : list string;
  skipData : gmap string nat;
  values : gmap string (list (key * value));
  leftToSkip : option (gmap string nat)
}.

Definition new_wildcardVars : wildcardVars :=
  {| order := []; skipData := ∅; values := ∅; leftToSkip := None |}.

Definition isWildcard (node : value) : bool :=
  is_str (get node "name") "_" ||
  match get node "body" with VArr [] => true | _ => false end.

Definition isWildcardVar (node : value) : bool :=
  match get node "name" with
  | VStr s => (2 <=? String.length s)%nat && String.prefix "$" s
  | _ => false
  end.

(** First occurrence of [varName]: a fresh cell, the marker
    [{wildcardVar: varName}] in the tree, the name appended to [order]. *)
Definition declare_var (varName : string) (w : wildcardVars) : wildcardVars :=
  {| order := order w ++ [varName];
     skipData := <[varName := 0]> (skipData w);
     values := <[varName := []]> (values w);
     leftToSkip := leftToSkip w |}.

Section simplify_props.
Variable rec : value -> wildcardVars -> value * wildcardVars.

(** What one iteration leaves at [tree[key]]; [None] when the property is
    removed. *)
Definition simplify_child (child : value) (w : wildcardVars)
  : option value * wildcardVars :=
  if isObject child then
    if isWildcard child then (Some VUndef, w)
    else if isWildcardVar child then
      match get child "name" with
      | VStr varName =>
          match values w !! varName with
          | None =>
              (Some (VObj [(KName "wildcardVar", VStr varName)]),
               declare_var varName w)
          | Some _ => (Some (VCell varName), w)
          end
      | _ => (Some child, w)
      end
    else if is_str (get child "type") "EmptyStatement" then (None, w)
    else let '(child', w') := rec child w in (Some child', w')
  else (Some child, w).

Fixpoint simplify_fields (fs : list (key * value)) (w : wildcardVars)
  : list (key * value) * wildcardVars :=
  match fs with
  | [] => ([], w)
  | (k, v) :: fs' =>
      let '(r, w1) := simplify_child v w in
      let '(fs1, w2) := simplify_fields fs' w1 in
      (match r with Some v' => (k, v') :: fs1 | None => fs1 end, w2)
  end.

(** Over an array the keys are the indices taken when the loop starts.
    [splice] moves the rest one place down while the key moves on: the
    element that followed a removed one is never visited ([skip]), and
    the last index is gone by the time it would be reached. *)
Fixpoint simplify_elems (skip : bool) (xs : list value) (w : wildcardVars)
  : list value * wildcardVars :=
  match xs with
  | [] => ([], w)
  | x :: xs' =>
      if skip then
        let '(xs1, w1) := simplify_elems false xs' w in (x :: xs1, w1)
      else
        let '(r, w1) := simplify_child x w in
        match r with
        | Some x' =>
            let '(xs1, w2) := simplify_elems false xs' w1 in (x' :: xs1, w2)
        | None => simplify_elems true xs' w1
        end
  end.
End simplify_props.

Fixpoint simplifyTree (tree : value) (wVars : wildcardVars)
  : value * wildcardVars :=
  match tree with
  | VObj fs =>
      let '(fs', w) := simplify_fields simplifyTree fs wVars in (VObj fs', w)
  | VArr xs =>
      let '(xs', w) := simplify_elems simplifyTree false xs wVars in
      (VArr xs', w)
  | _ => (tree, wVars)
  end.

(** ** The matcher's state *)

(** [matchResults]: [underscore] is the property [_]. *)
Record matchResults := {
  underscore : list value;
  vars : gmap string value;
  root : option value
}.

Definition new_matchResults : matchResults :=
  {| underscore := []; vars := ∅; root := None |}.

(** [failure] is the property [varCallbacks.failure] of the caller's
    options. *)
Record mstate := {
  wVars : wildcardVars;
  results : matchResults;
  console : list value;
  failure : option value
}.

Inductive outcome (A : Type) : Type :=
| Return (a : A)
| TypeError
| OutOfFuel.
Arguments Return {A} a.
Arguments TypeError {A}.
Arguments OutOfFuel {A}.

Definition M (A : Type) : Type := mstate -> outcome A * mstate.

#[export] Instance M_ret : MRet M := fun A a st => (Return a, st).
#[export] Instance M_bind : MBind M := fun A B f m st =>
  match m st with
  | (Return a, st') => f a st'
  | (TypeError, st') => (TypeError, st')
  | (OutOfFuel, st') => (OutOfFuel, st')
  end.

Definition throw {A} : M A := fun st => (TypeError, st).
Definition out_of_fuel {A} : M A := fun st => (OutOfFuel, st).
Definition get_state : M mstate := fun st => (Return st, st).
Definition put_wVars (w : wildcardVars) : M unit := fun st =>
  (Return tt,
   {| wVars := w; results := results st; console := console st;
      failure := failure st |}).
Definition put_results (r : matchResults) : M unit := fun st =>
  (Return tt,
   {| wVars := wVars st; results := r; console := console st;
      failure := failure st |}).
Definition console_error (v : value) : M unit := fun st =>
  (Return tt,
   {| wVars := wVars st; results := results st;
      console := console st ++ [v]; failure := failure st |}).
Definition put_failure (f : option value) : M unit := fun st =>
  (Return tt,
   {| wVars := wVars st; results := results st; console := console st;
      failure := f |}).

Definition with_values (cells : gmap string (list (key * value)))
  (w : wildcardVars) : wildcardVars :=
  {| order := order w; skipData := skipData w; values := cells;
     leftToSkip := leftToSkip w |}.
Definition with_skipData (d : gmap string nat) (w : wildcardVars)
  : wildcardVars :=
  {| order := order w; skipData := d; values := values w;
     leftToSkip := leftToSkip w |}.
Definition with_leftToSkip (d : gmap string nat) (w : wildcardVars)
  : wildcardVars :=
  {| order := order w; skipData := skipData w; values := values w;
     leftToSkip := Some d |}.

(** [matchResults._.push(v)]. *)
Definition push_underscore (v : value) : M unit :=
  st ← get_state;
  let r := results st in
  put_results {| underscore := underscore r ++ [v]; vars := vars r;
                 root := root r |}.

Definition set_var (k : string) (v : value) : M unit :=
  st ← get_state;
  let r := results st in
  put_results {| underscore := underscore r; vars := <[k := v]> (vars r);
                 root := root r |}.

(** [if (rootToSet) { matchResults.root = rootToSet; }]. *)
Definition set_root (rootToSet : option value) : M unit :=
  match rootToSet with
  | Some v =>
      if truthy v then
        st ← get_state;
        let r := results st in
        put_results {| underscore := underscore r; vars := vars r;
                       root := Some v |}
      else mret tt
  | None => mret tt
  end.

(** A loop whose body may [return]: [inl s] goes on to the next element
    with loop variables [s], [inr r] leaves the function with [r]. *)
Fixpoint js_for {S A R : Type} (body : S -> A -> M (S + R)) (s : S)
  (xs : list A) : M (S + R) :=
  match xs with
  | [] => mret (inl s)
  | x :: xs' =>
      r ← body s x;
      match r with
      | inl s' => js_for body s' xs'
      | inr v => mret (inr v)
      end
  end.

Definition lift {A} (o : outcome A) : M A := fun st => (o, st).

(** ** [isGlob]

    The glob name carried by a template node, if any: ["_"] for [glob_],
    the suffix for [glob$name], also through [node.expression].  [None]
    stands for a falsy result.  Calling [indexOf] on a truthy name that is
    not a string is a [TypeError]. *)
Definition glob_name (name : value) : option (option string) :=
  match name with
  | VStr s =>
      if String.eqb s "glob_" then Some (Some "_")
      else if String.prefix "glob$" s then
        let rest := str_slice 5 s in
        if String.eqb rest "" then Some None else Some (Some rest)
      else Some None
  | _ => if truthy name then None else Some None
  end.

Section isGlob.
(** What [isGlob] answers on the cell of a variable. *)
Variable on_cell : string -> outcome (option string).

Fixpoint isGlob_with (node : value) : outcome (option string) :=
  match node with
  | VObj fs =>
      match glob_name (default VUndef (assoc "name" fs)) with
      | None => TypeError
      | Some (Some g) => Return (Some g)
      | Some None =>
          (fix expression (l : list (key * value)) :=
             match l with
             | [] => Return None
             | (k, e) :: l' =>
                 if key_eqb k "expression" then
                   if truthy e then isGlob_with e else Return None
                 else expression l'
             end) fs
      end
  | VCell x => on_cell x
  | _ => Return None
  end.
End isGlob.

Definition isGlob (cells : gmap string (list (key * value)))
  (node : value) : outcome (option string) :=
  isGlob_with
    (fun x => isGlob_with (fun _ => Return None)
                (VObj (default [] (cells !! x))))
    node.

(** ** The matching engine *)

(** The properties a template node shows when it is enumerated or read: a
    reference to a cell shows what the cell holds at that moment. *)
Definition props_of (st : mstate) (v : value) : list (key * value) :=
  match v with
  | VCell x => default [] (values (wVars st) !! x)
  | _ => own_props v
  end.

(** [_.extend(wVars.values[x], currNode)]. *)
Definition extend (x : string) (currNode : value)
  (cells : gmap string (list (key * value)))
  : gmap string (list (key * value)) :=
  match cells !! x with
  | Some cell =>
      <[x := foldl (fun c kv => assoc_set kv.1 kv.2 c) cell
               (if isObject currNode then own_props currNode else [])]> cells
  | None => cells
  end.

(** [name] is [_] or a key of [vars]; [curGlob.push(x)] reaches the array
    stored there last. *)
Fixpoint push_into_last (x : value) (l : list value) : list value :=
  match l with
  | [] => []
  | [VArr g] => [VArr (g ++ [x])]
  | v :: l' => v :: push_into_last x l'
  end.

Definition record_glob (globName : string) (v : value) : M unit :=
  st ← get_state;
  let r := results st in
  if String.eqb globName "_" then
    put_results {| underscore := underscore r ++ [v]; vars := vars r;
                   root := root r |}
  else
    put_results {| underscore := underscore r;
                   vars := <[globName := v]> (vars r); root := root r |}.

Definition glob_push (globName : string) (x : value) : M unit :=
  st ← get_state;
  let r := results st in
  if String.eqb globName "_" then
    put_results {| underscore := push_into_last x (underscore r);
                   vars := vars r; root := root r |}
  else
    match vars r !! globName with
    | Some (VArr g) =>
        put_results {| underscore := underscore r;
                       vars := <[globName := VArr (g ++ [x])]> (vars r);
                       root := root r |}
    | _ => mret tt
    end.

(** The two mutually recursive entry points.  [peersToFind] is an array the
    callee may [shift]: every call answers with the array as it leaves
    it. *)
Inductive call :=
| CheckMatchTree (currTree toFind : value) (peersToFind : list value)
| CheckNodeArray (nodeArr : list value) (toFind : value)
    (peersToFind : list value).

Definition answer : Type := bool * list value.

Section engine.
Variable single : bool.
Variable rec : call -> M answer.

(** The branch [key === "wildcardVar"] of [exactMatchNode]. *)
Definition bind_wildcardVar (currNode subFind : value)
  (rootToSet : option value) : M bool :=
  st ← get_state;
  match leftToSkip (wVars st), subFind with
  | Some lts, VStr x =>
      let n := default 0 (lts !! x) in
      if (0 <? n)%nat then
        put_wVars (with_leftToSkip (<[x := n - 1]> lts) (wVars st));;
        mret false
      else
        put_wVars (with_values (extend x currNode (values (wVars st)))
                     (wVars st));;
        set_var (str_slice 1 x) currNode;;
        set_root rootToSet;;
        mret true
  | _, _ => throw
  end.

(** One iteration of [for (var key in toFind)]. *)
Definition emn_key (currNode toFind : value) (rootToSet : option value)
  (peersToFind : list value) (key : key) : M (list value + answer) :=
  st ← get_state;
  match assoc key (props_of st toFind) with
  | None | Some VNull => mret (inl peersToFind)
  | Some subFind =>
      if nullish currNode then throw
      else
        let subCurr := get currNode key in
        match subFind with
        | VUndef =>
            if nullish subCurr then mret (inr (false, peersToFind))
            else
              (if truthy (get subCurr "body") then mret tt
               else push_underscore subCurr);;
              mret (inl peersToFind)
        | _ =>
            if nullish subCurr then
              if key_eqb key "wildcardVar" then
                b ← bind_wildcardVar currNode subFind rootToSet;
                mret (inr (b, peersToFind))
              else mret (inr (false, peersToFind))
            else if negb (Bool.eqb (isObject subCurr) (isObject subFind))
                    || negb (Bool.eqb (isArray subCurr) (isArray subFind))
                    || negb (jstype_eqb (typeof subCurr) (typeof subFind))
            then
              console_error (VStr "Object/array/other type mismatch.");;
              mret (inr (false, peersToFind))
            else
              match subCurr, subFind with
              | VArr _, VArr [] => mret (inl peersToFind)
              | VArr elems, VArr (newToFind :: peers) =>
                  '(found, _) ← rec (CheckNodeArray elems newToFind peers);
                  if (found : bool) then mret (inl peersToFind)
                  else mret (inr (false, peersToFind))
              | _, _ =>
                  if isObject subCurr then
                    '(found, peers) ←
                      rec (CheckMatchTree subCurr subFind peersToFind);
                    if (found : bool) then mret (inl peers)
                    else mret (inr (false, peers))
                  else if strict_eq_scalar subCurr subFind then
                    mret (inl peersToFind)
                  else mret (inr (false, peersToFind))
              end
        end
  end.

Definition exactMatchNode (currNode toFind : value)
  (peersToFind : list value) : M answer :=
  st ← get_state;
  rootToSet ←
    match root (results st) with
    | Some _ => mret None
    | None =>
        if nullish currNode then throw
        else if is_str (get currNode "type") "Program" then mret None
        else mret (Some currNode)
    end;
  r ← js_for (emn_key currNode toFind rootToSet) peersToFind
        (map fst (props_of st toFind));
  match r with
  | inr a => mret a
  | inl peers =>
      (match toFind with
       | VUndef => push_underscore currNode
       | _ => mret tt
       end);;
      set_root rootToSet;;
      mret (true, peers)
  end.

(** One iteration of [for (var key in currTree)]. *)
Definition cmt_child (toFind : value) (peersToFind : list value)
  (kv : key * value) : M (list value + answer) :=
  match kv.2 with
  | VArr elems =>
      '(found, peers) ← rec (CheckNodeArray elems toFind peersToFind);
      if (found : bool) then mret (inr (true, peers)) else mret (inl peers)
  | child =>
      if isObject child then
        '(found, peers) ← rec (CheckMatchTree child toFind peersToFind);
        if (found : bool) then mret (inr (true, peers))
        else mret (inl peers)
      else mret (inl peersToFind)
  end.

Definition checkMatchTree_body (currTree toFind : value)
  (peersToFind : list value) : M answer :=
  (if isArray toFind then
     console_error (VStr "toFind should never be an array.");;
     console_error toFind
   else mret tt);;
  '(found, peers) ← exactMatchNode currTree toFind peersToFind;
  if (found : bool) then mret (true, peers)
  else if single then mret (false, peers)
  else
    r ← js_for (cmt_child toFind) peers (own_props currTree);
    match r with
    | inr a => mret a
    | inl peers' => mret (false, peers')
    end.

(** One iteration of the loop of [checkNodeArray]; the loop variables are
    [toFind], whether [curGlob] has been created, and the peers. *)
Definition cna_elem (s : value * bool * list value) (x : value)
  : M (value * bool * list value + answer) :=
  let '(toFind, curGlob, peersToFind) := s in
  st ← get_state;
  g ← lift (isGlob (values (wVars st)) toFind);
  match g with
  | Some globName =>
      (if curGlob then mret tt else record_glob globName (VArr []));;
      glob_push globName x;;
      mret (inl (toFind, true, peersToFind))
  | None =>
      '(found, peers) ← rec (CheckMatchTree x toFind peersToFind);
      if (found : bool) then
        match peers with
        | [] => mret (inr (true, []))
        | next :: peers' => mret (inl (next, curGlob, peers'))
        end
      else mret (inl (toFind, curGlob, peers))
  end.

Definition checkNodeArray_body (nodeArr : list value) (toFind : value)
  (peersToFind : list value) : M answer :=
  r ← js_for cna_elem (toFind, false, peersToFind) nodeArr;
  match r with
  | inr a => mret a
  | inl (toFind', curGlob, peers) =>
      if (curGlob : bool) then mret (true, peers)
      else
        st ← get_state;
        g ← lift (isGlob (values (wVars st)) toFind');
        match g with
        | Some globName =>
            record_glob globName (VArr []);; mret (true, peers)
        | None => mret (false, peers)
        end
  end.
End engine.

(** The recursion of the three functions descends the program tree; [fuel]
    bounds its depth. *)
Fixpoint engine (single : bool) (fuel : nat) (c : call) : M answer :=
  match fuel with
  | 0 => out_of_fuel
  | S fuel' =>
      match c with
      | CheckMatchTree currTree toFind peersToFind =>
          checkMatchTree_body single (engine single fuel') currTree toFind
            peersToFind
      | CheckNodeArray nodeArr toFind peersToFind =>
          checkNodeArray_body (engine single fuel') nodeArr toFind
            peersToFind
      end
  end.

Definition checkMatchTree (single : bool) (fuel : nat)
  (currTree toFind : value) (peersToFind : list value) : M answer :=
  engine single fuel (CheckMatchTree currTree toFind peersToFind).

Definition checkNodeArray (single : bool) (fuel : nat)
  (nodeArr : list value) (toFind : value) (peersToFind : list value)
  : M answer :=
  engine single fuel (CheckNodeArray nodeArr toFind peersToFind).

(** ** [checkUserVarCallbacks] *)

Definition is_space (c : Ascii.ascii) : bool :=
  let n := Ascii.nat_of_ascii c in
  (n =? 32)%nat || ((9 <=? n)%nat && (n <=? 13)%nat).

Fixpoint ltrim (s : string) : string :=
  match s with
  | String c s' => if is_space c then ltrim s' else s
  | EmptyString => EmptyString
  end.

(** [str.trim()]. *)
Definition stringLeftTrim (str : string) : string :=
  String.rev (ltrim (String.rev (ltrim str))).

(** [property.split(",")]; [cur] is the piece being read. *)
Fixpoint split_comma (cur : string) (s : string) : list string :=
  match s with
  | EmptyString => [cur]
  | String c s' =>
      if Ascii.eqb c ","%char then cur :: split_comma "" s'
      else split_comma (cur ++ String c "") s'
  end.

(** A user callback: from the values of its variables to what it
    returns. *)
Definition callback : Type := list value -> value.

(** [_.has(result, "failure")]. *)
Definition has_failure (result : value) : option value :=
  match result with
  | VObj fs => assoc "failure" fs
  | _ => None
  end.

(** The function mapped over [varNames]. *)
Definition callback_arg (varName : string) : M value :=
  let varName := stringLeftTrim varName in
  st ← get_state;
  match values (wVars st) !! varName with
  | None =>
      console_error (VStr ("Callback var " ++ varName ++ " doesn't exist"));;
      mret VUndef
  | Some cell => mret (deepClone (VObj cell))
  end.

Fixpoint map_M {A B : Type} (f : A -> M B) (xs : list A) : M (list B) :=
  match xs with
  | [] => mret []
  | x :: xs' => y ← f x; ys ← map_M f xs'; mret (y :: ys)
  end.

(** One iteration of [for (var property in varCallbacks)]. *)
Definition check_callback (_ : unit) (entry : string * callback)
  : M (unit + bool) :=
  varValues ← map_M callback_arg (split_comma "" entry.1);
  let result := entry.2 varValues in
  if negb (truthy result) || bool_decide (is_Some (has_failure result)) then
    (match has_failure result with
     | Some msg => put_failure (Some msg)
     | None => mret tt
     end);;
    mret (inr false)
  else mret (inl tt).

(** [varCallbacks] lists the callbacks; the property [failure] of that
    object is the [failure] of the state. *)
Definition checkUserVarCallbacks (varCallbacks : list (string * callback))
  : M bool :=
  put_failure None;;
  r ← js_for check_callback tt varCallbacks;
  match r with
  | inr b => mret b
  | inl _ => mret true
  end.

(** ** [anyPossible] *)

Section anyPossible.
Variable depth : nat.
Variables codeTree toFind : value.
Variable peers : list value.
Variable varCallbacks : list (string * callback).
Variable single : bool.

Definition nth_var (ord : list string) (i : nat) : string :=
  default "undefined" (ord !! i).

Definition set_skip (x : string) (n : nat) : M unit :=
  st ← get_state;
  put_wVars (with_skipData (<[x := n]> (skipData (wVars st))) (wVars st)).

(** [for (var rest = i + 1; rest < order.length; rest += 1)]. *)
Definition reset_later (i : nat) : M unit :=
  st ← get_state;
  let w := wVars st in
  put_wVars
    (with_skipData
       (foldl (fun d x => <[x := 0]> d) (skipData w) (drop (S i) (order w)))
       w).

(** The last variable of [order]: empty every cell, copy [skipData] into
    [leftToSkip], run the matcher on a copy of the peers, then ask the
    callbacks. *)
Definition try_assignment : M bool :=
  st ← get_state;
  let w := wVars st in
  put_wVars (with_leftToSkip (skipData w)
               (with_values ((fun _ => []) <$> values w) w));;
  '(found, _) ← checkMatchTree single depth codeTree toFind peers;
  if (found : bool) then checkUserVarCallbacks varCallbacks
  else mret false.

(** The [do ... while] of [anyPossible(i, ...)], entered at its top;
    [fuel] bounds the iterations and the recursion together. *)
Fixpoint anyPossible_loop (fuel : nat) (i : nat) : M bool :=
  match fuel with
  | 0 => out_of_fuel
  | S fuel' =>
      reset_later i;;
      st ← get_state;
      let ord := order (wVars st) in
      found ←
        (if (S i =? length ord)%nat then try_assignment
         else
           set_skip (nth_var ord (S i)) 0;;
           anyPossible_loop fuel' (S i));
      if (found : bool) then mret true
      else
        st1 ← get_state;
        let x := nth_var ord i in
        set_skip x (S (default 0 (skipData (wVars st1) !! x)));;
        st2 ← get_state;
        match values (wVars st2) !! x with
        | Some (_ :: _) => anyPossible_loop fuel' i
        | _ => mret false
        end
  end.

Definition anyPossible (fuel : nat) (i : nat) : M bool :=
  st ← get_state;
  set_skip (nth_var (order (wVars st)) i) 0;;
  anyPossible_loop fuel i.
End anyPossible.

(** ** The module: its caches and [match] *)

(** Objects live in a heap; a caller hands [match] either source text or a
    reference to a tree of its own.  [cachedCode === code] compares texts
    by content and objects by reference. *)
Definition loc : Type := nat.

Inductive code :=
| CodeText (s : string)
| CodeObj (l : loc).

Inductive rawStructure :=
| StructureText (s : string)
| StructureObj (v : value).

Definition code_eqb (a b : code) : bool :=
  match a, b with
  | CodeText s, CodeText s' => String.eqb s s'
  | CodeObj l, CodeObj l' => (l =? l')%nat
  | _, _ => false
  end.

(** [structureCache] maps a template text to the JSON text of its tree,
    held here as the tree that text parses to. *)
Record module := {
  structureCache : gmap string value;
  cachedCode : option code;
  cachedCodeTree : option loc;
  heap : gmap loc value
}.

Definition initial_module (h : gmap loc value) : module :=
  {| structureCache := ∅; cachedCode := None; cachedCodeTree := None;
     heap := h |}.

Inductive exn :=
| ETypeError
| EParse
| EStructure.

Inductive result :=
| Matched (r : matchResults)
| NoMatch
| Thrown (e : exn)
| Diverged.

Record options := {
  varCallbacks : list (string * callback);
  single : bool
}.

Definition no_options : options := {| varCallbacks := []; single := false |}.

Section Structured.
(** The parser: [None] when it throws. *)
Variable esprima_parse : string -> option value.

(** [v.k], a [TypeError] on [undefined] and [null]. *)
Definition get_of (v : value) (k : key) : option value :=
  if nullish v then None else Some (get v k).

Definition parseStructure (m : module) (structure : rawStructure)
  : (exn + value) * module :=
  match structure with
  | StructureObj v => (inr (deepClone v), m)
  | StructureText s =>
      match structureCache m !! s with
      | Some tree => (inr tree, m)
      | None =>
          match esprima_parse ("(" ++ s ++ ")") with
          | None => (inl EParse, m)
          | Some fullTree =>
              match
                match get_of fullTree "body" with
                | Some body =>
                    match get_of body (KIdx 0) with
                    | Some first => get_of first "expression"
                    | None => None
                    end
                | None => None
                end
              with
              | None => (inl ETypeError, m)
              | Some expression =>
                  if nullish expression then (inl ETypeError, m)
                  else if negb (is_str (get expression "type")
                                  "FunctionExpression")
                          || negb (truthy (get expression "body"))
                  then (inl EStructure, m)
                  else
                    let tree := get expression "body" in
                    (inr tree,
                     {| structureCache :=
                          <[s := deepClone tree]> (structureCache m);
                        cachedCode := cachedCode m;
                        cachedCodeTree := cachedCodeTree m;
                        heap := heap m |})
              end
          end
      end
  end.

Definition parseStructureWithVars (m : module) (structure : rawStructure)
  (wVars : wildcardVars) : (exn + value * wildcardVars) * module :=
  match parseStructure m structure with
  | (inl e, m') => (inl e, m')
  | (inr tree, m') =>
      match foldConstants tree with
      | (Abrupt, _) => (inl ETypeError, m')
      | (Normal, tree') => (inr (simplifyTree tree' wVars), m')
      end
  end.

(** The tree [match] works on and the heap that holds it: the cached one,
    a clone of the caller's object, or a fresh parse. *)
Definition obtain_codeTree (m : module) (c : code)
  : option (loc * gmap loc value) :=
  if match cachedCode m with
     | Some c' => code_eqb c' c
     | None => false
     end
  then (fun l => (l, heap m)) <$> cachedCodeTree m
  else
    let l := fresh (dom (heap m)) in
    match c with
    | CodeObj o => (fun t => (l, <[l := deepClone t]> (heap m))) <$> heap m !! o
    | CodeText s => (fun t => (l, <[l := t]> (heap m))) <$> esprima_parse s
    end.

(** [toFind] and [peers] as [match] takes them from the structure. *)
Definition targets (structure : value) : value * list value :=
  let body := get structure "body" in
  match body with
  | VArr xs => (default VUndef (head xs), tail xs)
  | _ => (if truthy body then body else structure, [])
  end.

Definition new_mstate (w : wildcardVars) : mstate :=
  {| wVars := w; results := new_matchResults; console := [];
     failure := None |}.

(** The search itself, on the tree [codeTree]. *)
Definition search (fuel : nat) (opts : options) (codeTree structure : value)
  (w : wildcardVars) : outcome bool * mstate :=
  let '(toFind, peers) := targets structure in
  if (length (order w) =? 0)%nat || single opts then
    match checkMatchTree (single opts) fuel codeTree toFind peers
            (new_mstate w) with
    | (Return (found, _), st) => (Return found, st)
    | (TypeError, st) => (TypeError, st)
    | (OutOfFuel, st) => (OutOfFuel, st)
    end
  else
    anyPossible fuel codeTree toFind peers (varCallbacks opts) (single opts)
      fuel 0 (new_mstate w).

Definition match_ (fuel : nat) (m : module) (c : code)
  (structure : rawStructure) (opts : options) : result * module :=
  match parseStructureWithVars m structure new_wildcardVars with
  | (inl e, m1) => (Thrown e, m1)
  | (inr (structure', w), m1) =>
      match obtain_codeTree m1 c with
      | None =>
          (Thrown (match c with CodeText _ => EParse | _ => ETypeError end),
           m1)
      | Some (l, h) =>
          let '(how, codeTree) := foldConstants (default VUndef (h !! l)) in
          let m2 := {| structureCache := structureCache m1;
                       cachedCode := Some c;
                       cachedCodeTree := Some l;
                       heap := <[l := codeTree]> h |} in
          match how with
          | Abrupt => (Thrown ETypeError, m2)
          | Normal =>
              if nullish structure' then (Thrown ETypeError, m2)
              else
                match search fuel opts codeTree structure' w with
                | (Return true, st) => (Matched (results st), m2)
                | (Return false, _) => (NoMatch, m2)
                | (TypeError, _) => (Thrown ETypeError, m2)
                | (OutOfFuel, _) => (Diverged, m2)
                end
          end
      end
  end.

(** [exports.matchNode]. *)
Definition matchNode (fuel : nat) (m : module) (c : code)
  (structure : rawStructure) (opts : options) : result * module :=
  match_ fuel m c structure
    {| varCallbacks := varCallbacks opts; single := true |}.
End Structured.

(** ** Syntax trees as the parser builds them *)

Module Ast.
Definition node (type : string) (fs : list (key * value)) : value :=
  VObj ((KName "type", VStr type) :: fs).
Definition Program (body : list value) : value :=
  node "Program" [(KName "body", VArr body)].
Definition BlockStatement (body : list value) : value :=
  node "BlockStatement" [(KName "body", VArr body)].
Definition ExpressionStatement (expression : value) : value :=
  node "ExpressionStatement" [(KName "expression", expression)].
Definition EmptyStatement : value := node "EmptyStatement" [].
Definition Identifier (name : string) : value :=
  node "Identifier" [(KName "name", VStr name)].
Definition Literal (n : Z) (raw : string) : value :=
  node "Literal" [(KName "value", VNum n); (KName "raw", VStr raw)].
Definition BinaryExpression (operator : string) (left right : value)
  : value :=
  node "BinaryExpression"
    [(KName "operator", VStr operator); (KName "left", left); (KName "right", right)].
Definition UnaryExpression (operator : string) (argument : value) : value :=
  node "UnaryExpression"
    [(KName "operator", VStr operator); (KName "argument", argument);
     (KName "prefix", VBool true)].
Definition CallExpression (callee : value) (arguments : list value)
  : value :=
  node "CallExpression"
    [(KName "callee", callee); (KName "arguments", VArr arguments)].
Definition ArrayExpression (elements : list value) : value :=
  node "ArrayExpression" [(KName "elements", VArr elements)].
(** A statement that is a lone identifier, [a;]. *)
Definition stmt (name : string) : value :=
  ExpressionStatement (Identifier name).
End Ast.

(** [match] on trees, with no text to parse and nothing cached: the
    program tree sits in the caller's heap at location [0]. *)
Definition no_parser (_ : string) : option value := None.

Definition match_trees (fuel : nat) (program structure : value)
  (opts : options) : result :=
  (match_ no_parser fuel (initial_module {[ 0%nat := program ]}) (CodeObj 0)
     (StructureObj structure) opts).1.

(** ** Notions the properties are stated with *)

(** A unary [-] or [+] applied directly to a numeric literal: the test
    under which [foldConstants] rewrites [tree[key]]. *)
Definition sign_on_literal (ast : value) : bool :=
  is_str (get ast "type") "UnaryExpression"
  && (is_str (get ast "operator") "-" || is_str (get ast "operator") "+")
  && is_str (get (get ast "argument") "type") "Literal"
  && isNumber (get (get ast "argument") "value").

(** No node held in a property or an array slot below [v] is such an
    expression. *)
Fixpoint folded (v : value) : bool :=
  match v with
  | VObj fs => forallb (fun kv => negb (sign_on_literal kv.2) && folded kv.2) fs
  | VArr xs => forallb (fun x => negb (sign_on_literal x) && folded x) xs
  | _ => true
  end.

(** [foldConstants] would leave the node [c] in place: it is not a sign on
    a literal, and not a unary expression without an argument. *)
Definition node_settled (c : value) : bool :=
  negb (sign_on_literal c)
  && negb (is_str (get c "type") "UnaryExpression" && nullish (get c "argument")).

Fixpoint settled (v : value) : bool :=
  match v with
  | VObj fs => forallb (fun kv => node_settled kv.2 && settled kv.2) fs
  | VArr xs => forallb (fun x => node_settled x && settled x) xs
  | _ => true
  end.

(** A tree that [JSON] carries as it is. *)
Definition plain (v : value) : Prop := deepClone v = v.

(** The marker [simplifyTree] leaves at the first occurrence of [x]. *)
Definition marker (x : string) : value :=
  VObj [(KName "wildcardVar", VStr x)].

Definition with_results (r : matchResults) (st : mstate) : mstate :=
  {| wVars := wVars st; results := r; console := console st;
     failure := failure st |}.

(** The state after one occurrence of [x] has been passed over. *)
Definition skip_one (x : string) (lts : gmap string nat) (st : mstate)
  : mstate :=
  {| wVars := with_leftToSkip (<[x := default 0 (lts !! x) - 1]> lts)
                (wVars st);
     results := results st; console := console st; failure := failure st |}.

Definition root_after (currNode : value) (r : matchResults) : option value :=
  match root r with
  | Some v => Some v
  | None =>
      if is_str (get currNode "type") "Program" then None else Some currNode
  end.

(** The state after [currNode] has been taken as the value of [x], whose
    cell held [cell]. *)
Definition bound_to (x : string) (cell : list (key * value))
  (currNode : value) (st : mstate) : mstate :=
  {| wVars :=
       with_values
         (<[x := foldl (fun c kv => assoc_set kv.1 kv.2 c) cell
                   (own_props currNode)]> (values (wVars st)))
         (wVars st);
     results :=
       {| underscore := underscore (results st);
          vars := <[str_slice 1 x := currNode]> (vars (results st));
          root := root_after currNode (results st) |};
     console := console st; failure := failure st |}.

(** The results once the glob named [g] has captured [xs]. *)
Definition capture (g : string) (xs : list value) (r : matchResults)
  : matchResults :=
  if String.eqb g "_" then
    {| underscore := underscore r ++ [VArr xs]; vars := vars r;
       root := root r |}
  else
    {| underscore := underscore r; vars := <[g := VArr xs]> (vars r);
       root := root r |}.

(** [m] returns only values that satisfy [Q]. *)
Definition returns {A} (m : M A) (Q : A -> Prop) : Prop :=
  forall st a st', m st = (Return a, st') -> Q a.

(** What a loop body hands on: loop variables in [I], or a returned value
    in [Q]. *)
Definition either {S R} (I : S -> Prop) (Q : R -> Prop) (r : S + R) : Prop :=
  match r with inl s => I s | inr v => Q v end.

Definition peers_of (c : call) : list value :=
  match c with
  | CheckMatchTree _ _ p => p
  | CheckNodeArray _ _ p => p
  end.

(** The peers a call leaves are what remains of the peers it was given. *)
Definition keeps_suffix (peers : list value) (a : answer) : Prop :=
  a.2 `suffix_of` peers.

(** A template node that [isGlob] never takes for a glob. *)
Definition glob_free (t : value) : Prop :=
  forall cells, isGlob cells t = Return None.

(** The loop variables of [checkNodeArray] while no glob is involved. *)
Definition scanning (s : value * bool * list value) : Prop :=
  s.1.2 = false /\ Forall glob_free (s.1.1 :: s.2).

(** A successful answer leaves no peer. *)
Definition all_found (a : answer) : Prop := a.1 = true -> a.2 = [].

(** The trees of the examples: the template [$x + $x] and the programs
    [a + a], [a + b]. *)
Definition sum_of (left right : string) : value :=
  Ast.ExpressionStatement
    (Ast.BinaryExpression "+" (Ast.Identifier left) (Ast.Identifier right)).

(** A callback that accepts whatever it is given. *)
Definition accept_all : callback := fun _ => VBool true.

(** The program [[,1];], whose array has a hole, and the template
    [$x();]. *)
Definition program_with_hole : value :=
  Ast.Program
    [Ast.ExpressionStatement
       (Ast.ArrayExpression [VNull; Ast.Literal 1 "1"])].
Definition call_of_x : value :=
  Ast.BlockStatement
    [Ast.ExpressionStatement (Ast.CallExpression (Ast.Identifier "$x") [])].

(** The state after [console.error(v)]. *)
Definition logged (v : value) (st : mstate) : mstate :=
  {| wVars := wVars st; results := results st; console := console st ++ [v];
     failure := failure st |}.

Definition missing_var (varName : string) : value :=
  VStr ("Callback var " ++ varName ++ " doesn't exist").

(** A run of calls of [match], each on the module as the one before left
    it. *)
Definition a_call : Type := code * rawStructure * options.

Fixpoint match_calls (esprima_parse : string -> option value) (fuel : nat)
  (m : module) (calls : list a_call) : module :=
  match calls with
  | [] => m
  | (c, structure, opts) :: calls' =>
      match_calls esprima_parse fuel
        (match_ esprima_parse fuel m c structure opts).2 calls'
  end.

(** A parser that knows the program [a;] and the template
    [function() { a; }]. *)
Definition toy_parse (s : string) : option value :=
  if String.eqb s "a;" then Some (Ast.Program [Ast.stmt "a"])
  else if String.eqb s "(function() { a; })" then
    Some (Ast.Program
            [Ast.ExpressionStatement
               (Ast.node "FunctionExpression"
                  [(KName "id", VNull); (KName "params", VArr []);
                   (KName "body", Ast.BlockStatement [Ast.stmt "a"])])])
  else None.

(** The depth of a tree, which bounds the recursion of the matcher. *)
Fixpoint height (v : value) : nat :=
  match v with
  | VArr xs => S (list_max (map height xs))
  | VObj fs => S (list_max (map (fun kv => height kv.2) fs))
  | _ => 0
  end.

Definition measure (c : call) : nat :=
  match c with
  | CheckMatchTree currTree _ _ => height currTree
  | CheckNodeArray nodeArr _ _ => height (VArr nodeArr)
  end.

(** [m] never runs out of fuel. *)
Definition finishes {A} (m : M A) : Prop :=
  forall st, (m st).1 <> OutOfFuel.

(** The variables [match] finds in a template. *)
Definition named_variables (esprima_parse : string -> option value)
  (m : module) (structure : rawStructure) : list string :=
  match parseStructureWithVars esprima_parse m structure new_wildcardVars with
  | (inr (_, w), _) => order w
  | (inl _, _) => []
  end.

(** The tree the module holds for the program it saw last. *)
Definition cached_tree (m : module) : value :=
  match cachedCodeTree m with
  | Some l => default VUndef (heap m !! l)
  | None => VUndef
  end.

(** A search state in which [$x] has [n] occurrences left to skip. *)
Definition skipping_state (n : nat) : mstate :=
  new_mstate
    (with_leftToSkip {[ "$x" := n ]} (declare_var "$x" new_wildcardVars)).

(** ** Notions for the termination of the search *)

(** A tree is [proper] when no object in it lists a key twice, as every
    object of the language is; [distinct] is that test on the keys. *)
Fixpoint distinct (ks : list key) : bool :=
  match ks with
  | [] => true
  | k :: ks' => negb (existsb (key_eqb k) ks') && distinct ks'
  end.

Fixpoint proper (v : value) : bool :=
  match v with
  | VObj fs => distinct (map fst fs) && forallb (fun kv => proper kv.2) fs
  | VArr xs => forallb proper xs
  | _ => true
  end.

Definition all_proper (peers : list value) : Prop :=
  forallb proper peers = true.
Definition proper_answer (a : answer) : Prop := all_proper a.2.

(** How many candidate bindings one run of the matcher can meet in a
    program tree: a node is compared once by [exactMatchNode] on the way
    down from its parent and once by [checkMatchTree] on its own. *)
Fixpoint cost (v : value) : nat :=
  match v with
  | VObj fs => S (2 * list_sum (map (fun kv => cost kv.2) fs))
  | VArr xs => S (2 * list_sum (map cost xs))
  | _ => 1
  end.

Definition budget (c : call) : nat :=
  match c with
  | CheckMatchTree currTree _ _ => cost currTree
  | CheckNodeArray nodeArr _ _ => list_sum (map cost nodeArr)
  end.

Definition call_ok (c : call) : Prop :=
  match c with
  | CheckMatchTree currTree toFind peers =>
      proper currTree = true /\ proper toFind = true /\ all_proper peers
  | CheckNodeArray nodeArr toFind peers =>
      all_proper nodeArr /\ proper toFind = true /\ all_proper peers
  end.

(** What the key [k] of the template can cost [exactMatchNode] at
    [currNode], and what the children of a node cost together. *)
Definition charge (c : value) : nat := if isObject c then cost c else 0.

Definition weight (currNode : value) (k : key) : nat :=
  (if key_eqb k "wildcardVar" then 1 else 0) + charge (get currNode k).

Definition children (v : value) : nat :=
  list_sum (map (fun kv => charge kv.2) (own_props v)).

(** [wVars.leftToSkip[x]] and [wVars.skipData[x]], [0] where absent. *)
Definition to_skip (st : mstate) (x : string) : nat :=
  match leftToSkip (wVars st) with
  | Some d => default 0 (d !! x)
  | None => 0
  end.

Definition skipped (st : mstate) (x : string) : nat :=
  default 0 (skipData (wVars st) !! x).

Definition cells_ok (st : mstate) : Prop :=
  forall x cell, values (wVars st) !! x = Some cell ->
    proper (VObj cell) = true.

(** What a piece of the matcher that meets at most [k] candidates does to
    the search state: it lowers each counter of [leftToSkip] by [k] at
    most, and a variable that had [k] or more left to skip keeps its
    cell. *)
Definition step (k : nat) (st st' : mstate) : Prop :=
  order (wVars st') = order (wVars st)
  /\ skipData (wVars st') = skipData (wVars st)
  /\ dom (values (wVars st')) = dom (values (wVars st))
  /\ forall x, to_skip st' x <= to_skip st x
       /\ to_skip st x <= to_skip st' x + k
       /\ (k <= to_skip st x ->
           values (wVars st') !! x = values (wVars st) !! x).

Definition frugal {A} (k : nat) (m : M A) (Q : A -> Prop) : Prop :=
  forall st a st', cells_ok st -> m st = (Return a, st') ->
    cells_ok st' /\ Q a /\ step k st st'.

(** Operations that return and leave [wVars] alone. *)
Definition quiet {A} (m : M A) : Prop :=
  forall st, exists a st', m st = (Return a, st') /\ wVars st' = wVars st.

(** [_.isEmpty(wVars.values[x])]. *)
Definition idle (st : mstate) (x : string) : Prop :=
  match values (wVars st) !! x with
  | Some (_ :: _) => False
  | _ => True
  end.

(** A run that does not run out of fuel, and [Q] of what it returns. *)
Definition ends {A} (r : outcome A * mstate) (Q : A -> mstate -> Prop)
  : Prop :=
  match r with
  | (Return a, st') => Q a st'
  | (TypeError, _) => True
  | (OutOfFuel, _) => False
  end.

(** The fuel the loop of [anyPossible] needs at index [i] of [n]
    variables, when the variable has [s] occurrences skipped and a run
    meets at most [B] candidates. *)
Definition rounds (B n i s : nat) : nat :=
  (B - s) + 1 + (n - 1 - i) * (B + 1).

(** The loop at index [i] writes [skipData] at the variables from [i] on
    only. *)
Definition only_later (i : nat) (st st' : mstate) : Prop :=
  order (wVars st') = order (wVars st)
  /\ forall x, x ∉ drop i (order (wVars st)) ->
       skipData (wVars st') !! x = skipData (wVars st) !! x.

(** [simplifyTree] lists a variable once, and with a cell. *)
Definition vars_ok (w : wildcardVars) : Prop :=
  NoDup (order w) /\ forall x, x ∈ order w -> is_Some (values w !! x).

Definition rec_ok (rec : value -> wildcardVars -> value * wildcardVars)
  (child : value) : Prop :=
  forall w, proper child = true -> vars_ok w ->
    proper (rec child w).1 = true /\ vars_ok (rec child w).2.

(** The tree [match] searches for a program given as an object, the
    variables it finds in a template given as an object, and fuel that is
    enough for the two. *)
Definition folded_program (program : value) : value :=
  (foldConstants (deepClone program)).2.

Definition variables_of (structure : value) : list string :=
  order (simplifyTree (foldConstants (deepClone structure)).2
           new_wildcardVars).2.

Definition enough (program structure : value) : nat :=
  S (height (folded_program program))
  + length (variables_of structure) * S (cost (folded_program program)).

(** Callbacks one of which returns a falsy value whatever it is given. *)
Definition rejecting (cbs : list (string * callback)) : Prop :=
  exists entry, entry ∈ cbs /\ forall args, truthy (entry.2 args) = false.

Definition reject_all : callback := fun _ => VBool false.

Definition rejecting_options : options :=
  {| varCallbacks := [("$x", reject_all)]; single := false |}.

(** ** Further notions *)

(** A tree that [JSON] can write: no [undefined] in it (and no cell). *)
Fixpoint json (v : value) : bool :=
  match v with
  | VUndef | VCell _ => false
  | VArr xs => forallb json xs
  | VObj fs => forallb (fun kv => json kv.2) fs
  | _ => true
  end.

(** A unary expression whose [argument] is [undefined] or [null]: reading
    [argument.type] raises.  [foldable] trees hold no such node below the
    root. *)
Definition lacks_argument (c : value) : bool :=
  is_str (get c "type") "UnaryExpression" && nullish (get c "argument").

Fixpoint foldable (v : value) : bool :=
  match v with
  | VObj fs =>
      forallb (fun kv => negb (lacks_argument kv.2) && foldable kv.2) fs
  | VArr xs => forallb (fun x => negb (lacks_argument x) && foldable x) xs
  | _ => true
  end.

(** The expression [op1 op2 ... e] and the number a chain of signs makes
    of [n]. *)
Definition signs (ops : list string) (e : value) : value :=
  foldr Ast.UnaryExpression e ops.

Definition signed (ops : list string) (n : Z) : Z :=
  foldr (fun op n => if String.eqb op "-" then (- n)%Z else n) n ops.

(** What [foldConstants] leaves of a property: a value that is no object
    stays, an object stays an object. *)
Definition alike (a b : value) : Prop :=
  if isObject a then isObject b = true else b = a.

(** A node [simplifyTree] rewrites or removes: a wildcard, a named
    variable, an empty statement.  An [unmarked] tree holds none. *)
Definition special (c : value) : bool :=
  isObject c
  && (isWildcard c || isWildcardVar c
      || is_str (get c "type") "EmptyStatement").

Fixpoint unmarked (v : value) : bool :=
  match v with
  | VObj fs => forallb (fun kv => negb (special kv.2) && unmarked kv.2) fs
  | VArr xs => forallb (fun x => negb (special x) && unmarked x) xs
  | _ => true
  end.

(** The inventory of variables as [simplifyTree] keeps it: a variable is
    listed once, exactly the listed ones have a cell, every cell is empty,
    every skip count is [0], and [leftToSkip] is not assigned. *)
Definition tidy (w : wildcardVars) : Prop :=
  NoDup (order w)
  /\ (forall x, x ∈ order w <-> is_Some (values w !! x))
  /\ (forall x cell, values w !! x = Some cell -> cell = [])
  /\ (forall x, x ∈ order w -> skipData w !! x = Some 0)
  /\ leftToSkip w = None.

Definition grows (w w' : wildcardVars) : Prop :=
  tidy w' /\ order w `prefix_of` order w'.

(** What a callback registered under [property] is called with, what it
    answers, and whether that answer accepts: a truthy value without a
    [failure] property. *)
Definition cell_arg (cells : gmap string (list (key * value)))
  (varName : string) : value :=
  match cells !! stringLeftTrim varName with
  | None => VUndef
  | Some cell => deepClone (VObj cell)
  end.

Definition callback_args (cells : gmap string (list (key * value)))
  (property : string) : list value :=
  map (cell_arg cells) (split_comma "" property).

Definition answer_of (cells : gmap string (list (key * value)))
  (entry : string * callback) : value :=
  entry.2 (callback_args cells entry.1).

Definition accepts (cells : gmap string (list (key * value)))
  (entry : string * callback) : bool :=
  truthy (answer_of cells entry)
  && negb (bool_decide (is_Some (has_failure (answer_of cells entry)))).

(** The message of the first callback that does not accept, if it gives
    one. *)
Definition failure_of (cells : gmap string (list (key * value)))
  (cbs : list (string * callback)) : option value :=
  match List.find (fun entry => negb (accepts cells entry)) cbs with
  | Some entry => has_failure (answer_of cells entry)
  | None => None
  end.

(** [st'] is [st] but for the console and the failure message. *)
Definition same_search (st st' : mstate) : Prop :=
  wVars st' = wVars st /\ results st' = results st.

(** The key [n, m, ...] of a callback for several variables, and a name
    fit for it: no comma in it and no white space at its ends. *)
Fixpoint has_comma (s : string) : bool :=
  match s with
  | EmptyString => false
  | String c s' => Ascii.eqb c ","%char || has_comma s'
  end.

Fixpoint comma_list (n : string) (rest : list string) : string :=
  match rest with
  | [] => n
  | m :: rest' => n ++ ", " ++ comma_list m rest'
  end.

Definition a_name (m : string) : Prop :=
  has_comma m = false /\ stringLeftTrim m = m.

(** Every callback accepts the bindings of [st], and no failure message
    is left. *)
Definition accepted (cbs : list (string * callback)) (st : mstate) : Prop :=
  forallb (accepts (values (wVars st))) cbs = true /\ failure st = None.

(** [wVars.leftToSkip] has not been assigned; a computation that then
    leaves [wVars] as it is. *)
Definition unset (st : mstate) : Prop := leftToSkip (wVars st) = None.

Definition still {A} (m : M A) : Prop :=
  forall st a st', unset st -> m st = (Return a, st') -> wVars st' = wVars st.

(** ** Trees matched against themselves *)

(** [isGlob(x)] is falsy whatever the variables hold. *)
Definition unglobbed (x : value) : bool :=
  match isGlob ∅ x with Return None => true | _ => false end.

(** Trees as a parser builds them for ordinary code: no [undefined], no
    key twice in an object, and in an array no [null] and no glob. *)
Fixpoint ordinary (v : value) : bool :=
  match v with
  | VUndef | VCell _ => false
  | VObj fs => distinct (map fst fs) && forallb (fun kv => ordinary kv.2) fs
  | VArr xs =>
      forallb (fun x => negb (nullish x) && unglobbed x && ordinary x) xs
  | _ => true
  end.

(** The variables, [_] and [vars] are as they were, and so is a [root]
    that was set. *)
Definition kept (st st' : mstate) : Prop :=
  wVars st' = wVars st
  /\ underscore (results st') = underscore (results st)
  /\ vars (results st') = vars (results st)
  /\ (is_Some (root (results st)) ->
      root (results st') = root (results st)).

(** [t] has become the [root], if there was none and [t] can be one. *)
Definition rooted (t : value) (st st' : mstate) : Prop :=
  root (results st) = None ->
  is_str (get t "type") "Program" = false -> truthy t = true ->
  root (results st') = Some t.

(** A call that looks for a tree in itself, what it answers, and the node
    it starts from. *)
Definition self_call (c : call) : Prop :=
  match c with
  | CheckMatchTree t t' _ => t' = t /\ ordinary t = true /\ nullish t = false
  | CheckNodeArray xs x rest => xs = x :: rest /\ ordinary (VArr xs) = true
  end.

Definition self_answer (c : call) : answer :=
  match c with
  | CheckMatchTree _ _ peers => (true, peers)
  | CheckNodeArray _ _ _ => (true, [])
  end.

Definition first_node (c : call) : value :=
  match c with
  | CheckMatchTree t _ _ => t
  | CheckNodeArray _ x _ => x
  end.

Definition matches_itself (m : M answer) (c : call) : Prop :=
  forall st, exists st',
    m st = (Return (self_answer c), st')
    /\ kept st st' /\ rooted (first_node c) st st'.

(** A list of statements fit to be matched against itself: [JSON] can
    write it, it is folded, and it holds no wildcard, variable, empty
    statement, glob or array hole. *)
Definition everyday (body : list value) : bool :=
  json (VArr body) && settled (VArr body) && unmarked (VArr body)
  && ordinary (VArr body).

(** The caller assigns to its own object [o] between two calls: the heap
    holds [t] there from then on, and the module's variables are as they
    were. *)
Definition write (o : loc) (t : value) (m : module) : module :=
  {| structureCache := structureCache m; cachedCode := cachedCode m;
     cachedCodeTree := cachedCodeTree m; heap := <[o := t]> (heap m) |}.

(** [match] returned, with a match or without. *)
Definition returned (r : result) : Prop :=
  match r with
  | Matched _ | NoMatch => True
  | _ => False
  end.

(** What a stretch of the search leaves of [matchResults]: a [root] that
    was set is still the same, [_] is no shorter and [vars] has lost no
    name. *)
Definition trail (st0 st : mstate) : Prop :=
  (is_Some (root (results st0)) ->
   root (results st) = root (results st0))
  /\ length (underscore (results st0)) <= length (underscore (results st))
  /\ dom (vars (results st0)) ⊆ dom (vars (results st)).

(** [m], run anywhere after [st0], stays on the trail of [st0]. *)
Definition lasting {A} (st0 : mstate) (m : M A) : Prop :=
  forall st a st', trail st0 st -> m st = (Return a, st') -> trail st0 st'.

(** [m] stays on the trail of the state it starts in. *)
Definition adds {A} (m : M A) : Prop :=
  forall st a st', m st = (Return a, st') -> trail st st'.

(** ** [addStyling]

    The state [addStyling] keeps on itself between calls; [styles] is
    constant. *)
Record styling := {
  styleMap : gmap string string;
  counter : nat
}.

Definition styles : list string :=
  ["one"; "two"; "three"; "four"; "five"; "six"; "seven"].

Definition initial_styling : styling := {| styleMap := ∅; counter := 0 |}.

(** [[A-Za-z0-9]] and [\w]. *)
Definition is_alnum (c : Ascii.ascii) : bool :=
  let n := Ascii.nat_of_ascii c in
  ((48 <=? n)%nat && (n <=? 57)%nat)
  || ((65 <=? n)%nat && (n <=? 90)%nat)
  || ((97 <=? n)%nat && (n <=? 122)%nat).

Definition is_word (c : Ascii.ascii) : bool :=
  is_alnum c || Ascii.eqb c "_"%char.

(** [(?![A-Za-z0-9])] at the head of [s]. *)
Definition not_alnum_next (s : string) : bool :=
  match s with
  | String c _ => negb (is_alnum c)
  | EmptyString => true
  end.

(** What [\w*] takes at the head of [s]: all it can. *)
Fixpoint word_run (s : string) : string :=
  match s with
  | String c s' => if is_word c then String c (word_run s') else EmptyString
  | EmptyString => EmptyString
  end.

(** [s] without its first [n] characters. *)
Fixpoint string_drop (n : nat) (s : string) : string :=
  match n, s with
  | S n', String _ s' => string_drop n' s'
  | _, _ => s
  end.

Definition blank_span : string := "<span class='structuredjs_blank'></span>".

(** [code.replace(/(^|[^A-Za-z0-9])_(?![A-Za-z0-9])/g, "$1<span ...>")],
    read from the left: [skip] characters belong to the match just
    replaced, [at_start] says whether the position is the start of the
    text.  At a position the alternative [^] is tried before
    [[^A-Za-z0-9]]. *)
Fixpoint replace_blanks (skip : nat) (at_start : bool) (code : string)
  : string :=
  match code with
  | EmptyString => EmptyString
  | String c rest =>
      match skip with
      | S k => replace_blanks k false rest
      | 0 =>
          if at_start && Ascii.eqb c "_"%char && not_alnum_next rest then
            blank_span ++ replace_blanks 0 false rest
          else if negb (is_alnum c)
                  && match rest with
                     | String u rest' =>
                         Ascii.eqb u "_"%char && not_alnum_next rest'
                     | EmptyString => false
                     end
          then String c (blank_span ++ replace_blanks 1 false rest)
          else String c (replace_blanks 0 false rest)
      end
  end.

(** The text Rainbow puts between [$] and the name of a called function,
    and after the name. *)
Definition call_open : string :=
  "<span class=" ++ String "034"%char "function call"
    ++ String "034"%char ">".
Definition call_close : string := "</span>".

Section addStyling.
(** [Object.prototype]: for a name that [in] finds there, the text its
    value gives in a string concatenation. *)
Variable inherited : string -> option string.

(** [varName in fn.styleMap] and [fn.styleMap[varName]]. *)
Definition style_in (varName : string) (fn : styling) : bool :=
  bool_decide (is_Some (styleMap fn !! varName))
  || bool_decide (is_Some (inherited varName)).

Definition style_get (varName : string) (fn : styling) : string :=
  match styleMap fn !! varName with
  | Some style => style
  | None => default "undefined" (inherited varName)
  end.

(** The function handed to [replace]; [prev] and [varName] are as after
    [prev = prev || ""] and [varName = varName || fnVarName]. *)
Definition style_variable (prev varName : string) (fn : styling)
  : string * styling :=
  let fn' :=
    if style_in varName fn then fn
    else
      {| styleMap :=
           <[varName := if (counter fn <? length styles)%nat
                        then default "undefined" (styles !! counter fn)
                        else "extra"]> (styleMap fn);
         counter := counter fn + 1 |} in
  (prev ++ "<span class='structuredjs_var " ++ style_get varName fn' ++ "'>"
     ++ "</span>",
   fn').

(** [code.replace(regexVariables, function ...)], read from the left as
    [replace_blanks] is.  At a position the regular expression tries
    [(^|[^\w])\$(\w+)], with [^] first, and then
    [\$<span class="function call">(\w+)<\/span>]. *)
Fixpoint replace_variables (skip : nat) (at_start : bool) (code : string)
  (fn : styling) : string * styling :=
  match code with
  | EmptyString => (EmptyString, fn)
  | String c rest =>
      match skip with
      | S k => replace_variables k false rest fn
      | 0 =>
          if at_start && Ascii.eqb c "$"%char
             && negb (String.eqb (word_run rest) "")
          then
            let varName := word_run rest in
            let '(span, fn1) := style_variable "" varName fn in
            let '(more, fn2) :=
              replace_variables (String.length varName) false rest fn1 in
            (span ++ more, fn2)
          else if negb (is_word c)
                  && match rest with
                     | String d rest' =>
                         Ascii.eqb d "$"%char
                         && negb (String.eqb (word_run rest') "")
                     | EmptyString => false
                     end
          then
            let varName := word_run (string_drop 1 rest) in
            let '(span, fn1) := style_variable (String c "") varName fn in
            let '(more, fn2) :=
              replace_variables (1 + String.length varName) false rest fn1 in
            (span ++ more, fn2)
          else if Ascii.eqb c "$"%char
                  && String.prefix call_open rest
                  && negb (String.eqb
                             (word_run
                                (string_drop (String.length call_open) rest))
                             "")
                  && String.prefix call_close
                       (string_drop
                          (String.length call_open
                           + String.length
                               (word_run
                                  (string_drop (String.length call_open)
                                     rest)))
                          rest)
          then
            let varName :=
              word_run (string_drop (String.length call_open) rest) in
            let '(span, fn1) := style_variable "" varName fn in
            let '(more, fn2) :=
              replace_variables
                (String.length call_open + String.length varName
                 + String.length call_close) false rest fn1 in
            (span ++ more, fn2)
          else
            let '(more, fn1) := replace_variables 0 false rest fn in
            (String c more, fn1)
      end
  end.

Definition addStyling (code : string) (maintainStyles : bool) (fn : styling)
  : string * styling :=
  let fn := if maintainStyles then fn else initial_styling in
  replace_variables 0 true (replace_blanks 0 true code) fn.
End addStyling.

(** *** The texts [addStyling] is specified on *)

(** The character [c] does not occur in [s]. *)
Fixpoint lacks (c : Ascii.ascii) (s : string) : bool :=
  match s with
  | String d s' => negb (Ascii.eqb d c) && lacks c s'
  | EmptyString => true
  end.

(** Text with no [$] and no [_] in it. *)
Definition unmarked_text (s : string) : bool :=
  lacks "$"%char s && lacks "_"%char s.

(** [s] is empty or starts outside a word; [s] ends outside a word. *)
Definition starts_open (s : string) : bool :=
  match s with
  | String c _ => negb (is_word c)
  | EmptyString => true
  end.

Fixpoint ends_open (s : string) : bool :=
  match s with
  | EmptyString => false
  | String c EmptyString => negb (is_word c)
  | String _ s' => ends_open s'
  end.

(** Text between two variables, and the name of a variable: letters and
    digits, at least one. *)
Definition separator (s : string) : bool :=
  unmarked_text s && starts_open s && ends_open s.

Fixpoint alnums (s : string) : bool :=
  match s with
  | String c s' => is_alnum c && alnums s'
  | EmptyString => true
  end.

Definition variable_name (w : string) : bool :=
  negb (String.eqb w "") && alnums w.

(** A text [sep1 $w1 sep2 $w2 ... tail]. *)
Fixpoint listing (ts : list (string * string)) (tail : string) : string :=
  match ts with
  | [] => tail
  | (sep, w) :: ts' => sep ++ "$" ++ w ++ listing ts' tail
  end.

(** The names met so far, in the order of their first occurrence. *)
Definition note (w : string) (seen : list string) : list string :=
  if bool_decide (w ∈ seen) then seen else seen ++ [w].

Fixpoint position (w : string) (seen : list string) : option nat :=
  match seen with
  | [] => None
  | v :: seen' =>
      if String.eqb v w then Some 0 else S <$> position w seen'
  end.

(** The class of the [i]th name. *)
Definition style_at (i : nat) : string := default "extra" (styles !! i).

Definition style_of (w : string) (seen : list string) : string :=
  match position w seen with
  | Some i => style_at i
  | None => "undefined"
  end.

Definition var_span (style : string) : string :=
  "<span class='structuredjs_var " ++ style ++ "'></span>".

(** The listing with every variable replaced by its span. *)
Fixpoint styled_listing (seen : list string) (ts : list (string * string))
  (tail : string) : string :=
  match ts with
  | [] => tail
  | (sep, w) :: ts' =>
      sep ++ var_span (style_of w (note w seen))
        ++ styled_listing (note w seen) ts' tail
  end.

(** The names met once [ts] has been read. *)
Fixpoint seen_after (seen : list string) (ts : list (string * string))
  : list string :=
  match ts with
  | [] => seen
  | (_, w) :: ts' => seen_after (note w seen) ts'
  end.

Definition token (t : string * string) : bool :=
  separator t.1 && variable_name t.2.

(** [fn] is the state after the names [seen] have been met. *)
Definition styled (seen : list string) (fn : styling) : Prop :=
  counter fn = length seen
  /\ forall w, styleMap fn !! w = style_at <$> position w seen.


(** A text [head _ gap1 _ gap2 _ ... tail] and the same with a blank span
    for every [_]. *)
Fixpoint gaps (gs : list string) (tail : string) : string :=
  match gs with
  | [] => tail
  | g :: gs' => g ++ "_" ++ gaps gs' tail
  end.

Fixpoint blanked (gs : list string) (tail : string) : string :=
  match gs with
  | [] => tail
  | g :: gs' => g ++ blank_span ++ blanked gs' tail
  end.

(** [s] ends outside letters and digits: the text before a blank, empty
    only at the start of the whole text. *)
Fixpoint ends_plain (s : string) : bool :=
  match s with
  | EmptyString => true
  | String c EmptyString => negb (is_alnum c)
  | String _ s' => ends_plain s'
  end.

(** The text between two blanks. *)
Definition gap (g : string) : bool :=
  unmarked_text g && negb (String.eqb g "") && not_alnum_next g
  && ends_plain g.



(** * Properties *)

Ltac munfold :=
  unfold mbind, mret, M_bind, M_ret, get_state, put_wVars, put_results,
    console_error, put_failure, throw, out_of_fuel, lift in *.

Lemma key_eqb_spec (a b : key) : reflect (a = b) (key_eqb a b).
Proof.
  destruct a as [s|i], b as [s'|i']; simpl; try (constructor; congruence).
  - destruct (String.eqb_spec s s'); constructor; congruence.
  - destruct (Nat.eqb_spec i i'); constructor; congruence.
Qed.

(** ** The loop combinator *)
Lemma js_for_nil {S A R} (body : S -> A -> M (S + R)) s st :
  js_for body s [] st = (Return (inl s), st).
Proof. reflexivity. Qed.

Lemma js_for_cons {S A R} (body : S -> A -> M (S + R)) s x xs st :
  js_for body s (x :: xs) st =
    match body s x st with
    | (Return (inl s'), st') => js_for body s' xs st'
    | (Return (inr v), st') => (Return (inr v), st')
    | (TypeError, st') => (TypeError, st')
    | (OutOfFuel, st') => (OutOfFuel, st')
    end.
Proof.
  simpl. munfold. destruct (body s x st) as [[[]| |] ?]; reflexivity.
Qed.


(** ** Constant folding *)

Lemma literal_is_object v :
  is_str (get v "type") "Literal" = true -> exists fs, v = VObj fs.
Proof.
  destruct v; simpl; try discriminate; eauto.
Qed.

Lemma fold_unary_unsigned ast :
  sign_on_literal ast = false -> fold_unary ast = Some ast \/ fold_unary ast = None.
Proof.
  unfold sign_on_literal, fold_unary. intros H.
  destruct (is_str (get ast "type") "UnaryExpression"); [|auto].
  destruct (nullish (get ast "argument")); [auto|].
  destruct (is_str (get (get ast "argument") "type") "Literal") eqn:Hl; [|auto].
  destruct (literal_is_object _ Hl) as [fs Hfs]. rewrite Hfs in *.
  destruct (get (VObj fs) "value"); auto.
  rewrite !andb_true_r, andb_true_l in H. apply orb_false_elim in H as [-> ->]. auto.
Qed.

Lemma fold_unary_signed ast :
  sign_on_literal ast = true ->
  exists fs n m, get ast "argument" = VObj fs /\ assoc "value" fs = Some (VNum n) /\
    is_str (get (VObj fs) "type") "Literal" = true /\
    fold_unary ast = Some (VObj (assoc_set "value" (VNum m) fs)).
Proof.
  unfold sign_on_literal, fold_unary. intros H.
  apply andb_prop in H as [H H4]. apply andb_prop in H as [H H3]. apply andb_prop in H as [H1 H2].
  rewrite H1, H3.
  destruct (literal_is_object _ H3) as [fs Hfs]. rewrite Hfs in *. simpl nullish. cbv iota.
  destruct (get (VObj fs) "value") as [| |b|n|s|xs|fs'|x] eqn:Hv; try discriminate.
  assert (Hva : assoc "value" fs = Some (VNum n)).
  { simpl in Hv. destruct (assoc "value" fs); simpl in Hv; congruence. }
  destruct (is_str (get ast "operator") "-") eqn:Hm.
  - exists fs, n, (- n)%Z. auto.
  - simpl in H2. rewrite H2. exists fs, n, n. auto.
Qed.

Lemma scalar_settled c : isObject c = false -> node_settled c && settled c = true.
Proof. destruct c; try discriminate; reflexivity. Qed.

Lemma node_settled_stays c : node_settled c = true -> fold_unary c = Some c.
Proof.
  unfold node_settled. intros H. apply andb_prop in H as [H1 H2].
  apply negb_true_iff in H1, H2.
  destruct (fold_unary_unsigned _ H1) as [E|E]; [done|].
  unfold fold_unary in E.
  destruct (is_str (get c "type") "UnaryExpression"); [|done].
  simpl in H2. rewrite H2 in E.
  destruct (is_str (get (get c "argument") "type") "Literal"); [|done].
  destruct (get c "argument"); try done.
  destruct (get (VObj fs) "value"); try done.
  destruct (is_str (get c "operator") "-"); [done|].
  destruct (is_str (get c "operator") "+"); done.
Qed.

Lemma assoc_set_other k k' v fs :
  k' <> k -> assoc k' (assoc_set k v fs) = assoc k' fs.
Proof.
  intros Hne. induction fs as [|[k0 v0] fs IH]; simpl.
  - destruct (key_eqb_spec k k'); congruence.
  - destruct (key_eqb_spec k0 k) as [->|]; simpl.
    + destruct (key_eqb_spec k k'); congruence.
    + destruct (key_eqb_spec k0 k'); congruence.
Qed.

Lemma fold_unary_settles c c' : fold_unary c = Some c' -> node_settled c' = true.
Proof.
  intros E. destruct (sign_on_literal c) eqn:Hs.
  - destruct (fold_unary_signed _ Hs) as (fs & n & m & Ha & Hv & Hl & E').
    (* the result is one of the two literals *)
    assert (Hc : exists m', c' = VObj (assoc_set "value" (VNum m') fs)).
    { unfold fold_unary in E. unfold sign_on_literal in Hs.
      apply andb_prop in Hs as [Hs H4]. apply andb_prop in Hs as [Hs H3]. apply andb_prop in Hs as [H1 H2].
      rewrite H1, Ha in E. simpl nullish in E. cbv iota in E. rewrite Hl in E.
      simpl get in E. rewrite Hv in E. simpl in E.
      destruct (is_str (get c "operator") "-"); [injection E as <-; eauto|].
      simpl in H2. rewrite H2 in E. injection E as <-. eauto. }
    destruct Hc as [m' ->]. unfold node_settled, sign_on_literal.
    assert (Ht : get (VObj (assoc_set "value" (VNum m') fs)) "type" = get (VObj fs) "type").
    { simpl. by rewrite assoc_set_other. }
    rewrite Ht. destruct (get (VObj fs) "type") as [| | | |s| | |]; try discriminate Hl.
    simpl in Hl. apply String.eqb_eq in Hl as ->. reflexivity.
  - destruct (fold_unary_unsigned _ Hs) as [E'|E']; [|congruence].
    rewrite E' in E. injection E as <-.
    unfold node_settled. rewrite Hs. simpl.
    unfold fold_unary in E'.
    destruct (is_str (get c "type") "UnaryExpression"); [|done].
    destruct (nullish (get c "argument")); done.
Qed.

Lemma settled_assoc fs k c :
  settled (VObj fs) = true -> assoc k fs = Some c -> node_settled c && settled c = true.
Proof.
  simpl. induction fs as [|[k0 v0] fs IH]; simpl; [done|].
  intros H E. apply andb_prop in H as [H1 H2].
  destruct (key_eqb k0 k); [by injection E as <-|auto].
Qed.

Lemma settled_assoc_set fs k n :
  settled (VObj fs) = true -> settled (VObj (assoc_set k (VNum n) fs)) = true.
Proof.
  simpl. induction fs as [|[k0 v0] fs IH]; simpl; [done|].
  intros H. apply andb_prop in H as [H1 H2].
  destruct (key_eqb k0 k); simpl; [done|]. rewrite H1. auto.
Qed.

Lemma get_argument_object c fs :
  get c "argument" = VObj fs ->
  exists fsc, c = VObj fsc /\ assoc "argument" fsc = Some (VObj fs).
Proof.
  destruct c as [| |b|n|s|xs|fsc|x]; try discriminate.
  - intros H. exists fsc. split; [done|]. simpl in H.
    destruct (assoc "argument" fsc); simpl in H; congruence.
Qed.

Lemma fold_unary_keeps_settled c c' :
  settled c = true -> fold_unary c = Some c' -> settled c' = true.
Proof.
  intros Hs E. destruct (sign_on_literal c) eqn:Hsg.
  - destruct (fold_unary_signed _ Hsg) as (fs & n & m & Ha & Hv & Hl & E').
    assert (Hfs : settled (VObj fs) = true).
    { destruct (get_argument_object _ _ Ha) as (fsc & -> & Hq).
      apply (settled_assoc _ _ _ Hs) in Hq. by apply andb_prop in Hq as [_ ?]. }
    unfold fold_unary in E. unfold sign_on_literal in Hsg.
    apply andb_prop in Hsg as [Hsg H4]. apply andb_prop in Hsg as [Hsg H3]. apply andb_prop in Hsg as [H1 H2].
    rewrite H1, Ha in E. simpl nullish in E. cbv iota in E. rewrite Hl in E.
    simpl get in E. rewrite Hv in E. simpl in E.
    destruct (is_str (get c "operator") "-"); [injection E as <-; by apply settled_assoc_set|].
    simpl in H2. rewrite H2 in E. injection E as <-. by apply settled_assoc_set.
  - destruct (fold_unary_unsigned _ Hsg) as [E'|E']; congruence.
Qed.

Section fold_props_facts.
Context {A : Type} (getv : A -> value) (setv : A -> value -> A).
Hypothesis get_set : forall p v, getv (setv p v) = v.
Hypothesis set_get : forall p, setv p (getv p) = p.
Hypothesis set_set : forall p v v', setv (setv p v) v' = setv p v'.

Lemma fold_props_settles ps : forall ps1,
  Forall (fun p => forall a1, foldConstants (getv p) = (Normal, a1) -> settled a1 = true) ps ->
  fold_props getv setv foldConstants ps = (Normal, ps1) -> forallb (fun p => node_settled (getv p) && settled (getv p)) ps1 = true.
Proof.
  induction ps as [|p ps IH]; intros ps1 HF E; simpl in E.
  - by injection E as <-.
  - apply Forall_cons in HF as [Hp HF].
    destruct (isObject (getv p)) eqn:Ho.
    + destruct (foldConstants (getv p)) as [[] ast1] eqn:Er; [|discriminate].
      destruct (fold_unary ast1) as [ast2|] eqn:Eu; [|discriminate].
      destruct (fold_props getv setv foldConstants ps) as [c ps'] eqn:Et.
      injection E as -> <-. simpl. rewrite get_set.
      rewrite (fold_unary_settles _ _ Eu).
      rewrite (fold_unary_keeps_settled _ _ (Hp _ eq_refl) Eu). simpl. by apply IH.
    + destruct (fold_props getv setv foldConstants ps) as [c ps'] eqn:Et.
      injection E as -> <-. simpl. rewrite (scalar_settled _ Ho). simpl. by apply IH.
Qed.

Lemma fold_props_settled ps :
  Forall (fun p => settled (getv p) = true -> foldConstants (getv p) = (Normal, getv p)) ps ->
  forallb (fun p => node_settled (getv p) && settled (getv p)) ps = true -> fold_props getv setv foldConstants ps = (Normal, ps).
Proof.
  induction ps as [|p ps IH]; intros HF Hs; simpl; [done|].
  apply Forall_cons in HF as [Hp HF]. simpl in Hs.
  apply andb_prop in Hs as [Hs1 Hs2]. apply andb_prop in Hs1 as [Hn Hs1].
  rewrite (IH HF Hs2).
  destruct (isObject (getv p)); [|done].
  rewrite (Hp Hs1), (node_settled_stays _ Hn), set_get. done.
Qed.
End fold_props_facts.

Lemma set_snd_get (p : key * value) : set_snd p p.2 = p.
Proof. by destruct p. Qed.

Lemma foldConstants_settles t : forall t1,
  foldConstants t = (Normal, t1) -> settled t1 = true.
Proof.
  induction t as [| |b|n|s|xs IH|fs IH|x] using value_rect'; intros t1 E; simpl in E;
    try (by injection E as <-).
  - destruct (fold_props id _ foldConstants xs) as [c xs'] eqn:Ef.
    injection E as -> <-. simpl.
    by apply (fold_props_settles id (fun _ v => v)) in Ef.
  - destruct (fold_props snd set_snd foldConstants fs) as [c fs'] eqn:Ef.
    injection E as -> <-. simpl.
    by apply (fold_props_settles snd set_snd) in Ef.
Qed.

Lemma foldConstants_settled t :
  settled t = true -> foldConstants t = (Normal, t).
Proof.
  induction t as [| |b|n|s|xs IH|fs IH|x] using value_rect'; intros Hs; simpl; try done.
  - by rewrite (fold_props_settled id (fun _ v => v)).
  - rewrite (fold_props_settled snd set_snd); auto using set_snd_get.
Qed.

Lemma foldConstants_isObject t c t1 :
  foldConstants t = (c, t1) -> isObject t1 = isObject t.
Proof.
  destruct t; simpl; intros E; try (by injection E as <- <-).
  - destruct (fold_props id _ foldConstants xs). by injection E as <- <-.
  - destruct (fold_props snd set_snd foldConstants fs). by injection E as <- <-.
Qed.

Section fold_props_again.
Context {A : Type} (getv : A -> value) (setv : A -> value -> A).
Hypothesis get_set : forall p v, getv (setv p v) = v.
Hypothesis set_set : forall p v v', setv (setv p v) v' = setv p v'.

Lemma fold_props_abrupt ps : forall ps1,
  Forall (fun p => forall a1, foldConstants (getv p) = (Abrupt, a1) ->
                     foldConstants a1 = (Abrupt, a1)) ps ->
  fold_props getv setv foldConstants ps = (Abrupt, ps1) ->
  fold_props getv setv foldConstants ps1 = (Abrupt, ps1).
Proof.
  induction ps as [|p ps IH]; intros ps1 HF E; simpl in E; [discriminate|].
  apply Forall_cons in HF as [Hp HF].
  destruct (isObject (getv p)) eqn:Ho.
  - destruct (foldConstants (getv p)) as [[] ast1] eqn:Er.
    + pose proof (foldConstants_settles _ _ Er) as Hs1.
      destruct (fold_unary ast1) as [ast2|] eqn:Eu.
      * destruct (fold_props getv setv foldConstants ps) as [c ps'] eqn:Et.
        injection E as -> <-. simpl. rewrite get_set.
        rewrite (IH _ HF eq_refl).
        destruct (isObject ast2); [|done].
        rewrite (foldConstants_settled _ (fold_unary_keeps_settled _ _ Hs1 Eu)).
        rewrite (node_settled_stays _ (fold_unary_settles _ _ Eu)).
        by rewrite set_set.
      * injection E as <-. simpl. rewrite get_set.
        rewrite (foldConstants_isObject _ _ _ Er), Ho.
        rewrite (foldConstants_settled _ Hs1), Eu. by rewrite set_set.
    + injection E as <-. simpl. rewrite get_set.
      rewrite (foldConstants_isObject _ _ _ Er), Ho.
      rewrite (Hp _ eq_refl). by rewrite set_set.
  - destruct (fold_props getv setv foldConstants ps) as [c ps'] eqn:Et.
    injection E as -> <-. simpl. rewrite Ho. by rewrite (IH _ HF eq_refl).
Qed.
End fold_props_again.

Lemma foldConstants_abrupt t : forall t1,
  foldConstants t = (Abrupt, t1) -> foldConstants t1 = (Abrupt, t1).
Proof.
  induction t as [| |b|n|s|xs IH|fs IH|x] using value_rect'; intros t1 E; simpl in E;
    try discriminate.
  - destruct (fold_props id _ foldConstants xs) as [c xs'] eqn:Ef.
    injection E as -> <-. simpl.
    by rewrite (fold_props_abrupt id (fun _ v => v) (fun _ _ => eq_refl) (fun _ _ _ => eq_refl) _ _ IH Ef).
  - destruct (fold_props snd set_snd foldConstants fs) as [c fs'] eqn:Ef.
    injection E as -> <-. simpl.
    by rewrite (fold_props_abrupt snd set_snd (fun _ _ => eq_refl) (fun _ _ _ => eq_refl) _ _ IH Ef).
Qed.

Lemma foldConstants_idempotent t c t1 :
  foldConstants t = (c, t1) -> foldConstants t1 = (c, t1).
Proof.
  destruct c; intros E.
  - apply foldConstants_settled. by apply (foldConstants_settles t).
  - by apply (foldConstants_abrupt t).
Qed.

(** ** Globs *)

Lemma push_into_last_app (x : value) (l acc : list value) :
  push_into_last x (l ++ [VArr acc])%list = (l ++ [VArr (acc ++ [x])])%list.
Proof.
  induction l as [|v l IH]; simpl; [done|].
  rewrite IH. destruct v; try done. destruct l; done.
Qed.

Lemma glob_step rec toFind peers g (x : value) (acc : list value) r0 st :
  isGlob (values (wVars st)) toFind = Return (Some g) ->
  results st = capture g acc r0 ->
  cna_elem rec (toFind, true, peers) x st =
    (Return (inl (toFind, true, peers)), with_results (capture g (acc ++ [x])%list r0) st).
Proof.
  intros Hg Hr. unfold cna_elem. munfold. rewrite Hg. simpl.
  unfold glob_push. munfold. simpl. rewrite Hr. unfold capture, with_results.
  destruct (String.eqb g "_") eqn:E; simpl.
  - by rewrite push_into_last_app.
  - rewrite lookup_insert_eq. simpl. by rewrite insert_insert_eq.
Qed.

Lemma glob_loop rec toFind peers g r0 (rest : list value) : forall (acc : list value) st,
  isGlob (values (wVars st)) toFind = Return (Some g) ->
  results st = capture g acc r0 ->
  js_for (cna_elem rec) (toFind, true, peers) rest st =
    (Return (inl (toFind, true, peers)), with_results (capture g (acc ++ rest)%list r0) st).
Proof.
  induction rest as [|x rest IH]; intros acc st Hg Hr.
  - rewrite js_for_nil, app_nil_r, <- Hr. by destruct st.
  - rewrite js_for_cons, (glob_step _ _ _ _ _ _ _ _ Hg Hr).
    rewrite (IH (acc ++ [x])%list); [|done|done].
    by rewrite <- app_assoc.
Qed.

Lemma glob_first rec toFind peers g (x : value) st :
  isGlob (values (wVars st)) toFind = Return (Some g) ->
  cna_elem rec (toFind, false, peers) x st =
    (Return (inl (toFind, true, peers)), with_results (capture g [x] (results st)) st).
Proof.
  intros Hg. unfold cna_elem. munfold. rewrite Hg. simpl.
  unfold record_glob, glob_push, capture, with_results. munfold. simpl.
  destruct (String.eqb g "_") eqn:E; simpl; rewrite ?E; simpl.
  - by rewrite (push_into_last_app x _ []).
  - rewrite lookup_insert_eq. simpl. by rewrite insert_insert_eq.
Qed.

Lemma glob_consumes rec nodeArr toFind peers g st :
  isGlob (values (wVars st)) toFind = Return (Some g) ->
  checkNodeArray_body rec nodeArr toFind peers st =
    (Return (true, peers), with_results (capture g nodeArr (results st)) st).
Proof.
  intros Hg. unfold checkNodeArray_body. munfold.
  destruct nodeArr as [|x rest].
  - rewrite js_for_nil. rewrite Hg. unfold record_glob, capture, with_results. munfold. simpl.
    by destruct (String.eqb g "_").
  - rewrite js_for_cons, (glob_first _ _ _ _ _ _ Hg).
    rewrite (glob_loop rec toFind peers g (results st) rest [x]); [done|done|done].
Qed.

Lemma settled_folded t : settled t = true -> folded t = true.
Proof.
  induction t as [| |b|n|s|xs IH|fs IH|x] using value_rect'; simpl; try done.
  - induction IH as [|x xs Hx _ IHxs]; simpl; [done|].
    intros H. apply andb_prop in H as [H1 H2]. apply andb_prop in H1 as [Hn Hs].
    unfold node_settled in Hn. apply andb_prop in Hn as [-> _].
    rewrite (Hx Hs). simpl. auto.
  - induction IH as [|x xs Hx _ IHxs]; simpl; [done|].
    intros H. apply andb_prop in H as [H1 H2]. apply andb_prop in H1 as [Hn Hs].
    unfold node_settled in Hn. apply andb_prop in Hn as [-> _].
    rewrite (Hx Hs). simpl. auto.
Qed.

Section fold_props_unchanged.
Context {A : Type} (getv : A -> value) (setv : A -> value -> A).
Hypothesis set_get : forall p, setv p (getv p) = p.

Lemma fold_props_folded ps :
  Forall (fun p => folded (getv p) = true ->
                   (foldConstants (getv p)).2 = getv p) ps ->
  forallb (fun p => negb (sign_on_literal (getv p)) && folded (getv p)) ps
    = true ->
  (fold_props getv setv foldConstants ps).2 = ps.
Proof.
  induction ps as [|p ps IH]; intros HF Hs; simpl; [done|].
  apply Forall_cons in HF as [Hp HF]. simpl in Hs.
  apply andb_prop in Hs as [Hs1 Hs2]. apply andb_prop in Hs1 as [Hn Hs1].
  apply negb_true_iff in Hn. specialize (IH HF Hs2). specialize (Hp Hs1).
  destruct (fold_props getv setv foldConstants ps) as [c ps']. simpl in IH.
  subst ps'.
  destruct (isObject (getv p)); [|done].
  destruct (foldConstants (getv p)) as [[] ast1]; simpl in Hp; subst ast1.
  - destruct (fold_unary_unsigned _ Hn) as [-> | ->]; simpl;
      by rewrite set_get.
  - simpl. by rewrite set_get.
Qed.
End fold_props_unchanged.

Lemma foldConstants_folded t : folded t = true -> (foldConstants t).2 = t.
Proof.
  induction t as [| |b|n|s|xs IH|fs IH|x] using value_rect'; intros Hs; simpl;
    try done.
  - pose proof (fold_props_folded id (fun _ v => v) (fun _ => eq_refl) xs IH Hs)
      as E.
    destruct (fold_props id _ foldConstants xs). simpl in *. by subst.
  - pose proof (fold_props_folded snd set_snd set_snd_get fs IH Hs) as E.
    destruct (fold_props snd set_snd foldConstants fs). simpl in *. by subst.
Qed.

(** ** Claims about [exactMatchNode] *)

(** C10: where a template field holds an empty array, the comparison of
    that field goes on to the next key exactly when the candidate holds an
    array under the same key, and fails otherwise; it never consults the
    matcher ([rec] is arbitrary), so neither the length nor the elements of
    the candidate's array matter, and it leaves the search state and the
    results as they are. *)
Theorem C10_empty_array_matches_any_array
  (rec : call -> M answer) (currNode toFind : value)
  (rootToSet : option value) (peers : list value) (key : key)
  (st : mstate) :
  assoc key (props_of st toFind) = Some (VArr []) ->
  nullish currNode = false ->
  key <> KName "wildcardVar" ->
  let r := emn_key rec currNode toFind rootToSet peers key st in
  r.1 = Return (if isArray (get currNode key) then inl peers
                else inr (false, peers))
  /\ wVars r.2 = wVars st /\ results r.2 = results st.
Proof.
  intros Hf Hc Hk. unfold emn_key. munfold. rewrite Hf, Hc.
  assert (Hkey : key_eqb key "wildcardVar" = false).
  { by destruct (key_eqb_spec key "wildcardVar"). }
  rewrite Hkey.
  destruct (get currNode key) as [| |b|n|s|xs|fs|x]; simpl; auto.
Qed.

Lemma C10_empty_array_matches_any_array_witness :
  let currNode := Ast.CallExpression (Ast.Identifier "f")
                    [Ast.Identifier "a"; Ast.Identifier "b"] in
  let toFind := Ast.CallExpression (Ast.Identifier "f") [] in
  let st := new_mstate new_wildcardVars in
  let r := emn_key (fun _ => throw) currNode toFind None [] "arguments" st in
  r.1 = Return (inl []) /\ wVars r.2 = wVars st /\ results r.2 = results st.
Proof.
  apply (C10_empty_array_matches_any_array (fun _ => throw)
           (Ast.CallExpression (Ast.Identifier "f")
              [Ast.Identifier "a"; Ast.Identifier "b"])
           (Ast.CallExpression (Ast.Identifier "f") []) None [] "arguments"
           (new_mstate new_wildcardVars));
    [reflexivity | reflexivity | discriminate].
Defined.



(** ** Claims about [checkNodeArray] *)



(** ** Claims about [foldConstants] *)




(** ** What the calls return *)


Lemma returns_ret {A} (a : A) (Q : A -> Prop) : Q a -> returns (mret a) Q.
Proof. intros H st a' st' E. munfold. by injection E as <- <-. Qed.

Lemma returns_bind {A B} (m : M A) (f : A -> M B) (P : A -> Prop)
  (Q : B -> Prop) :
  returns m P -> (forall a, P a -> returns (f a) Q) -> returns (m ≫= f) Q.
Proof.
  intros Hm Hf st b st' E. munfold.
  destruct (m st) as [[a| |] st1] eqn:Em; try discriminate.
  exact (Hf a (Hm _ _ _ Em) _ _ _ E).
Qed.

Lemma returns_any {A} (m : M A) : returns m (fun _ => True).
Proof. by intros st a st' _. Qed.

Lemma returns_weaken {A} (m : M A) (P Q : A -> Prop) :
  returns m P -> (forall a, P a -> Q a) -> returns m Q.
Proof. intros Hm HPQ st a st' E. exact (HPQ _ (Hm _ _ _ E)). Qed.

Lemma returns_throw {A} (Q : A -> Prop) : returns throw Q.
Proof. intros st a st' E. discriminate. Qed.

Lemma returns_out_of_fuel {A} (Q : A -> Prop) : returns out_of_fuel Q.
Proof. intros st a st' E. discriminate. Qed.


Lemma returns_js_for {S A R} (body : S -> A -> M (S + R)) (I : S -> Prop)
  (Q : R -> Prop) (xs : list A) :
  (forall s x, I s -> returns (body s x) (either I Q)) ->
  forall s, I s -> returns (js_for body s xs) (either I Q).
Proof.
  intros Hb. induction xs as [|x xs IH]; intros s Hs; simpl.
  - by apply returns_ret.
  - eapply returns_bind; [by apply Hb|].
    intros [s'|v] Hr; [by apply IH|by apply returns_ret].
Qed.



Section suffix.
Variable single : bool.
Variable rec : call -> M answer.
Hypothesis rec_suffix : forall c, returns (rec c) (keeps_suffix (peers_of c)).

Ltac returns_walk tac :=
  repeat match goal with
  | |- returns (mret _) _ => apply returns_ret; simpl
  | |- returns throw _ => apply returns_throw
  | |- returns out_of_fuel _ => apply returns_out_of_fuel
  | |- returns (_ ≫= _) _ =>
      eapply returns_bind; [first [tac | apply returns_any]|]; intros ? ?
  | |- returns (match ?x with _ => _ end) _ => destruct x eqn:?
  end.

Lemma emn_key_suffix currNode toFind rootToSet peers0 peers key :
  peers `suffix_of` peers0 ->
  returns (emn_key rec currNode toFind rootToSet peers key)
    (either (fun p => p `suffix_of` peers0) (keeps_suffix peers0)).
Proof.
  intros Hp. unfold emn_key.
  returns_walk ltac:(apply rec_suffix); try done;
    unfold keeps_suffix in *; simpl in *; by etrans.
Qed.

Lemma exactMatchNode_suffix currNode toFind peers :
  returns (exactMatchNode rec currNode toFind peers) (keeps_suffix peers).
Proof.
  unfold exactMatchNode.
  returns_walk ltac:(apply (returns_js_for _ (fun p => p `suffix_of` peers) (keeps_suffix peers));
                     [intros; by apply emn_key_suffix|done]); try done.
Qed.

Lemma cmt_child_suffix toFind peers0 peers kv :
  peers `suffix_of` peers0 ->
  returns (cmt_child rec toFind peers kv)
    (either (fun p => p `suffix_of` peers0) (keeps_suffix peers0)).
Proof.
  intros Hp. unfold cmt_child.
  returns_walk ltac:(apply rec_suffix); try done;
    unfold keeps_suffix in *; simpl in *; by etrans.
Qed.

Lemma checkMatchTree_body_suffix currTree toFind peers :
  returns (checkMatchTree_body single rec currTree toFind peers)
    (keeps_suffix peers).
Proof.
  unfold checkMatchTree_body.
  returns_walk ltac:(first
    [ apply exactMatchNode_suffix
    | apply (returns_js_for _ (fun p => p `suffix_of` peers) (keeps_suffix peers));
      [intros; by apply cmt_child_suffix
      |unfold keeps_suffix in *; simpl in *; done] ]);
    unfold keeps_suffix, either in *; simpl in *; try done.
Qed.

Lemma cna_elem_suffix peers0 s x :
  s.2 `suffix_of` peers0 ->
  returns (cna_elem rec s x)
    (either (fun s' : value * bool * list value => s'.2 `suffix_of` peers0)
       (keeps_suffix peers0)).
Proof.
  intros Hp. unfold cna_elem. destruct s as [[toFind curGlob] peers].
  returns_walk ltac:(apply rec_suffix);
    unfold keeps_suffix, either in *; simpl in *; try done;
    try (by apply suffix_nil).
  - etrans; [|exact Hp]. etrans; [|eassumption]. by apply suffix_cons_r.
  - by etrans.
Qed.

Lemma checkNodeArray_body_suffix nodeArr toFind peers :
  returns (checkNodeArray_body rec nodeArr toFind peers) (keeps_suffix peers).
Proof.
  unfold checkNodeArray_body.
  returns_walk ltac:(
      apply (returns_js_for _
               (fun s' : value * bool * list value => s'.2 `suffix_of` peers)
               (keeps_suffix peers));
      [intros; by apply cna_elem_suffix|done]);
    unfold keeps_suffix, either in *; simpl in *; subst; simpl in *; try done.
Qed.
End suffix.

Lemma engine_suffix single fuel c :
  returns (engine single fuel c) (keeps_suffix (peers_of c)).
Proof.
  revert c. induction fuel as [|fuel IH]; intros c; simpl.
  - apply returns_out_of_fuel.
  - destruct c.
    + by apply checkMatchTree_body_suffix.
    + by apply checkNodeArray_body_suffix.
Qed.

Lemma returns_lift {A} (o : outcome A) (Q : A -> Prop) :
  (forall a, o = Return a -> Q a) -> returns (lift o) Q.
Proof. intros H st a st' E. munfold. injection E as E _. by apply H. Qed.



Lemma cna_elem_scanning single fuel s x :
  scanning s ->
  returns (cna_elem (engine single fuel) s x) (either scanning all_found).
Proof.
  destruct s as [[toFind curGlob] peers]. intros [Hc HF]. simpl in Hc. subst curGlob.
  simpl in HF. apply Forall_cons in HF as [Ht Hp].
  unfold cna_elem.
  eapply returns_bind; [apply returns_any|]. intros st _.
  eapply (returns_bind _ _ (fun g => g = None));
    [apply returns_lift; intros a E; rewrite Ht in E; by injection E as <-|].
  intros g ->.
  eapply returns_bind; [apply engine_suffix|]. intros [found peers1] Hs.
  unfold keeps_suffix in Hs. simpl in Hs.
  assert (Hp1 : Forall glob_free peers1).
  { destruct Hs as [k ->]. by apply Forall_app in Hp as [_ ?]. }
  destruct found.
  - destruct peers1 as [|next rest]; apply returns_ret; simpl; [done|].
    split; [done|]. simpl. done.
  - apply returns_ret. simpl. split; [done|]. simpl. by apply Forall_cons.
Qed.

Lemma checkNodeArray_all_found single fuel nodeArr toFind peers :
  Forall glob_free (toFind :: peers) ->
  returns (checkNodeArray single fuel nodeArr toFind peers) all_found.
Proof.
  intros HF. destruct fuel as [|fuel]; [apply returns_out_of_fuel|].
  unfold checkNodeArray. simpl. unfold checkNodeArray_body.
  eapply returns_bind.
  { apply (returns_js_for _ scanning all_found);
      [intros; by apply cna_elem_scanning|done]. }
  intros [[[toFind' curGlob] peers']|a] Hr; simpl in Hr.
  - destruct Hr as [Hc HF']. simpl in *. subst curGlob.
    apply Forall_cons in HF' as [Ht _].
    eapply returns_bind; [apply returns_any|]. intros st _.
    eapply (returns_bind _ _ (fun g => g = None));
    [apply returns_lift; intros a E; rewrite Ht in E; by injection E as <-|].
    intros g ->. by apply returns_ret.
  - by apply returns_ret.
Qed.



(** ** Claims about the variables *)



(** ** Claims about the callbacks *)





(** ** Enough fuel *)

Lemma finishes_ret {A} (a : A) : finishes (mret a).
Proof. by intros st. Qed.

Lemma finishes_bind {A B} (m : M A) (f : A -> M B) :
  finishes m -> (forall a, finishes (f a)) -> finishes (m ≫= f).
Proof.
  intros Hm Hf st. munfold. specialize (Hm st).
  destruct (m st) as [[a| |] st1]; simpl in *; [apply Hf|done|done].
Qed.

Lemma finishes_throw {A} : finishes (throw : M A).
Proof. by intros st. Qed.

Lemma finishes_lift {A} (o : outcome A) : o <> OutOfFuel -> finishes (lift o).
Proof. by intros H st. Qed.

Lemma finishes_js_for {S A R} (body : S -> A -> M (S + R)) (xs : list A) :
  (forall s x, x ∈ xs -> finishes (body s x)) ->
  forall s, finishes (js_for body s xs).
Proof.
  induction xs as [|x xs IH]; intros Hb s; simpl.
  - apply finishes_ret.
  - apply finishes_bind; [apply Hb; by left|].
    intros [s'|v]; [apply IH; intros; apply Hb; by right|apply finishes_ret].
Qed.

Lemma list_max_elem (l : list nat) n : n ∈ l -> n <= list_max l.
Proof.
  induction l as [|m l IH]; [by intros ?%elem_of_nil|].
  intros [->|H]%elem_of_cons; simpl; [lia|]. specialize (IH H). lia.
Qed.

Lemma height_elem (xs : list value) x : x ∈ xs -> height x < height (VArr xs).
Proof.
  intros H. simpl. apply Nat.lt_succ_r, list_max_elem.
  apply list_elem_of_fmap. eauto.
Qed.

Lemma height_field (fs : list (key * value)) k v :
  (k, v) ∈ fs -> height v < height (VObj fs).
Proof.
  intros H. simpl. apply Nat.lt_succ_r, list_max_elem.
  apply list_elem_of_fmap. exists (k, v). eauto.
Qed.

Lemma assoc_elem k fs v : assoc k fs = Some v -> exists k', (k', v) ∈ fs.
Proof.
  induction fs as [|[k0 v0] fs IH]; simpl; [done|].
  destruct (key_eqb k0 k).
  - intros [= ->]. exists k0. by left.
  - intros [k' H]%IH. exists k'. by right.
Qed.

Lemma chars_scalar s c : c ∈ chars s -> isObject c = false.
Proof.
  induction s; simpl; [by intros ?%elem_of_nil|].
  intros [->|E]%elem_of_cons; [done|auto].
Qed.

Lemma element_elem xs k :
  isObject (element xs k) = true -> element xs k ∈ xs.
Proof.
  unfold element. destruct k as [s|i]; [by destruct (String.eqb s "length")|].
  destruct (xs !! i) as [c|] eqn:E; simpl; [|done].
  intros _. by apply list_elem_of_lookup_2 in E.
Qed.

Lemma height_get v k :
  isObject (get v k) = true -> height (get v k) < height v.
Proof.
  destruct v as [| |b|n|s|xs|fs|x]; simpl; try done.
  - intros H. pose proof (element_elem _ _ H) as Hin.
    apply chars_scalar in Hin. congruence.
  - intros H. by apply height_elem, element_elem.
  - destruct (assoc k fs) as [v|] eqn:E; simpl; [|done].
    intros _. apply assoc_elem in E as [k' E]. by apply (height_field fs k').
Qed.

Lemma height_own_props v k c :
  (k, c) ∈ own_props v -> isObject c = true -> height c < height v.
Proof.
  destruct v as [| |b|n|s|xs|fs|x]; simpl; try (by intros ?%elem_of_nil).
  - intros H Hc. exfalso. unfold indexed in H.
    apply elem_of_lookup_imap in H as (i & y & [= -> ->] & Hy).
    apply list_elem_of_lookup_2, chars_scalar in Hy. congruence.
  - intros H _. unfold indexed in H.
    apply elem_of_lookup_imap in H as (i & y & [= -> ->] & Hy).
    apply list_elem_of_lookup_2 in Hy. by apply (height_elem xs).
  - intros H _. by apply (height_field fs k).
Qed.

Lemma isGlob_with_finishes on_cell node :
  (forall x, on_cell x <> OutOfFuel) -> isGlob_with on_cell node <> OutOfFuel.
Proof.
  intros Hc.
  induction node as [| |b|n|s|xs IH|fs IH|x] using value_rect'; simpl; try done.
  destruct (glob_name _) as [[g|]|]; try done.
  induction IH as [|[k e] fs He _ IHfs]; simpl; [done|].
  destruct (key_eqb k "expression"); [|done].
  by destruct (truthy e).
Qed.

Lemma isGlob_finishes cells node : isGlob cells node <> OutOfFuel.
Proof.
  apply isGlob_with_finishes. intros x. by apply isGlob_with_finishes.
Qed.

Ltac finishes_walk tac :=
  repeat match goal with
  | |- finishes (mret _) => apply finishes_ret
  | |- finishes throw => apply finishes_throw
  | |- finishes (_ ≫= _) => apply finishes_bind; [|intros ?]
  | |- finishes (match ?x with _ => _ end) => destruct x eqn:?
  | |- finishes _ => first [by apply finishes_ret | tac]
  end.

Section finishes.
Variable single : bool.
Variable rec : call -> M answer.
Variable n : nat.
Hypothesis rec_finishes : forall c, measure c < n -> finishes (rec c).

Lemma finishes_get_state : finishes get_state.
Proof. by intros st. Qed.
Lemma finishes_put_wVars w : finishes (put_wVars w).
Proof. by intros st. Qed.
Lemma finishes_put_results r : finishes (put_results r).
Proof. by intros st. Qed.
Lemma finishes_console_error v : finishes (console_error v).
Proof. by intros st. Qed.

Ltac basic :=
  first [ apply finishes_get_state | apply finishes_put_wVars
        | apply finishes_put_results | apply finishes_console_error ].

Lemma finishes_push_underscore v : finishes (push_underscore v).
Proof. unfold push_underscore. finishes_walk basic. Qed.
Lemma finishes_set_var k v : finishes (set_var k v).
Proof. unfold set_var. finishes_walk basic. Qed.
Lemma finishes_set_root r : finishes (set_root r).
Proof. unfold set_root. finishes_walk basic. Qed.
Lemma finishes_record_glob g v : finishes (record_glob g v).
Proof. unfold record_glob. finishes_walk basic. Qed.
Lemma finishes_glob_push g v : finishes (glob_push g v).
Proof. unfold glob_push. finishes_walk basic. Qed.

Ltac basic2 :=
  first [ basic | apply finishes_push_underscore | apply finishes_set_var
        | apply finishes_set_root | apply finishes_record_glob
        | apply finishes_glob_push ].

Lemma finishes_bind_wildcardVar currNode subFind rootToSet :
  finishes (bind_wildcardVar currNode subFind rootToSet).
Proof. unfold bind_wildcardVar. finishes_walk basic2. Qed.

Lemma finishes_emn_key currNode toFind rootToSet peers key :
  height currNode <= n ->
  finishes (emn_key rec currNode toFind rootToSet peers key).
Proof.
  intros Hh. unfold emn_key.
  finishes_walk ltac:(first [basic2 | apply finishes_bind_wildcardVar]).
  all: apply rec_finishes; simpl.
  all: match goal with
       | H : get ?c ?k = ?v |- _ =>
           let Hlt := fresh in
           assert (Hlt : height (get c k) < height c)
             by (apply height_get; rewrite H; done || assumption);
           rewrite H in Hlt; simpl in Hlt; simpl; lia
       end.
Qed.

Lemma finishes_exactMatchNode currNode toFind peers :
  height currNode <= n ->
  finishes (exactMatchNode rec currNode toFind peers).
Proof.
  intros Hh. unfold exactMatchNode.
  finishes_walk ltac:(first
    [ basic2
    | apply finishes_js_for; intros; by apply finishes_emn_key ]).
Qed.

Lemma finishes_cmt_child currTree toFind peers kv :
  height currTree <= n -> kv ∈ own_props currTree ->
  finishes (cmt_child rec toFind peers kv).
Proof.
  intros Hh Hin. unfold cmt_child. destruct kv as [k c]. simpl.
  finishes_walk basic2.
  all: apply rec_finishes; simpl.
  all: match goal with
       | H : (_, ?c) ∈ own_props _ |- _ =>
           apply height_own_props in H; [simpl in *; lia|done]
       end.
Qed.

Lemma finishes_checkMatchTree_body currTree toFind peers :
  height currTree <= n ->
  finishes (checkMatchTree_body single rec currTree toFind peers).
Proof.
  intros Hh. unfold checkMatchTree_body.
  finishes_walk ltac:(first
    [ basic2
    | by apply finishes_exactMatchNode
    | apply finishes_js_for; intros; by apply (finishes_cmt_child currTree) ]).
Qed.

Lemma finishes_cna_elem nodeArr s x :
  height (VArr nodeArr) <= n -> x ∈ nodeArr ->
  finishes (cna_elem rec s x).
Proof.
  intros Hh Hin. unfold cna_elem.
  finishes_walk ltac:(first
    [ basic2 | apply finishes_lift, isGlob_finishes ]).
  apply rec_finishes. simpl. apply height_elem in Hin. lia.
Qed.

Lemma finishes_checkNodeArray_body nodeArr toFind peers :
  height (VArr nodeArr) <= n ->
  finishes (checkNodeArray_body rec nodeArr toFind peers).
Proof.
  intros Hh. unfold checkNodeArray_body.
  finishes_walk ltac:(first
    [ basic2 | apply finishes_lift, isGlob_finishes
    | apply finishes_js_for; intros; by apply (finishes_cna_elem nodeArr) ]).
Qed.
End finishes.

Lemma engine_finishes single fuel : forall c,
  measure c < fuel -> finishes (engine single fuel c).
Proof.
  induction fuel as [|fuel IH]; intros c Hm; [lia|]. simpl.
  destruct c as [currTree toFind peers|nodeArr toFind peers]; simpl in Hm.
  - apply (finishes_checkMatchTree_body _ _ fuel); [exact IH|lia].
  - apply (finishes_checkNodeArray_body _ fuel); [exact IH|simpl; lia].
Qed.

(** ** The module and its caches *)

Section frame.
Variable esprima_parse : string -> option value.

Lemma parseStructure_frame m structure :
  let m1 := (parseStructure esprima_parse m structure).2 in
  heap m1 = heap m /\ cachedCodeTree m1 = cachedCodeTree m
  /\ cachedCode m1 = cachedCode m.
Proof.
  unfold parseStructure. destruct structure as [s|v]; simpl; [|done].
  destruct (structureCache m !! s); simpl; [done|].
  destruct (esprima_parse _) as [fullTree|]; simpl; [|done].
  destruct (match get_of fullTree "body" with Some _ => _ | None => _ end)
    as [expression|]; simpl; [|done].
  destruct (nullish expression); simpl; [done|].
  destruct (_ || _); simpl; done.
Qed.

Lemma parseStructureWithVars_frame m structure w :
  let m1 := (parseStructureWithVars esprima_parse m structure w).2 in
  heap m1 = heap m /\ cachedCodeTree m1 = cachedCodeTree m
  /\ cachedCode m1 = cachedCode m.
Proof.
  unfold parseStructureWithVars.
  pose proof (parseStructure_frame m structure) as H.
  destruct (parseStructure esprima_parse m structure) as [[e|tree] m1]; simpl in *; [done|].
  destruct (foldConstants tree) as [[] ?]; done.
Qed.

Lemma obtain_codeTree_frame m c l0 h l :
  obtain_codeTree esprima_parse m c = Some (l0, h) ->
  cachedCodeTree m <> Some l -> is_Some (heap m !! l) ->
  l0 <> l /\ h !! l = heap m !! l.
Proof.
  unfold obtain_codeTree. intros E Hc Hl.
  destruct (match cachedCode m with Some c' => code_eqb c' c | None => false end).
  - destruct (cachedCodeTree m) as [l1|]; simpl in E; [|discriminate].
    injection E as <- <-. split; [congruence|done].
  - assert (Hf : fresh (dom (heap m)) <> l).
    { intros <-. apply elem_of_dom in Hl. by apply is_fresh in Hl. }
    destruct c as [s|o]; simpl in E.
    + destruct (esprima_parse s); simpl in E; [|discriminate].
      injection E as <- <-. split; [done|]. by rewrite lookup_insert_ne.
    + destruct (heap m !! o); simpl in E; [|discriminate].
      injection E as <- <-. split; [done|]. by rewrite lookup_insert_ne.
Qed.

Lemma match_frame fuel m c structure opts l :
  cachedCodeTree m <> Some l -> is_Some (heap m !! l) ->
  let m' := (match_ esprima_parse fuel m c structure opts).2 in
  heap m' !! l = heap m !! l /\ cachedCodeTree m' <> Some l.
Proof.
  intros Hc Hl. unfold match_.
  pose proof (parseStructureWithVars_frame m structure new_wildcardVars) as (Hh & Ht & _).
  destruct (parseStructureWithVars esprima_parse m structure new_wildcardVars)
    as [[e|[structure' w]] m1]; simpl in *.
  - by rewrite Hh, Ht.
  - destruct (obtain_codeTree esprima_parse m1 c) as [[l0 h]|] eqn:Eo; simpl.
    + apply (obtain_codeTree_frame _ _ _ _ l) in Eo as [Hne Hhl];
        [|by rewrite Ht|by rewrite Hh].
      destruct (foldConstants (default VUndef (h !! l0))) as [how codeTree].
      assert (Hgoal : <[l0:=codeTree]> h !! l = heap m !! l /\ Some l0 <> Some l).
      { rewrite lookup_insert_ne, Hhl, Hh; [|done]. split; [done|congruence]. }
      destruct how; simpl; [|done].
      destruct (nullish structure'); simpl; [done|].
      destruct (search fuel opts codeTree structure' w) as [[[]| |] ?]; simpl; done.
    + by rewrite Hh, Ht.
Qed.
End frame.

Lemma clone_fields_length rec l : length (clone_fields rec l) <= length l.
Proof. induction l as [|[k []] l IH]; simpl; lia. Qed.

Lemma clone_fields_fixed rec l :
  clone_fields rec l = l -> Forall (fun kv => rec kv.2 = kv.2) l.
Proof.
  induction l as [|[k v] l IH]; simpl; [done|]. intros E.
  destruct v; try (injection E as E1 E2; constructor; [by rewrite ?E1|by apply IH]).
  exfalso. pose proof (clone_fields_length rec l) as H. rewrite E in H. simpl in H. lia.
Qed.

Lemma plain_assoc fs k v : plain (VObj fs) -> assoc k fs = Some v -> plain v.
Proof.
  unfold plain. simpl. intros H E. injection H as H.
  apply clone_fields_fixed in H.
  induction fs as [|[k0 v0] fs IH]; simpl in *; [done|].
  apply Forall_cons in H as [H1 H2].
  destruct (key_eqb k0 k); [by injection E as <-|by apply IH].
Qed.

Lemma plain_element xs k : plain (VArr xs) -> plain (element xs k).
Proof.
  unfold plain, element. simpl. intros H. injection H as H.
  destruct k as [s|i]; [by destruct (String.eqb s "length")|].
  destruct (xs !! i) as [x|] eqn:Ex; simpl; [|done].
  assert (Hx : clone_elem deepClone x = x).
  { apply (f_equal (fun l => l !! i)) in H. rewrite list_lookup_fmap, Ex in H.
    simpl in H. by injection H. }
  destruct x; simpl in Hx; try done.
Qed.

Lemma plain_chars s : plain (VArr (chars s)).
Proof.
  unfold plain. simpl. f_equal. induction s as [|c s IH]; simpl; [done|].
  by rewrite IH.
Qed.

Lemma plain_get v k : plain v -> plain (get v k).
Proof.
  destruct v as [| |b|n|s|xs|fs|x]; simpl; try done.
  - intros _. apply plain_element, plain_chars.
  - intros H. by apply plain_element.
  - intros H. destruct (assoc k fs) as [v|] eqn:E; simpl; [|done].
    by apply (plain_assoc fs k).
Qed.

Lemma code_eqb_refl c : code_eqb c c = true.
Proof. destruct c; simpl; [apply String.eqb_refl|apply Nat.eqb_refl]. Qed.

Section twice.
Variable esprima_parse : string -> option value.
Hypothesis parse_plain : forall s t, esprima_parse s = Some t -> plain t.

Lemma parseStructure_again m structure x m1 :
  parseStructure esprima_parse m structure = (x, m1) ->
  forall m2, structureCache m2 = structureCache m1 ->
    parseStructure esprima_parse m2 structure = (x, m2).
Proof.
  unfold parseStructure. destruct structure as [s|v].
  2: { intros E m2 _. by injection E as <- _. }
  destruct (structureCache m !! s) as [tree|] eqn:Ec.
  { intros E m2 Hm. injection E as <- <-. by rewrite Hm, Ec. }
  destruct (esprima_parse _) as [fullTree|] eqn:Ep.
  2: { intros E m2 Hm. injection E as <- <-. by rewrite Hm, Ec. }
  pose proof (parse_plain _ _ Ep) as Hplain.
  destruct (match get_of fullTree "body" with Some _ => _ | None => _ end)
    as [expression|] eqn:Ee.
  2: { intros E m2 Hm. injection E as <- <-. by rewrite Hm, Ec. }
  destruct (nullish expression) eqn:En.
  { intros E m2 Hm. injection E as <- <-. by rewrite Hm, Ec. }
  destruct (_ || _) eqn:Et.
  { intros E m2 Hm. injection E as <- <-. by rewrite Hm, Ec. }
  intros E m2 Hm. injection E as <- <-. simpl in Hm. rewrite Hm, lookup_insert_eq.
  assert (Hpe : plain expression).
  { unfold get_of in Ee.
    destruct (nullish fullTree); [discriminate|].
    destruct (nullish (get fullTree "body")); [discriminate|].
    destruct (nullish (get (get fullTree "body") (KIdx 0))); [discriminate|].
    injection Ee as <-. by do 3 apply plain_get. }
  by rewrite (plain_get _ "body" Hpe).
Qed.

Lemma parseStructureWithVars_again m structure w x m1 :
  parseStructureWithVars esprima_parse m structure w = (x, m1) ->
  forall m2, structureCache m2 = structureCache m1 ->
    parseStructureWithVars esprima_parse m2 structure w = (x, m2).
Proof.
  unfold parseStructureWithVars. intros E m2 Hm.
  destruct (parseStructure esprima_parse m structure) as [[e|tree] m0] eqn:Ep.
  - injection E as <- <-. by rewrite (parseStructure_again _ _ _ _ Ep m2 Hm).
  - destruct (foldConstants tree) as [[] tree'] eqn:Ef; injection E as <- <-;
      by rewrite (parseStructure_again _ _ _ _ Ep m2 Hm), Ef.
Qed.

Lemma match_twice fuel m c structure opts :
  (match_ esprima_parse fuel
     (match_ esprima_parse fuel m c structure opts).2 c structure opts).1
  = (match_ esprima_parse fuel m c structure opts).1.
Proof.
  unfold match_ at 2 3.
  destruct (parseStructureWithVars esprima_parse m structure new_wildcardVars)
    as [[e|[structure' w]] m1] eqn:Ep.
  - simpl. unfold match_. by rewrite (parseStructureWithVars_again _ _ _ _ _ Ep m1 eq_refl).
  - destruct (obtain_codeTree esprima_parse m1 c) as [[l h]|] eqn:Eo.
    + destruct (foldConstants (default VUndef (h !! l))) as [how codeTree] eqn:Ef.
      set (m2 := {| structureCache := structureCache m1; cachedCode := Some c;
                    cachedCodeTree := Some l; heap := <[l:=codeTree]> h |}).
      assert (Hm2 : (match_ esprima_parse fuel m2 c structure opts).1 =
                    match how with
                    | Abrupt => Thrown ETypeError
                    | Normal =>
                      if nullish structure' then Thrown ETypeError
                      else match search fuel opts codeTree structure' w with
                           | (Return true, st) => Matched (results st)
                           | (Return false, _) => NoMatch
                           | (TypeError, _) => Thrown ETypeError
                           | (OutOfFuel, _) => Diverged
                           end
                    end).
      { unfold match_.
        rewrite (parseStructureWithVars_again _ _ _ _ _ Ep m2 eq_refl).
        unfold obtain_codeTree. simpl. rewrite code_eqb_refl. simpl.
        rewrite lookup_insert_eq. simpl.
        rewrite (foldConstants_idempotent _ _ _ Ef).
        destruct how; [|done].
        destruct (nullish structure'); [done|].
        by destruct (search fuel opts codeTree structure' w) as [[[]| |] ?]. }
      destruct how; simpl; [|exact Hm2].
      destruct (nullish structure'); simpl; [exact Hm2|].
      destruct (search fuel opts codeTree structure' w) as [[[]| |] ?]; simpl; exact Hm2.
    + simpl. unfold match_.
      by rewrite (parseStructureWithVars_again _ _ _ _ _ Ep m1 eq_refl), Eo.
Qed.
End twice.

Lemma match_calls_frame esprima_parse fuel calls : forall m l,
  cachedCodeTree m <> Some l -> is_Some (heap m !! l) ->
  heap (match_calls esprima_parse fuel m calls) !! l = heap m !! l.
Proof.
  induction calls as [|[[c structure] opts] calls IH]; intros m l Hc Hl; simpl;
    [done|].
  destruct (match_frame esprima_parse fuel m c structure opts l Hc Hl)
    as [Hh Ht].
  rewrite IH; [done|done|by rewrite Hh].
Qed.

(** C9: a tree the caller holds, other than the tree the module has
    cached for itself, reads the same after [match] as before, and is
    still not the cached tree; so from a fresh module no run of calls
    changes any object of the caller.  This is so because, for a program
    handed over as an object [o], a cache miss makes [match] work on a
    clone placed at a fresh location, and a cache hit on the location it
    cached before. *)
Theorem C9_caller_tree_is_never_written
  (esprima_parse : string -> option value) (fuel : nat) :
  (forall (m : module) (c : code) (structure : rawStructure)
          (opts : options) (l : loc),
      cachedCodeTree m <> Some l ->
      is_Some (heap m !! l) ->
      let m' := (match_ esprima_parse fuel m c structure opts).2 in
      heap m' !! l = heap m !! l /\ cachedCodeTree m' <> Some l)
  /\ (forall (h : gmap loc value) (calls : list a_call) (l : loc),
        is_Some (h !! l) ->
        heap (match_calls esprima_parse fuel (initial_module h) calls) !! l
        = h !! l)
  /\ (forall (m : module) (o : loc) (t : value),
        cachedCode m <> Some (CodeObj o) ->
        heap m !! o = Some t ->
        obtain_codeTree esprima_parse m (CodeObj o)
        = Some (fresh (dom (heap m)),
                <[fresh (dom (heap m)) := deepClone t]> (heap m)))
  /\ (forall (m : module) (o : loc),
        cachedCode m = Some (CodeObj o) ->
        obtain_codeTree esprima_parse m (CodeObj o)
        = (fun l => (l, heap m)) <$> cachedCodeTree m).
Proof.
  split; [|split; [|split]].
  - intros m c structure opts l. apply match_frame.
  - intros h calls l Hl. by apply match_calls_frame.
  - intros m o t Hc Ho. unfold obtain_codeTree.
    destruct (cachedCode m) as [[s|o']|] eqn:E; simpl; rewrite ?Ho; try done.
    destruct (Nat.eqb_spec o' o) as [->|]; [done|]. by rewrite ?Ho.
  - intros m o Hc. unfold obtain_codeTree. rewrite Hc. simpl.
    by rewrite Nat.eqb_refl.
Qed.

Lemma C9_caller_tree_is_never_written_witness :
  let h : gmap loc value := {[ 0%nat := program_with_hole ]} in
  heap (match_calls no_parser 6 (initial_module h)
          [(CodeObj 0, StructureObj call_of_x, no_options);
           (CodeObj 0, StructureObj call_of_x, no_options)]) !! 0%nat
  = h !! 0%nat.
Proof.
  apply (proj1 (proj2 (C9_caller_tree_is_never_written no_parser 6))
           {[ 0%nat := program_with_hole ]}
           [(CodeObj 0, StructureObj call_of_x, no_options);
            (CodeObj 0, StructureObj call_of_x, no_options)] 0%nat).
  rewrite lookup_singleton_eq. eexists. reflexivity.
Defined.

Lemma toy_parse_plain s t : toy_parse s = Some t -> plain t.
Proof.
  unfold toy_parse.
  destruct (String.eqb s "a;"); [by intros [= <-]|].
  destruct (String.eqb s "(function() { a; })"); [by intros [= <-]|done].
Qed.

Lemma search_finishes fuel opts codeTree structure w :
  order w = [] -> height codeTree < fuel ->
  (search fuel opts codeTree structure w).1 <> OutOfFuel.
Proof.
  intros Ho Hh. unfold search. destruct (targets structure) as [toFind peers].
  rewrite Ho. simpl.
  pose proof (engine_finishes (single opts) fuel
                (CheckMatchTree codeTree toFind peers) Hh (new_mstate w)) as H.
  unfold checkMatchTree.
  by destruct (engine _ _ _ _) as [[[]| |] ?].
Qed.

Lemma match_finishes esprima_parse fuel m c structure opts :
  named_variables esprima_parse m structure = [] ->
  height (cached_tree (match_ esprima_parse fuel m c structure opts).2) < fuel ->
  (match_ esprima_parse fuel m c structure opts).1 <> Diverged.
Proof.
  unfold named_variables, match_.
  destruct (parseStructureWithVars esprima_parse m structure new_wildcardVars)
    as [[e|[structure' w]] m1]; [done|].
  intros Ho.
  destruct (obtain_codeTree esprima_parse m1 c) as [[l h]|]; [|done].
  destruct (foldConstants (default VUndef (h !! l))) as [how codeTree].
  destruct how; [|done].
  destruct (nullish structure'); [done|].
  pose proof (search_finishes fuel opts codeTree structure' w Ho) as H.
  destruct (search fuel opts codeTree structure' w) as [[[]| |] ?];
    simpl; try done.
  unfold cached_tree. simpl. rewrite lookup_insert_eq. simpl.
  intros Hh. by apply H in Hh.
Qed.



(** ** The search ends *)

(** *** Frugal runs *)

Lemma step_refl k st : step k st st.
Proof. repeat split; auto; lia. Qed.

Lemma step_trans k1 k2 st st1 st2 :
  step k1 st st1 -> step k2 st1 st2 -> step (k1 + k2) st st2.
Proof.
  intros (Ho1 & Hs1 & Hd1 & H1) (Ho2 & Hs2 & Hd2 & H2).
  repeat split; try congruence.
  - destruct (H1 x) as (? & _), (H2 x) as (? & _). lia.
  - destruct (H1 x) as (_ & ? & _), (H2 x) as (_ & ? & _). lia.
  - intros Hk. destruct (H1 x) as (_ & Ha & Hc1), (H2 x) as (_ & _ & Hc2).
    rewrite Hc2, Hc1; [done|lia|lia].
Qed.

Lemma step_weaken k k' st st' : k <= k' -> step k st st' -> step k' st st'.
Proof.
  intros Hk (Ho & Hs & Hd & H). repeat split; auto.
  - by destruct (H x) as (? & _).
  - destruct (H x) as (_ & ? & _). lia.
  - intros Hx. destruct (H x) as (_ & _ & Hc). apply Hc. lia.
Qed.

Lemma frugal_ret {A} k (a : A) (Q : A -> Prop) : Q a -> frugal k (mret a) Q.
Proof.
  intros H st a' st' Hok E. munfold. injection E as <- <-.
  split; [done|]. split; [done|]. apply step_refl.
Qed.

Lemma frugal_throw {A} k (Q : A -> Prop) : frugal k throw Q.
Proof. intros st a st' _ E. discriminate. Qed.

Lemma frugal_out_of_fuel {A} k (Q : A -> Prop) : frugal k out_of_fuel Q.
Proof. intros st a st' _ E. discriminate. Qed.

Lemma frugal_bind {A B} k k1 (m : M A) (f : A -> M B) (P : A -> Prop)
  (Q : B -> Prop) :
  frugal k1 m P -> k1 <= k -> (forall a, P a -> frugal (k - k1) (f a) Q) ->
  frugal k (m ≫= f) Q.
Proof.
  intros Hm Hk Hf st b st' Hok E. munfold.
  destruct (m st) as [[a| |] st1] eqn:Em; try discriminate.
  destruct (Hm _ _ _ Hok Em) as (Hok1 & HP & Hs1).
  destruct (Hf a HP _ _ _ Hok1 E) as (Hok2 & HQ & Hs2).
  split; [done|]. split; [done|].
  replace k with (k1 + (k - k1)) by lia. by eapply step_trans.
Qed.

Lemma frugal_weaken {A} k k' (m : M A) (P Q : A -> Prop) :
  frugal k m P -> k <= k' -> (forall a, P a -> Q a) -> frugal k' m Q.
Proof.
  intros Hm Hk HPQ st a st' Hok E.
  destruct (Hm _ _ _ Hok E) as (Hok1 & HP & Hs).
  split; [done|]. split; [auto|]. by eapply step_weaken.
Qed.

Lemma frugal_js_for {S A R} (body : S -> A -> M (S + R)) (w : A -> nat)
  (I : S -> Prop) (Q : R -> Prop) (xs : list A) :
  (forall s x, I s -> x ∈ xs -> frugal (w x) (body s x) (either I Q)) ->
  forall s, I s ->
    frugal (list_sum (map w xs)) (js_for body s xs) (either I Q).
Proof.
  induction xs as [|x xs IH]; intros Hb s Hs; simpl.
  - by apply frugal_ret.
  - eapply frugal_bind; [apply Hb; [done|by left]|lia|].
    intros [s'|v] Hr; simpl in Hr.
    + replace (w x + list_sum (map w xs) - w x) with (list_sum (map w xs)) by lia.
      apply IH; [|done]. intros. apply Hb; [done|by right].
    + by apply frugal_ret.
Qed.

Lemma frugal_quiet {A} k (m : M A) : quiet m -> frugal k m (fun _ => True).
Proof.
  intros Hq st a st' Hok E. destruct (Hq st) as (a' & st1 & E' & Hw).
  rewrite E' in E. injection E as <- <-.
  split; [|split; [done|]].
  - intros x cell. unfold cells_ok in Hok. rewrite Hw. apply Hok.
  - unfold step, to_skip. rewrite Hw. repeat split; auto; lia.
Qed.

Lemma frugal_get_state k : frugal k get_state cells_ok.
Proof.
  intros st a st' Hok E. munfold. injection E as <- <-.
  split; [done|]. split; [done|]. apply step_refl.
Qed.

Lemma frugal_lift {A} k (o : outcome A) :
  frugal k (lift o) (fun a => o = Return a).
Proof.
  intros st a st' Hok E. munfold. injection E as -> <-.
  split; [done|]. split; [done|]. apply step_refl.
Qed.

Ltac quiet_done := munfold; simpl; eexists _, _; split; reflexivity.

Lemma quiet_put_results r : quiet (put_results r).
Proof. intros st. quiet_done. Qed.
Lemma quiet_console_error v : quiet (console_error v).
Proof. intros st. quiet_done. Qed.
Lemma quiet_put_failure f : quiet (put_failure f).
Proof. intros st. quiet_done. Qed.
Lemma quiet_ret {A} (a : A) : quiet (mret a).
Proof. intros st. quiet_done. Qed.
Lemma quiet_push_underscore v : quiet (push_underscore v).
Proof. intros st. unfold push_underscore. quiet_done. Qed.
Lemma quiet_set_var k v : quiet (set_var k v).
Proof. intros st. unfold set_var. quiet_done. Qed.
Lemma quiet_set_root r : quiet (set_root r).
Proof.
  intros st. unfold set_root. destruct r as [v|]; [|quiet_done].
  destruct (truthy v); quiet_done.
Qed.
Lemma quiet_record_glob g v : quiet (record_glob g v).
Proof.
  intros st. unfold record_glob. munfold.
  destruct (String.eqb g "_"); quiet_done.
Qed.
Lemma quiet_glob_push g v : quiet (glob_push g v).
Proof.
  intros st. unfold glob_push. munfold.
  destruct (String.eqb g "_"); [quiet_done|].
  destruct (vars (results st) !! g) as [[]|]; quiet_done.
Qed.

(** *** Proper trees *)

Lemma existsb_key_eqb k ks : existsb (key_eqb k) ks = true <-> k ∈ ks.
Proof.
  induction ks as [|k' ks IH]; simpl.
  - split; [done|by intros ?%elem_of_nil].
  - rewrite orb_true_iff, IH, elem_of_cons.
    destruct (key_eqb_spec k k'); split; intros [?|?]; auto; done.
Qed.

Lemma distinct_NoDup ks : distinct ks = true <-> NoDup ks.
Proof.
  induction ks as [|k ks IH]; simpl.
  - split; [constructor|done].
  - rewrite andb_true_iff, negb_true_iff, IH, NoDup_cons.
    rewrite <- not_true_iff_false, existsb_key_eqb. done.
Qed.

Lemma proper_assoc fs k c :
  proper (VObj fs) = true -> assoc k fs = Some c -> proper c = true.
Proof.
  simpl. intros [_ H]%andb_prop. revert H.
  induction fs as [|[k0 v0] fs IH]; simpl; [done|].
  intros [H1 H2]%andb_prop E.
  destruct (key_eqb k0 k); [by injection E as <-|auto].
Qed.

Lemma proper_elem xs c : forallb proper xs = true -> c ∈ xs -> proper c = true.
Proof.
  intros H Hin. rewrite forallb_forall in H. apply H.
  by apply list_elem_of_In.
Qed.

Lemma proper_element xs k :
  forallb proper xs = true -> proper (element xs k) = true.
Proof.
  intros H. unfold element. destruct k as [s|i]; [by destruct (String.eqb s "length")|].
  destruct (xs !! i) as [c|] eqn:E; simpl; [|done].
  apply (proper_elem xs); [done|]. by apply list_elem_of_lookup_2 in E.
Qed.

Lemma chars_proper s : forallb proper (chars s) = true.
Proof. induction s; simpl; auto. Qed.

Lemma proper_get v k : proper v = true -> proper (get v k) = true.
Proof.
  destruct v as [| |b|n|s|xs|fs|x]; simpl; try done.
  - intros _. apply proper_element, chars_proper.
  - apply proper_element.
  - intros H. destruct (assoc k fs) as [c|] eqn:E; simpl; [|done].
    by apply (proper_assoc fs k).
Qed.

Lemma indexed_elem (xs : list value) k c :
  (k, c) ∈ indexed xs -> c ∈ xs.
Proof.
  unfold indexed. intros (i & y & [= -> ->] & Hy)%elem_of_lookup_imap.
  by apply list_elem_of_lookup_2 in Hy.
Qed.

Lemma proper_own_props v k c :
  proper v = true -> (k, c) ∈ own_props v -> proper c = true.
Proof.
  destruct v as [| |b|n|s|xs|fs|x]; simpl; try (by intros _ ?%elem_of_nil).
  - intros _ H%indexed_elem. apply (proper_elem (chars s)); [apply chars_proper|done].
  - intros Hp H%indexed_elem. by apply (proper_elem xs).
  - intros [_ H]%andb_prop Hin. rewrite forallb_forall in H.
    apply list_elem_of_In in Hin. by apply (H (k, c)).
Qed.

Lemma assoc_set_keys k v fs :
  map fst (assoc_set k v fs) =
    if existsb (key_eqb k) (map fst fs) then map fst fs
    else (map fst fs ++ [k])%list.
Proof.
  induction fs as [|[k0 v0] fs IH]; simpl; [done|].
  destruct (key_eqb_spec k0 k) as [->|Hne]; simpl.
  - destruct (key_eqb_spec k k); [done|congruence].
  - rewrite IH. destruct (key_eqb_spec k k0); [congruence|]. simpl.
    by destruct (existsb _ _).
Qed.

Lemma proper_assoc_set k v cell :
  proper (VObj cell) = true -> proper v = true ->
  proper (VObj (assoc_set k v cell)) = true.
Proof.
  simpl. intros [Hd Hp]%andb_prop Hv. apply andb_true_intro. split.
  - rewrite assoc_set_keys. destruct (existsb _ _) eqn:E; [done|].
    apply distinct_NoDup. apply distinct_NoDup in Hd.
    apply NoDup_app. split; [done|]. split; [|apply NoDup_singleton].
    intros k' Hk' ->%list_elem_of_singleton.
    apply existsb_key_eqb in Hk'. congruence.
  - clear Hd. induction cell as [|[k0 v0] cell IH]; simpl in *.
    + by rewrite Hv.
    + apply andb_prop in Hp as [H1 H2].
      destruct (key_eqb k0 k); simpl; [by rewrite Hv|].
      rewrite H1. auto.
Qed.

Lemma proper_foldl_assoc_set props cell :
  proper (VObj cell) = true ->
  (forall k c, (k, c) ∈ props -> proper c = true) ->
  proper (VObj (foldl (fun c kv => assoc_set kv.1 kv.2 c) cell props)) = true.
Proof.
  revert cell. induction props as [|[k c] props IH]; intros cell Hc Hp; [done|].
  simpl. apply IH.
  - apply proper_assoc_set; [done|]. apply (Hp k c). by left.
  - intros k' c' H. apply (Hp k' c'). by right.
Qed.

Lemma props_of_proper st toFind :
  cells_ok st -> proper toFind = true ->
  proper (VObj (props_of st toFind)) = true.
Proof.
  intros Hok Hp. destruct toFind as [| |b|n|s|xs|fs|x]; simpl props_of; try done.
  - simpl. apply andb_true_intro. split.
    + apply distinct_NoDup. unfold indexed. rewrite fmap_imap.
      apply NoDup_alt. intros i j k. rewrite !list_lookup_imap.
      destruct (chars s !! i), (chars s !! j); simpl; congruence.
    + rewrite forallb_forall. intros [k c] Hin%list_elem_of_In.
      apply indexed_elem in Hin. apply (proper_elem (chars s)); [apply chars_proper|done].
  - simpl. apply andb_true_intro. split.
    + apply distinct_NoDup. unfold indexed. rewrite fmap_imap.
      apply NoDup_alt. intros i j k. rewrite !list_lookup_imap.
      destruct (xs !! i), (xs !! j); simpl; congruence.
    + rewrite forallb_forall. intros [k c] Hin%list_elem_of_In.
      apply indexed_elem in Hin. by apply (proper_elem xs).
  - destruct (values (wVars st) !! x) as [cell|] eqn:E; simpl; [|done].
    by apply (Hok x).
Qed.

(** *** What a node costs *)

Lemma charge_le c : charge c <= cost c.
Proof. unfold charge. destruct (isObject c); lia. Qed.

Lemma list_sum_le {A} (f g : A -> nat) (l : list A) :
  (forall x, x ∈ l -> f x <= g x) ->
  list_sum (map f l) <= list_sum (map g l).
Proof.
  induction l as [|x l IH]; intros H; simpl; [lia|].
  assert (f x <= g x) by (apply H; by left).
  assert (list_sum (map f l) <= list_sum (map g l)).
  { apply IH. intros. apply H. by right. }
  lia.
Qed.

Lemma list_sum_plus {A} (f g : A -> nat) (l : list A) :
  list_sum (map (fun x => f x + g x) l)
  = list_sum (map f l) + list_sum (map g l).
Proof. induction l as [|x l IH]; simpl; lia. Qed.

Lemma list_sum_zero {A} (f : A -> nat) (l : list A) :
  (forall x, x ∈ l -> f x = 0) -> list_sum (map f l) = 0.
Proof.
  induction l as [|x l IH]; intros H; simpl; [done|].
  rewrite (H x), IH; [done| |by left]. intros. apply H. by right.
Qed.

Lemma once (k0 : key) (a : nat) (ks : list key) :
  NoDup ks ->
  list_sum (map (fun k => if key_eqb k0 k then a else 0) ks) <= a.
Proof.
  induction ks as [|k ks IH]; intros Hnd; simpl; [lia|].
  apply NoDup_cons in Hnd as [Hk Hnd]. specialize (IH Hnd).
  destruct (key_eqb_spec k0 k) as [->|]; [|lia].
  rewrite list_sum_zero; [lia|]. intros k' Hk'.
  destruct (key_eqb_spec k k') as [->|]; done.
Qed.

Lemma assoc_sum (fs : list (key * value)) : forall ks : list key,
  NoDup ks ->
  list_sum (map (fun k => charge (default VUndef (assoc k fs))) ks)
  <= list_sum (map (fun kv => charge kv.2) fs).
Proof.
  induction fs as [|[k0 c0] fs IH]; intros ks Hnd; simpl.
  - rewrite list_sum_zero; [lia|done].
  - etrans.
    { apply (list_sum_le _
               (fun k => (if key_eqb k0 k then charge c0 else 0)
                         + charge (default VUndef (assoc k fs)))).
      intros k _. destruct (key_eqb k0 k); simpl; lia. }
    rewrite list_sum_plus.
    pose proof (once k0 (charge c0) ks Hnd). specialize (IH ks Hnd). lia.
Qed.

Lemma assoc_imap (xs : list value) : forall n i,
  assoc (KIdx i) (imap (fun j x => (KIdx (n + j), x)) xs)
  = if decide (n <= i) then xs !! (i - n) else None.
Proof.
  induction xs as [|x xs IH]; intros n i; simpl.
  - by destruct (decide _).
  - rewrite Nat.add_0_r. destruct (Nat.eqb_spec n i) as [->|Hne].
    + rewrite decide_True by lia. by rewrite Nat.sub_diag.
    + rewrite (imap_ext _ (fun j x => (KIdx (S n + j), x))).
      2: { intros. simpl. by rewrite Nat.add_succ_r. }
      rewrite IH. destruct (decide (S n <= i)), (decide (n <= i)); try lia; [|done].
      replace (i - n) with (S (i - S n)) by lia. done.
Qed.

Lemma assoc_indexed xs i : assoc (KIdx i) (indexed xs) = xs !! i.
Proof.
  unfold indexed. pose proof (assoc_imap xs 0 i) as H. simpl in H.
  rewrite H. by rewrite Nat.sub_0_r.
Qed.

Lemma charge_element xs k :
  charge (element xs k) <= charge (default VUndef (assoc k (indexed xs))).
Proof.
  destruct k as [s|i]; simpl.
  - destruct (String.eqb s "length"); unfold charge; simpl; lia.
  - by rewrite assoc_indexed.
Qed.

Lemma get_sum v (ks : list key) :
  NoDup ks -> list_sum (map (fun k => charge (get v k)) ks) <= children v.
Proof.
  intros Hnd. unfold children.
  destruct v as [| |b|n|s|xs|fs|x]; simpl;
    try (rewrite list_sum_zero; [lia|done]).
  - etrans; [apply (list_sum_le _ _ _ (fun k _ => charge_element (chars s) k))|].
    by apply assoc_sum.
  - etrans; [apply (list_sum_le _ _ _ (fun k _ => charge_element xs k))|].
    by apply assoc_sum.
  - by apply assoc_sum.
Qed.

Lemma weight_sum v (ks : list key) :
  NoDup ks -> list_sum (map (weight v) ks) <= 1 + children v.
Proof.
  intros Hnd. unfold weight. rewrite list_sum_plus.
  pose proof (get_sum v ks Hnd).
  assert (list_sum (map (fun k => if key_eqb k "wildcardVar" then 1 else 0) ks)
          <= 1).
  { etrans; [|apply (once (KName "wildcardVar") 1 ks Hnd)].
    apply list_sum_le. intros k _.
    destruct (key_eqb_spec k "wildcardVar") as [->|];
      [|lia].
    by destruct (key_eqb_spec (KName "wildcardVar") "wildcardVar"). }
  lia.
Qed.

Lemma indexed_snd (xs : list value) : map snd (indexed xs) = xs.
Proof.
  unfold indexed. apply list_eq. intros i.
  rewrite list_lookup_fmap, list_lookup_imap. by destruct (xs !! i).
Qed.

Lemma children_cost v : 1 + 2 * children v <= cost v.
Proof.
  unfold children.
  destruct v as [| |b|n|s|xs|fs|x]; simpl; try lia.
  - rewrite list_sum_zero; [lia|]. intros [k c] Hin%indexed_elem.
    simpl. unfold charge. by rewrite (chars_scalar s c).
  - assert (list_sum (map (fun kv : key * value => charge kv.2) (indexed xs))
            <= list_sum (map cost xs)); [|lia].
    rewrite <- (indexed_snd xs) at 2. rewrite map_map.
    apply list_sum_le. intros. apply charge_le.
  - assert (list_sum (map (fun kv : key * value => charge kv.2) fs)
            <= list_sum (map (fun kv : key * value => cost kv.2) fs)); [|lia].
    apply list_sum_le. intros. apply charge_le.
Qed.

(** *** One run of the matcher

    A run on a program tree meets at most [cost] candidates. *)

Lemma frugal_bind_get {B} k (f : mstate -> M B) (Q : B -> Prop) :
  (forall st, cells_ok st -> frugal k (f st) Q) ->
  frugal k (get_state ≫= f) Q.
Proof.
  intros Hf st b st' Hok E. munfold. by apply (Hf st Hok st).
Qed.

Lemma frugal_bind_quiet {A B} k (m : M A) (f : A -> M B) (Q : B -> Prop) :
  quiet m -> (forall a, frugal k (f a) Q) -> frugal k (m ≫= f) Q.
Proof.
  intros Hq Hf. eapply (frugal_bind k 0); [by apply frugal_quiet|lia|].
  intros a _. rewrite Nat.sub_0_r. apply Hf.
Qed.

Lemma quiet_bind {A B} (m : M A) (f : A -> M B) :
  quiet m -> (forall a, quiet (f a)) -> quiet (m ≫= f).
Proof.
  intros Hm Hf st. destruct (Hm st) as (a & st1 & E1 & H1).
  destruct (Hf a st1) as (b & st2 & E2 & H2).
  exists b, st2. munfold. rewrite E1. split; [done|congruence].
Qed.

Lemma quiet_get_state : quiet get_state.
Proof. intros st. quiet_done. Qed.

Ltac quiet_solve :=
  repeat first
    [ apply quiet_ret | apply quiet_put_results | apply quiet_console_error
    | apply quiet_put_failure | apply quiet_push_underscore
    | apply quiet_set_var | apply quiet_set_root | apply quiet_record_glob
    | apply quiet_glob_push | apply quiet_get_state
    | (apply quiet_bind; [|intros ?])
    | match goal with
      | |- quiet (match ?x with _ => _ end) => destruct x
      end ].

Ltac frugal_walk :=
  repeat match goal with
  | |- frugal _ (mret _) _ => apply frugal_ret; simpl; auto
  | |- frugal _ throw _ => apply frugal_throw
  | |- frugal _ (get_state ≫= _) _ =>
      apply frugal_bind_get; intros ? ?
  | |- frugal _ (match ?x with _ => _ end) _ => destruct x eqn:?
  | |- frugal _ (_ ≫= _) _ =>
      apply frugal_bind_quiet; [by quiet_solve|intros ?]
  end.

Lemma extend_dom x currNode cells : dom (extend x currNode cells) = dom cells.
Proof.
  unfold extend. destruct (cells !! x) as [cell|] eqn:E; [|done].
  apply set_eq. intros y. rewrite !elem_of_dom.
  destruct (decide (x = y)) as [->|Hne].
  - rewrite lookup_insert_eq, E. split; intros; by eexists.
  - by rewrite lookup_insert_ne.
Qed.

Lemma extend_other x y currNode cells :
  x <> y -> extend x currNode cells !! y = cells !! y.
Proof.
  intros Hne. unfold extend. destruct (cells !! x); [|done].
  by rewrite lookup_insert_ne.
Qed.

Lemma extend_proper x currNode cells :
  proper currNode = true ->
  (forall y cell, cells !! y = Some cell -> proper (VObj cell) = true) ->
  forall y cell, extend x currNode cells !! y = Some cell ->
    proper (VObj cell) = true.
Proof.
  intros Hp Hok y cell. unfold extend.
  destruct (cells !! x) as [cx|] eqn:E; [|apply Hok].
  destruct (decide (x = y)) as [->|Hne].
  - rewrite lookup_insert_eq. intros [= <-].
    apply proper_foldl_assoc_set; [by apply (Hok y)|].
    intros k c. destruct (isObject currNode); [|by intros ?%elem_of_nil].
    by apply proper_own_props.
  - rewrite lookup_insert_ne by done. apply Hok.
Qed.

Lemma bind_wildcardVar_frugal currNode subFind rootToSet :
  proper currNode = true ->
  frugal 1 (bind_wildcardVar currNode subFind rootToSet) (fun _ => True).
Proof.
  intros Hp st b st' Hok. unfold bind_wildcardVar. munfold.
  destruct (leftToSkip (wVars st)) as [d|] eqn:El; [|discriminate].
  destruct subFind as [| |?|?|x|?|?|?]; try discriminate.
  destruct (0 <? default 0 (d !! x))%nat eqn:En.
  - intros [= <- <-]. apply Nat.ltb_lt in En.
    split; [exact Hok|]. split; [done|].
    unfold step, to_skip; simpl. rewrite El. repeat split; auto.
    + destruct (decide (x = x0)) as [->|Hne].
      * rewrite lookup_insert_eq. simpl. lia.
      * by rewrite lookup_insert_ne.
    + destruct (decide (x = x0)) as [->|Hne].
      * rewrite lookup_insert_eq. simpl. lia.
      * rewrite lookup_insert_ne by done. lia.
  - apply Nat.ltb_ge in En.
    destruct (quiet_bind (set_var (str_slice 1 x) currNode)
                (fun _ => set_root rootToSet ≫= fun _ => mret true)
                (quiet_set_var _ _)
                (fun _ => quiet_bind _ _ (quiet_set_root _)
                            (fun _ => quiet_ret _))
                {| wVars := with_values (extend x currNode (values (wVars st)))
                              (wVars st);
                   results := results st; console := console st;
                   failure := failure st |})
      as (b' & st1 & E1 & Hw).
    munfold. rewrite E1. intros [= <- <-].
    split; [|split; [done|]].
    + intros y cell. rewrite Hw. simpl. by apply extend_proper.
    + unfold step, to_skip. rewrite Hw. simpl. rewrite El.
      repeat split; auto.
      * apply extend_dom.
      * lia.
      * intros Hx. apply extend_other. intros ->. lia.
Qed.

Section frugal.
Variable single : bool.
Variable rec : call -> M answer.
Hypothesis rec_frugal :
  forall c, call_ok c -> frugal (budget c) (rec c) proper_answer.

Lemma charge_array elems : charge (VArr elems) = S (2 * list_sum (map cost elems)).
Proof. done. Qed.

Lemma emn_wild_frugal k currNode subFind rootToSet (key : key) peers :
  proper currNode = true -> all_proper peers ->
  (if key_eqb key "wildcardVar" then 1 else 0) <= k ->
  frugal k
    (if key_eqb key "wildcardVar"
     then b ← bind_wildcardVar currNode subFind rootToSet;
          mret (inr (b, peers))
     else mret (inr (false, peers)))
    (either all_proper proper_answer).
Proof.
  intros Hc Hp Hk. destruct (key_eqb key "wildcardVar"); [|by apply frugal_ret].
  eapply (frugal_bind k 1); [by apply bind_wildcardVar_frugal|done|].
  intros b _. by apply frugal_ret.
Qed.

Lemma emn_tree_frugal k subCurr subFind peers :
  proper subCurr = true -> proper subFind = true -> all_proper peers ->
  cost subCurr <= k ->
  frugal k
    ('(found, peers') ← rec (CheckMatchTree subCurr subFind peers);
     if (found : bool) then mret (inl peers')
     else mret (inr (false, peers')))
    (either all_proper proper_answer).
Proof.
  intros Hc Hf Hp Hk.
  eapply (frugal_bind k (cost subCurr));
    [apply (rec_frugal (CheckMatchTree subCurr subFind peers)); by repeat split
    |done|].
  intros [[] peers'] Hg; by apply frugal_ret.
Qed.

Lemma emn_array_frugal k elems newToFind ps peers :
  forallb proper elems = true -> proper newToFind = true -> all_proper ps ->
  all_proper peers -> list_sum (map cost elems) <= k ->
  frugal k
    ('(found, _) ← rec (CheckNodeArray elems newToFind ps);
     if (found : bool) then mret (inl peers)
     else mret (inr (false, peers)))
    (either all_proper proper_answer).
Proof.
  intros Hc Hf Hps Hp Hk.
  eapply (frugal_bind k (list_sum (map cost elems)));
    [apply (rec_frugal (CheckNodeArray elems newToFind ps)); by repeat split
    |done|].
  intros [[] peers'] Hg; by apply frugal_ret.
Qed.

Lemma emn_key_frugal currNode toFind rootToSet peers key :
  proper currNode = true -> proper toFind = true -> all_proper peers ->
  frugal (weight currNode key) (emn_key rec currNode toFind rootToSet peers key)
    (either all_proper proper_answer).
Proof.
  intros Hc Hf Hp. unfold emn_key.
  apply frugal_bind_get. intros st Hst.
  pose proof (props_of_proper st toFind Hst Hf) as Hprops.
  destruct (assoc key (props_of st toFind)) as [subFind|] eqn:Ea;
    [|by apply frugal_ret].
  pose proof (proper_assoc _ _ _ Hprops Ea) as Hsf.
  pose proof (proper_get currNode key Hc) as Hsc.
  unfold weight. set (subCurr := get currNode key) in *.
  assert (Hsub : isObject subCurr = true -> cost subCurr <=
            (if key_eqb key "wildcardVar" then 1 else 0) + charge subCurr).
  { unfold charge. intros ->. lia. }
  clearbody subCurr. clear Ea Hprops.
  destruct subFind as [| |b|n|s|ys|fs|x];
    try (by apply frugal_ret); destruct (nullish currNode);
    try apply frugal_throw.
  1: { frugal_walk. }
  all: destruct (nullish subCurr);
    [apply emn_wild_frugal; [done|done|lia]|].
  all: match goal with
       | |- frugal _ (if ?c then _ else _) _ => destruct c
       end; [frugal_walk|].
  all: destruct subCurr as [| |b'|n'|s'|xs'|fs'|x'] eqn:Ecur; simpl isObject;
    try (by frugal_walk);
    try (apply emn_tree_frugal; [done|done|done|by apply Hsub]).
  destruct ys as [|newToFind ps]; [by apply frugal_ret|].
  simpl in Hsf. apply andb_prop in Hsf as [H1 H2].
  apply emn_array_frugal; try done.
  specialize (Hsub eq_refl). simpl in Hsub. unfold charge in Hsub.
  simpl in Hsub. unfold charge. simpl. lia.
Qed.

Lemma frugal_bind_add {A B} k1 k2 (m : M A) (f : A -> M B) (P : A -> Prop)
  (Q : B -> Prop) :
  frugal k1 m P -> (forall a, P a -> frugal k2 (f a) Q) ->
  frugal (k1 + k2) (m ≫= f) Q.
Proof.
  intros Hm Hf. eapply (frugal_bind _ k1); [done|lia|].
  intros a Ha. replace (k1 + k2 - k1) with k2 by lia. by apply Hf.
Qed.

Lemma frugal_bind_lift {A B} k (o : outcome A) (f : A -> M B) (Q : B -> Prop) :
  (forall a, frugal k (f a) Q) -> frugal k (lift o ≫= f) Q.
Proof.
  intros Hf. eapply (frugal_bind k 0); [apply frugal_lift|lia|].
  intros a _. rewrite Nat.sub_0_r. apply Hf.
Qed.

Lemma exactMatchNode_frugal currNode toFind peers :
  proper currNode = true -> proper toFind = true -> all_proper peers ->
  frugal (1 + children currNode) (exactMatchNode rec currNode toFind peers)
    proper_answer.
Proof.
  intros Hc Hf Hp. unfold exactMatchNode.
  apply frugal_bind_get. intros st Hst.
  eapply (frugal_bind _ 0 _ _ (fun _ => True)); [|lia|intros rootToSet _].
  { destruct (root (results st)); [by apply frugal_ret|].
    destruct (nullish currNode); [apply frugal_throw|].
    destruct (is_str _ _); by apply frugal_ret. }
  rewrite Nat.sub_0_r.
  pose proof (props_of_proper st toFind Hst Hf) as Hprops. simpl in Hprops.
  apply andb_prop in Hprops as [Hd%distinct_NoDup _].
  eapply frugal_weaken;
    [|apply (weight_sum currNode _ Hd)|intros a Ha; exact Ha].
  rewrite <- (Nat.add_0_r (list_sum _)).
  eapply frugal_bind_add.
  - apply (frugal_js_for (emn_key rec currNode toFind rootToSet)
             (weight currNode) all_proper proper_answer); [|done].
    intros ps key Hps _. by apply emn_key_frugal.
  - intros [ps|a] Hr; simpl in Hr; [|by apply frugal_ret].
    frugal_walk.
Qed.

Lemma cmt_child_frugal toFind peers (kv : key * value) :
  proper kv.2 = true -> proper toFind = true -> all_proper peers ->
  frugal (charge kv.2) (cmt_child rec toFind peers kv) (either all_proper proper_answer).
Proof.
  intros Hc Hf Hp. unfold cmt_child.
  destruct kv.2 as [| |b|n|s|xs|fs|x] eqn:Ec; simpl isObject;
    try (by apply frugal_ret).
  - eapply (frugal_bind _ (list_sum (map cost xs)));
      [apply (rec_frugal (CheckNodeArray xs toFind peers)); by repeat split
      |unfold charge; simpl; lia|].
    intros [[] peers'] Hg; by apply frugal_ret.
  - eapply (frugal_bind _ (cost (VObj fs)));
      [apply (rec_frugal (CheckMatchTree (VObj fs) toFind peers));
       by repeat split
      |done|].
    intros [[] peers'] Hg; by apply frugal_ret.
  - eapply (frugal_bind _ (cost (VCell x)));
      [apply (rec_frugal (CheckMatchTree (VCell x) toFind peers));
       by repeat split
      |done|].
    intros [[] peers'] Hg; by apply frugal_ret.
Qed.

Lemma checkMatchTree_body_frugal currTree toFind peers :
  proper currTree = true -> proper toFind = true -> all_proper peers ->
  frugal (cost currTree) (checkMatchTree_body single rec currTree toFind peers)
    proper_answer.
Proof.
  intros Hc Hf Hp. unfold checkMatchTree_body.
  apply frugal_bind_quiet; [by quiet_solve|intros _].
  eapply frugal_weaken;
    [|apply (children_cost currTree)|intros a Ha; exact Ha].
  replace (1 + 2 * children currTree)
    with ((1 + children currTree) + (children currTree + 0)) by lia.
  eapply frugal_bind_add; [by apply exactMatchNode_frugal|].
  intros [[] ps] Hps; [by apply frugal_ret|].
  destruct single; [by apply frugal_ret|].
  eapply frugal_bind_add.
  - apply (frugal_js_for (cmt_child rec toFind) (fun kv => charge kv.2)
             all_proper proper_answer); [|done].
    intros ps' [k c] Hps' Hin.
    apply cmt_child_frugal; [|done|done].
    by apply (proper_own_props currTree k c).
  - intros [ps'|a] Hr; simpl in Hr; by apply frugal_ret.
Qed.

Lemma cna_elem_frugal (s : value * bool * list value) x :
  proper x = true -> proper s.1.1 = true -> all_proper s.2 ->
  frugal (cost x) (cna_elem rec s x)
    (either (fun s' : value * bool * list value =>
               proper s'.1.1 = true /\ all_proper s'.2) proper_answer).
Proof.
  destruct s as [[toFind curGlob] peers]. simpl. intros Hx Hf Hp.
  apply frugal_bind_get. intros st Hst.
  apply frugal_bind_lift. intros [globName|].
  - frugal_walk.
  - eapply (frugal_bind _ (cost x));
      [apply (rec_frugal (CheckMatchTree x toFind peers)); by repeat split
      |done|].
    intros [[] [|next ps]] Hg; apply frugal_ret; simpl; auto.
    unfold proper_answer, all_proper in Hg. simpl in Hg.
    by apply andb_prop in Hg.
Qed.

Lemma checkNodeArray_body_frugal nodeArr toFind peers :
  forallb proper nodeArr = true -> proper toFind = true -> all_proper peers ->
  frugal (list_sum (map cost nodeArr))
    (checkNodeArray_body rec nodeArr toFind peers) proper_answer.
Proof.
  intros Hc Hf Hp. unfold checkNodeArray_body.
  rewrite <- (Nat.add_0_r (list_sum _)).
  eapply frugal_bind_add.
  - apply (frugal_js_for (cna_elem rec) cost
             (fun s' : value * bool * list value =>
                proper s'.1.1 = true /\ all_proper s'.2) proper_answer);
      [|by split].
    intros s x [Hs1 Hs2] Hin. apply cna_elem_frugal; [|done|done].
    by apply (proper_elem nodeArr).
  - intros [[[toFind' curGlob] ps]|a] Hr; simpl in Hr;
      [|by apply frugal_ret].
    destruct Hr as [Hr1 Hr2]. destruct curGlob; [by apply frugal_ret|].
    apply frugal_bind_get. intros st Hst.
    apply frugal_bind_lift. intros [globName|]; frugal_walk.
Qed.
End frugal.

Lemma engine_frugal single fuel : forall c,
  call_ok c -> frugal (budget c) (engine single fuel c) proper_answer.
Proof.
  induction fuel as [|fuel IH]; intros c Hc; simpl.
  - apply frugal_out_of_fuel.
  - destruct c as [currTree toFind peers|nodeArr toFind peers];
      destruct Hc as (H1 & H2 & H3); simpl.
    + by apply checkMatchTree_body_frugal.
    + by apply checkNodeArray_body_frugal.
Qed.

(** *** The loop of [anyPossible]

    A variable with as many occurrences skipped as a run can meet
    candidates stays unbound in that run: its loop then stops. *)

Lemma quiet_js_for {S A R} (body : S -> A -> M (S + R)) (xs : list A) :
  (forall s x, quiet (body s x)) -> forall s, quiet (js_for body s xs).
Proof.
  intros Hb. induction xs as [|x xs IH]; intros s; simpl.
  - apply quiet_ret.
  - apply quiet_bind; [apply Hb|]. intros [s'|r]; [apply IH|apply quiet_ret].
Qed.

Lemma quiet_map_M {A B} (f : A -> M B) (xs : list A) :
  (forall x, quiet (f x)) -> quiet (map_M f xs).
Proof.
  intros Hf. induction xs as [|x xs IH]; simpl; [apply quiet_ret|].
  apply quiet_bind; [apply Hf|]. intros y.
  apply quiet_bind; [apply IH|]. intros ys. apply quiet_ret.
Qed.

Lemma quiet_callback_arg varName : quiet (callback_arg varName).
Proof.
  unfold callback_arg. intros st. munfold.
  destruct (values (wVars st) !! _); quiet_done.
Qed.

Lemma quiet_checkUserVarCallbacks cbs : quiet (checkUserVarCallbacks cbs).
Proof.
  unfold checkUserVarCallbacks.
  apply quiet_bind; [apply quiet_put_failure|]. intros _.
  apply quiet_bind.
  - apply quiet_js_for. intros [] entry. unfold check_callback.
    apply quiet_bind; [apply quiet_map_M, quiet_callback_arg|].
    intros varValues. by quiet_solve.
  - intros [[]|b]; apply quiet_ret.
Qed.

Section search.
Variable depth : nat.
Variables codeTree toFind : value.
Variable peers : list value.
Variable varCallbacks : list (string * callback).
Variable single : bool.
Hypothesis deep : height codeTree < depth.
Hypothesis codeTree_proper : proper codeTree = true.
Hypothesis toFind_proper : proper toFind = true.
Hypothesis peers_proper : all_proper peers.

Lemma try_assignment_ends st :
  ends (try_assignment depth codeTree toFind peers varCallbacks single st)
    (fun _ st' =>
       order (wVars st') = order (wVars st)
       /\ skipData (wVars st') = skipData (wVars st)
       /\ forall x, cost codeTree <= skipped st x -> idle st' x).
Proof.
  unfold try_assignment. munfold.
  set (st0 := {| wVars := _ |}).
  pose proof (engine_finishes single depth
                (CheckMatchTree codeTree toFind peers) deep st0) as Hfin.
  pose proof (engine_frugal single depth
                (CheckMatchTree codeTree toFind peers)
                (conj codeTree_proper (conj toFind_proper peers_proper))
                st0) as Hfr.
  unfold checkMatchTree.
  destruct (engine _ _ _ st0) as [[[found ps]| |] st1] eqn:E; simpl in *;
    [|done|done].
  destruct (Hfr (found, ps) st1) as (Hok1 & _ & Ho & Hs & Hd & Hx); [|done|].
  { intros x cell. subst st0. simpl. rewrite lookup_fmap.
    destruct (values (wVars st) !! x); [|done]. by intros [= <-]. }
  assert (Hidle : forall x, cost codeTree <= skipped st x -> idle st1 x).
  { intros x Hsk. destruct (Hx x) as (_ & _ & Hv). unfold idle.
    rewrite Hv.
    - subst st0. simpl. rewrite lookup_fmap.
      by destruct (values (wVars st) !! x).
    - subst st0. unfold to_skip. simpl. exact Hsk. }
  destruct found; simpl.
  - destruct (quiet_checkUserVarCallbacks varCallbacks st1)
      as (b & st2 & -> & Hw). simpl.
    unfold idle. rewrite Hw. done.
  - done.
Qed.

Lemma foldl_reset (xs : list string) : forall (d : gmap string nat) x,
  x ∉ xs -> foldl (fun d x => <[x := 0]> d) d xs !! x = d !! x.
Proof.
  induction xs as [|y xs IH]; intros d x Hx; simpl; [done|].
  rewrite IH by (intros ?; apply Hx; by right).
  rewrite lookup_insert_ne; [done|]. intros ->. apply Hx. by left.
Qed.

Lemma drop_S_notin (ord : list string) i x :
  x ∉ drop i ord -> x ∉ drop (S i) ord.
Proof.
  intros Hx Hin. apply Hx.
  apply list_elem_of_lookup in Hin as [j Hj]. rewrite lookup_drop in Hj.
  apply list_elem_of_lookup. exists (S j). rewrite lookup_drop.
  by replace (i + S j) with (S i + j) by lia.
Qed.

Lemma nth_var_in (ord : list string) i :
  i < length ord -> nth_var ord i ∈ drop i ord.
Proof.
  intros Hi. unfold nth_var.
  destruct (lookup_lt_is_Some_2 ord i Hi) as [x Hx]. rewrite Hx. simpl.
  rewrite (drop_S ord x i Hx). by left.
Qed.

Lemma nth_var_notin (ord : list string) i :
  NoDup ord -> i < length ord -> nth_var ord i ∉ drop (S i) ord.
Proof.
  intros Hnd Hi. unfold nth_var.
  destruct (lookup_lt_is_Some_2 ord i Hi) as [x Hx]. rewrite Hx. simpl.
  rewrite <- (take_drop i ord) in Hnd. apply NoDup_app in Hnd as (_ & _ & Hd).
  rewrite (drop_S ord x i Hx) in Hd. by apply NoDup_cons in Hd as [? _].
Qed.

Lemma ends_weaken {A} (r : outcome A * mstate) (Q Q' : A -> mstate -> Prop) :
  ends r Q -> (forall a st', Q a st' -> Q' a st') -> ends r Q'.
Proof. destruct r as [[a| |] st']; simpl; auto. Qed.

Lemma rounds_inner B n i s :
  S i < n -> rounds B n (S i) 0 <= rounds B n i s - 1.
Proof.
  intros Hi. unfold rounds.
  replace (n - 1 - i) with (S (n - 1 - S i)) by lia. simpl.
  generalize ((n - 1 - S i) * (B + 1)). intros. lia.
Qed.

Lemma rounds_next B n i s : s < B -> rounds B n i (S s) = rounds B n i s - 1.
Proof.
  intros Hs. unfold rounds. generalize ((n - 1 - i) * (B + 1)). intros. lia.
Qed.

Lemma rounds_pos B n i s : 0 < rounds B n i s.
Proof. unfold rounds. generalize ((n - 1 - i) * (B + 1)). intros. lia. Qed.

Lemma anyPossible_loop_ends : forall fuel i st,
  NoDup (order (wVars st)) -> i < length (order (wVars st)) ->
  rounds (cost codeTree) (length (order (wVars st))) i
    (skipped st (nth_var (order (wVars st)) i)) <= fuel ->
  ends (anyPossible_loop depth codeTree toFind peers varCallbacks single
          fuel i st)
    (fun _ st' =>
       only_later i st st'
       /\ forall x, x ∉ drop i (order (wVars st)) ->
            cost codeTree <= skipped st x -> idle st' x).
Proof.
  induction fuel as [|fuel IH]; intros i st Hnd Hi Hf.
  { pose proof (rounds_pos (cost codeTree) (length (order (wVars st))) i
                  (skipped st (nth_var (order (wVars st)) i))). lia. }
  simpl. unfold reset_later, set_skip. munfold. simpl.
  set (ord := order (wVars st)) in *.
  set (B := cost codeTree) in *.
  set (st_r := {| wVars := with_skipData (foldl _ _ _) _ |}).
  assert (Hr : forall x, x ∉ drop (S i) ord ->
                 skipData (wVars st_r) !! x = skipData (wVars st) !! x).
  { intros x Hx. subst st_r. simpl. by apply foldl_reset. }
  assert (Hor : order (wVars st_r) = ord) by done.
  clearbody st_r.
  set (inner := if match length ord with 0 => false | S m' => (i =? m')%nat end
                then _ else _).
  assert (Hinner : ends (inner st_r) (fun _ st_a =>
            order (wVars st_a) = ord
            /\ forall x, x ∉ drop (S i) ord ->
                 skipData (wVars st_a) !! x = skipData (wVars st) !! x
                 /\ (B <= skipped st x -> idle st_a x))).
  { subst inner.
    destruct (match length ord with 0 => false | S m' => (i =? m')%nat end)
      eqn:El.
    - eapply ends_weaken; [apply try_assignment_ends|].
      intros _ st_a (Ho & Hs & Hx). split; [congruence|]. intros x Hnot.
      rewrite Hs, (Hr x Hnot). split; [done|]. intros Hb. apply Hx.
      unfold skipped. by rewrite (Hr x Hnot).
    - assert (HSi : S i < length ord).
      { destruct (length ord) as [|m]; [lia|].
        apply Nat.eqb_neq in El. lia. }
      eapply ends_weaken; [apply IH; simpl|].
      + by rewrite Hor.
      + by rewrite Hor.
      + rewrite Hor. unfold skipped. simpl. rewrite lookup_insert_eq. simpl.
        pose proof (rounds_inner B (length ord) i
                                (skipped st (nth_var ord i)) HSi). lia.
      + simpl. intros _ st_a ((Ho & Hs) & Hx). simpl in Ho, Hs, Hx.
        rewrite Hor in Ho, Hs, Hx. split; [done|]. intros x Hnot.
        assert (x <> nth_var ord (S i)).
        { intros ->. by apply Hnot, nth_var_in. }
        split.
        * rewrite (Hs x Hnot). simpl. rewrite lookup_insert_ne by done.
          by apply Hr.
        * intros Hb. apply (Hx x Hnot). unfold skipped. simpl.
          rewrite lookup_insert_ne by done. by rewrite (Hr x Hnot). }
  destruct (inner st_r) as [[found| |] st_a]; simpl in Hinner; [|done|done].
  destruct Hinner as [Ho Hx].
  assert (Hxi : nth_var ord i ∉ drop (S i) ord) by by apply nth_var_notin.
  destruct found; simpl.
  { split; [split; [done|]|].
    - intros x Hnot. by apply Hx, drop_S_notin.
    - intros x Hnot. by apply Hx, drop_S_notin. }
  destruct (values (wVars st_a) !! nth_var ord i) as [[|kv cell]|] eqn:Ev;
    simpl.
  1,3: split; [split; [done|]|]; simpl.
  1,3: intros x Hnot; rewrite lookup_insert_ne;
         [by apply Hx, drop_S_notin|];
         intros <-; by apply Hnot, nth_var_in.
  1,2: intros x Hnot Hb; unfold idle; simpl;
         by apply (Hx x (drop_S_notin _ _ _ Hnot)).
  assert (Hs : skipped st (nth_var ord i) < B).
  { destruct (le_lt_dec B (skipped st (nth_var ord i))) as [Hb|]; [|done].
    destruct (Hx _ Hxi) as [_ Hidle]. specialize (Hidle Hb).
    unfold idle in Hidle. by rewrite Ev in Hidle. }
  eapply ends_weaken; [apply IH; simpl|].
  - by rewrite Ho.
  - by rewrite Ho.
  - rewrite Ho. unfold skipped at 1. simpl. rewrite lookup_insert_eq. simpl.
    destruct (Hx _ Hxi) as [-> _]. fold (skipped st (nth_var ord i)).
    rewrite rounds_next by done. lia.
  - simpl. intros _ st' ((Ho' & Hs') & Hx'). simpl in Ho', Hs', Hx'.
    rewrite Ho in Ho', Hs', Hx'.
    assert (Hne : forall x, x ∉ drop i ord -> nth_var ord i <> x).
    { intros x Hnot <-. by apply Hnot, nth_var_in. }
    split; [split; [done|]|].
    + intros x Hnot. rewrite (Hs' x Hnot). simpl.
      rewrite lookup_insert_ne by by apply Hne.
      by apply Hx, drop_S_notin.
    + intros x Hnot Hb. apply (Hx' x Hnot). unfold skipped. simpl.
      rewrite lookup_insert_ne by by apply Hne.
      by destruct (Hx x (drop_S_notin _ _ _ Hnot)) as [-> _].
Qed.
End search.

Lemma targets_proper structure :
  proper structure = true ->
  proper (targets structure).1 = true /\ all_proper (targets structure).2.
Proof.
  intros Hp. unfold targets.
  pose proof (proper_get structure "body" Hp) as Hb.
  destruct (get structure "body") as [| |b|n|s|xs|fs|x] eqn:E; simpl;
    try done.
  1-3: by match goal with |- context [if ?c then _ else _] => destruct c end.
  destruct xs as [|t ps]; simpl in *; [done|]. by apply andb_prop in Hb.
Qed.

Lemma search_ends fuel opts codeTree structure w :
  proper codeTree = true -> proper structure = true -> NoDup (order w) ->
  height codeTree < fuel -> length (order w) * S (cost codeTree) <= fuel ->
  (search fuel opts codeTree structure w).1 <> OutOfFuel.
Proof.
  intros Hc Hs Hnd Hh Hf. unfold search.
  destruct (targets_proper structure Hs) as [Ht Hp].
  destruct (targets structure) as [toFind peers]. simpl in Ht, Hp.
  destruct ((length (order w) =? 0)%nat || single opts) eqn:E.
  - pose proof (engine_finishes (single opts) fuel
                  (CheckMatchTree codeTree toFind peers) Hh (new_mstate w))
      as H.
    unfold checkMatchTree. by destruct (engine _ _ _ _) as [[[]| |] ?].
  - apply orb_false_elim in E as [En%Nat.eqb_neq _].
    unfold anyPossible, set_skip. munfold. simpl.
    set (st := {| wVars := _ |}).
    pose proof (anyPossible_loop_ends fuel codeTree toFind peers
                  (varCallbacks opts) (single opts) Hh Hc Ht Hp fuel 0 st)
      as H.
    destruct (anyPossible_loop _ _ _ _ _ _ _ _ st) as [[b| |] st'];
      simpl; [done|done|].
    intros _. apply H; simpl; [done|lia|].
    unfold skipped. simpl. rewrite lookup_insert_eq. simpl.
    unfold rounds. rewrite Nat.sub_0_r.
    destruct (length (order w)) as [|n]; [done|].
    simpl in Hf. simpl. rewrite Nat.sub_0_r.
    replace (cost codeTree + 1) with (S (cost codeTree)) by lia.
    lia.
Qed.

(** *** [deepClone], [foldConstants] and [simplifyTree] keep trees proper *)

Lemma proper_obj fs :
  proper (VObj fs) = true
  <-> NoDup (map fst fs) /\ Forall (fun kv => proper kv.2 = true) fs.
Proof.
  simpl. rewrite andb_true_iff, distinct_NoDup, forallb_forall, Forall_forall.
  split; intros [H1 H2]; (split; [done|]); intros kv Hin; apply H2.
  - by apply list_elem_of_In.
  - by apply list_elem_of_In.
Qed.

Lemma proper_arr xs :
  proper (VArr xs) = true <-> Forall (fun x => proper x = true) xs.
Proof.
  simpl. rewrite forallb_forall, Forall_forall.
  split; intros H x Hin; apply H.
  - by apply list_elem_of_In.
  - by apply list_elem_of_In.
Qed.

Lemma clone_fields_keys rec fs :
  map fst (clone_fields rec fs) `sublist_of` map fst fs.
Proof.
  induction fs as [|[k v] fs IH]; simpl; [done|].
  destruct v; simpl; try (by apply sublist_skip). by apply sublist_cons.
Qed.

Lemma deepClone_proper t : proper t = true -> proper (deepClone t) = true.
Proof.
  induction t as [| |b|n|s|xs IH|fs IH|x] using value_rect'; try done.
  - simpl deepClone. rewrite !proper_arr. intros Hp.
    induction xs as [|x xs IHxs]; simpl; [done|].
    apply Forall_cons in IH as [IH1 IH2]. apply Forall_cons in Hp as [Hp1 Hp2].
    apply Forall_cons. split; [|by apply IHxs].
    destruct x; simpl; try done; by apply IH1.
  - simpl deepClone. rewrite !proper_obj. intros [Hnd Hp]. split.
    + eapply sublist_NoDup; [exact Hnd|apply clone_fields_keys].
    + clear Hnd. induction fs as [|[k v] fs IHfs]; simpl; [done|].
      apply Forall_cons in IH as [IH1 IH2].
      apply Forall_cons in Hp as [Hp1 Hp2].
      destruct v; try (apply Forall_cons; split; [by apply IH1|]);
        by apply IHfs.
Qed.

Lemma fold_unary_proper ast ast2 :
  proper ast = true -> fold_unary ast = Some ast2 -> proper ast2 = true.
Proof.
  intros Hp. unfold fold_unary.
  pose proof (proper_get ast "argument" Hp) as Ha.
  destruct (is_str (get ast "type") "UnaryExpression"); [|by intros [= <-]].
  destruct (nullish (get ast "argument")); [done|].
  destruct (is_str (get (get ast "argument") "type") "Literal");
    [|by intros [= <-]].
  destruct (get ast "argument") as [| |?|?|?|?|fs|?]; try (by intros [= <-]).
  destruct (get (VObj fs) "value"); try (by intros [= <-]).
  destruct (is_str (get ast "operator") "-");
    [intros [= <-]; by apply proper_assoc_set|].
  destruct (is_str (get ast "operator") "+");
    [intros [= <-]; by apply proper_assoc_set|].
  by intros [= <-].
Qed.

Section fold_props_proper.
Context {A : Type} (getv : A -> value) (setv : A -> value -> A).
Hypothesis get_set : forall p v, getv (setv p v) = v.

Lemma fold_props_proper ps : forall c ps1,
  Forall (fun p => proper (getv p) = true ->
                   proper (foldConstants (getv p)).2 = true) ps ->
  Forall (fun p => proper (getv p) = true) ps ->
  fold_props getv setv foldConstants ps = (c, ps1) ->
  Forall (fun p => proper (getv p) = true) ps1.
Proof.
  induction ps as [|p ps IH]; intros c ps1 HF Hp E; simpl in E.
  - by injection E as <- <-.
  - apply Forall_cons in HF as [H1 HF]. apply Forall_cons in Hp as [Hp1 Hp].
    specialize (H1 Hp1).
    destruct (isObject (getv p)).
    + destruct (foldConstants (getv p)) as [[] ast1] eqn:Er; simpl in H1.
      * destruct (fold_unary ast1) as [ast2|] eqn:Eu.
        -- destruct (fold_props getv setv foldConstants ps) as [c' ps'] eqn:Et.
           injection E as <- <-. apply Forall_cons. split.
           ++ rewrite get_set. by apply (fold_unary_proper ast1).
           ++ by apply (IH c').
        -- injection E as <- <-. apply Forall_cons. by rewrite get_set.
      * injection E as <- <-. apply Forall_cons. by rewrite get_set.
    + destruct (fold_props getv setv foldConstants ps) as [c' ps'] eqn:Et.
      injection E as <- <-. apply Forall_cons. split; [done|].
      by apply (IH c').
Qed.
End fold_props_proper.

Lemma fold_props_keys rec (fs : list (key * value)) : forall c fs',
  fold_props snd set_snd rec fs = (c, fs') -> map fst fs' = map fst fs.
Proof.
  induction fs as [|[k v] fs IH]; intros c fs' E; simpl in E.
  - by injection E as <- <-.
  - destruct (isObject v).
    + destruct (rec v) as [[] ast1].
      * destruct (fold_unary ast1).
        -- destruct (fold_props snd set_snd rec fs) as [c' fs1] eqn:Et.
           injection E as <- <-. simpl. f_equal. by apply (IH c').
        -- by injection E as <- <-.
      * by injection E as <- <-.
    + destruct (fold_props snd set_snd rec fs) as [c' fs1] eqn:Et.
      injection E as <- <-. simpl. f_equal. by apply (IH c').
Qed.

Lemma foldConstants_proper t :
  proper t = true -> proper (foldConstants t).2 = true.
Proof.
  induction t as [| |b|n|s|xs IH|fs IH|x] using value_rect'; try done.
  - simpl foldConstants.
    destruct (fold_props id _ foldConstants xs) as [c xs'] eqn:Ef.
    simpl snd. rewrite !proper_arr. intros Hp.
    by apply (fold_props_proper id (fun _ v => v)) in Ef.
  - simpl foldConstants.
    destruct (fold_props snd set_snd foldConstants fs) as [c fs'] eqn:Ef.
    simpl snd. rewrite !proper_obj. intros [Hnd Hp]. split.
    + by rewrite (fold_props_keys _ _ _ _ Ef).
    + by apply (fold_props_proper snd set_snd) in Ef.
Qed.

Lemma declare_var_ok varName w :
  values w !! varName = None -> vars_ok w -> vars_ok (declare_var varName w).
Proof.
  intros Hv [Hnd Hin]. split; simpl.
  - apply NoDup_app. split; [done|]. split; [|apply NoDup_singleton].
    intros x Hx ->%list_elem_of_singleton.
    destruct (Hin _ Hx) as [? ?]. congruence.
  - intros x [Hx| ->%list_elem_of_singleton]%elem_of_app.
    + destruct (decide (varName = x)) as [->|Hne].
      * by rewrite lookup_insert_eq.
      * rewrite lookup_insert_ne by done. by apply Hin.
    + by rewrite lookup_insert_eq.
Qed.

Section simplify_proper.
Variable rec : value -> wildcardVars -> value * wildcardVars.

Lemma simplify_child_ok child w :
  rec_ok rec child -> proper child = true -> vars_ok w ->
  (forall v', (simplify_child rec child w).1 = Some v' -> proper v' = true)
  /\ vars_ok (simplify_child rec child w).2.
Proof.
  intros Hrec Hp Hw. unfold simplify_child.
  destruct (isObject child); [|by split; [intros ? [= <-]|]].
  destruct (isWildcard child); [by split; [intros ? [= <-]|]|].
  destruct (isWildcardVar child).
  { destruct (get child "name") as [| |?|?|varName|?|?|?];
      try (by split; [intros ? [= <-]|]).
    destruct (values w !! varName) eqn:Ev; simpl.
    - by split; [intros ? [= <-]|].
    - split; [by intros ? [= <-]|]. by apply declare_var_ok. }
  destruct (is_str (get child "type") "EmptyStatement"); [by split|].
  destruct (Hrec w Hp Hw) as [H1 H2].
  destruct (rec child w) as [child' w']. simpl in *.
  split; [by intros ? [= <-]|done].
Qed.

Lemma simplify_fields_ok fs : forall w,
  Forall (fun kv => rec_ok rec kv.2) fs ->
  Forall (fun kv => proper kv.2 = true) fs -> vars_ok w ->
  map fst (simplify_fields rec fs w).1 `sublist_of` map fst fs
  /\ Forall (fun kv => proper kv.2 = true) (simplify_fields rec fs w).1
  /\ vars_ok (simplify_fields rec fs w).2.
Proof.
  induction fs as [|[k v] fs IH]; intros w Hrec Hp Hw; simpl; [done|].
  apply Forall_cons in Hrec as [Hr1 Hrec]. apply Forall_cons in Hp as [Hp1 Hp].
  destruct (simplify_child_ok v w Hr1 Hp1 Hw) as [Hv Hw1].
  destruct (simplify_child rec v w) as [r w1]. simpl in Hv, Hw1.
  destruct (IH w1 Hrec Hp Hw1) as (Hk & Hf & Hw2).
  destruct (simplify_fields rec fs w1) as [fs1 w2]. simpl in *.
  split; [|split; [|done]].
  - destruct r; simpl; [by apply sublist_skip|by apply sublist_cons].
  - destruct r; [|done]. apply Forall_cons. split; [by apply Hv|done].
Qed.

Lemma simplify_elems_ok xs : forall skipped w,
  Forall (rec_ok rec) xs -> Forall (fun x => proper x = true) xs ->
  vars_ok w ->
  Forall (fun x => proper x = true) (simplify_elems rec skipped xs w).1
  /\ vars_ok (simplify_elems rec skipped xs w).2.
Proof.
  induction xs as [|x xs IH]; intros skipped w Hrec Hp Hw; simpl; [done|].
  apply Forall_cons in Hrec as [Hr1 Hrec]. apply Forall_cons in Hp as [Hp1 Hp].
  destruct skipped.
  - destruct (IH false w Hrec Hp Hw) as [Hf Hw1].
    destruct (simplify_elems rec false xs w) as [xs1 w1]. simpl in *.
    split; [|done]. by apply Forall_cons.
  - destruct (simplify_child_ok x w Hr1 Hp1 Hw) as [Hv Hw1].
    destruct (simplify_child rec x w) as [[x'|] w1]; simpl in Hv, Hw1.
    + destruct (IH false w1 Hrec Hp Hw1) as [Hf Hw2].
      destruct (simplify_elems rec false xs w1) as [xs1 w2]. simpl in *.
      split; [|done]. apply Forall_cons. split; [by apply Hv|done].
    + by apply IH.
Qed.
End simplify_proper.

Lemma simplifyTree_ok t : rec_ok simplifyTree t.
Proof.
  induction t as [| |b|n|s|xs IH|fs IH|x] using value_rect'; intros w Hp Hw;
    try done.
  - simpl simplifyTree. apply proper_arr in Hp.
    destruct (simplify_elems_ok simplifyTree xs false w IH Hp Hw) as [H1 H2].
    destruct (simplify_elems simplifyTree false xs w) as [xs' w'].
    simpl in *. split; [|done]. by apply proper_arr.
  - simpl simplifyTree. apply proper_obj in Hp as [Hnd Hp].
    destruct (simplify_fields_ok simplifyTree fs w IH Hp Hw) as (H1 & H2 & H3).
    destruct (simplify_fields simplifyTree fs w) as [fs' w'].
    simpl fst in *. simpl snd in *. split; [|done]. apply proper_obj.
    split; [|done]. by eapply sublist_NoDup.
Qed.

Lemma new_wildcardVars_ok : vars_ok new_wildcardVars.
Proof. split; simpl; [constructor|]. by intros x ?%elem_of_nil. Qed.

Lemma match_trees_unfold fuel program structure opts :
  match_trees fuel program structure opts =
    match foldConstants (deepClone structure) with
    | (Abrupt, _) => Thrown ETypeError
    | (Normal, tree') =>
        let '(structure', w) := simplifyTree tree' new_wildcardVars in
        match foldConstants (deepClone program) with
        | (Abrupt, _) => Thrown ETypeError
        | (Normal, codeTree) =>
            if nullish structure' then Thrown ETypeError
            else
              match search fuel opts codeTree structure' w with
              | (Return true, st) => Matched (results st)
              | (Return false, _) => NoMatch
              | (TypeError, _) => Thrown ETypeError
              | (OutOfFuel, _) => Diverged
              end
        end
    end.
Proof.
  unfold match_trees, match_, parseStructureWithVars, parseStructure.
  destruct (foldConstants (deepClone structure)) as [[] tree']; [|done].
  destruct (simplifyTree tree' new_wildcardVars) as [structure' w].
  unfold obtain_codeTree. simpl. rewrite lookup_singleton_eq. simpl.
  rewrite lookup_insert_eq. simpl.
  destruct (foldConstants (deepClone program)) as [[] codeTree]; [|done].
  destruct (nullish structure'); [done|].
  by destruct (search fuel opts codeTree structure' w) as [[[]| |] st].
Qed.

Lemma match_trees_ends fuel program structure opts :
  proper program = true -> proper structure = true ->
  enough program structure <= fuel ->
  match_trees fuel program structure opts <> Diverged.
Proof.
  intros Hp Hs. rewrite match_trees_unfold.
  unfold enough, variables_of, folded_program.
  pose proof (foldConstants_proper _ (deepClone_proper _ Hs)) as Hs'.
  destruct (foldConstants (deepClone structure)) as [[] tree']; [|done].
  simpl in Hs'. simpl snd.
  destruct (simplifyTree_ok tree' new_wildcardVars Hs' new_wildcardVars_ok)
    as [Hs2 [Hnd _]].
  destruct (simplifyTree tree' new_wildcardVars) as [structure' w].
  simpl in Hs2, Hnd. simpl snd.
  pose proof (foldConstants_proper _ (deepClone_proper _ Hp)) as Hp'.
  destruct (foldConstants (deepClone program)) as [[] codeTree]; [|done].
  simpl in Hp'. simpl snd. intros Hf.
  destruct (nullish structure'); [done|].
  pose proof (search_ends fuel opts codeTree structure' w Hp' Hs2 Hnd) as H.
  destruct (search fuel opts codeTree structure' w) as [[[]| |] st]; simpl;
    try done.
  intros _. apply H; [lia|lia|done].
Qed.

(** *** A callback that always rejects *)

Lemma check_callback_returns entry st :
  exists r st', check_callback tt entry st = (Return r, st')
    /\ r <> inr true
    /\ ((forall args, truthy (entry.2 args) = false) -> r = inr false).
Proof.
  unfold check_callback. munfold.
  destruct (quiet_map_M callback_arg (split_comma "" entry.1)
              quiet_callback_arg st) as (varValues & st1 & -> & _).
  destruct (negb (truthy (entry.2 varValues))
            || bool_decide (is_Some (has_failure (entry.2 varValues))))
    eqn:E.
  - destruct (has_failure (entry.2 varValues)); simpl;
      eexists _, _; (split; [reflexivity|]); by split.
  - eexists _, _. split; [reflexivity|]. split; [done|]. intros Hrej.
    rewrite Hrej in E. done.
Qed.

Lemma js_for_check_callback cbs : forall st,
  exists r st', js_for check_callback tt cbs st = (Return r, st')
    /\ r <> inr true /\ (rejecting cbs -> r = inr false).
Proof.
  induction cbs as [|entry cbs IH]; intros st; simpl.
  - eexists _, _. split; [reflexivity|]. split; [done|].
    by intros (e & ?%elem_of_nil & _).
  - munfold.
    destruct (check_callback_returns entry st) as (r & st1 & -> & Hr & Hrej).
    destruct r as [[]|b].
    + destruct (IH st1) as (r' & st2 & -> & Hr' & Hrej').
      eexists _, _. split; [reflexivity|]. split; [done|].
      intros (e & [->|He]%elem_of_cons & Hall).
      * by specialize (Hrej Hall).
      * apply Hrej'. by exists e.
    + eexists _, _. split; [reflexivity|].
      destruct b; [done|]. by split.
Qed.

Lemma checkUserVarCallbacks_rejects cbs st :
  rejecting cbs ->
  exists st', checkUserVarCallbacks cbs st = (Return false, st').
Proof.
  intros Hrej. unfold checkUserVarCallbacks, put_failure. munfold.
  destruct (js_for_check_callback cbs
              {| wVars := wVars st; results := results st;
                 console := console st; failure := None |})
    as (r & st' & -> & _ & Hr).
  rewrite (Hr Hrej). by eexists.
Qed.

Section rejects.
Variable depth : nat.
Variables codeTree toFind : value.
Variable peers : list value.
Variable varCallbacks : list (string * callback).
Variable single : bool.
Hypothesis rejects : rejecting varCallbacks.

Lemma try_assignment_rejects st st' :
  try_assignment depth codeTree toFind peers varCallbacks single st
  <> (Return true, st').
Proof.
  unfold try_assignment. munfold.
  destruct (checkMatchTree _ _ _ _ _ _) as [[[[] ps]| |] st1]; try done.
  destruct (checkUserVarCallbacks_rejects varCallbacks st1 rejects)
    as (st2 & ->). done.
Qed.

Lemma anyPossible_loop_rejects : forall fuel i st st',
  anyPossible_loop depth codeTree toFind peers varCallbacks single fuel i st
  <> (Return true, st').
Proof.
  induction fuel as [|fuel IH]; intros i st st'; [done|].
  simpl. unfold reset_later, set_skip. munfold. simpl.
  set (st_r := {| wVars := with_skipData (foldl _ _ _) _ |}).
  set (inner := if match length (order (wVars st)) with
                   | 0 => false
                   | S m' => (i =? m')%nat
                   end
                then _ else _).
  assert (Hinner : forall st_a, inner st_r <> (Return true, st_a)).
  { intros st_a. subst inner.
    destruct (match length _ with 0 => _ | _ => _ end).
    - apply try_assignment_rejects.
    - apply IH. }
  destruct (inner st_r) as [[[]| |] st_a]; simpl; [|clear Hinner|done|done].
  - by specialize (Hinner st_a).
  - destruct (values (wVars st_a) !! _) as [[|? ?]|]; try done.
Qed.
End rejects.

Lemma search_rejects fuel opts codeTree structure w st :
  order w <> [] -> single opts = false -> rejecting (varCallbacks opts) ->
  search fuel opts codeTree structure w <> (Return true, st).
Proof.
  intros Ho Hs Hrej. unfold search.
  destruct (targets structure) as [toFind peers]. rewrite Hs.
  destruct (order w) as [|x ord] eqn:E; [done|]. simpl.
  unfold anyPossible, set_skip. munfold. simpl.
  by apply anyPossible_loop_rejects.
Qed.

Lemma match_trees_rejects fuel program structure opts r :
  variables_of structure <> [] -> single opts = false ->
  rejecting (varCallbacks opts) ->
  match_trees fuel program structure opts <> Matched r.
Proof.
  rewrite match_trees_unfold. unfold variables_of.
  destruct (foldConstants (deepClone structure)) as [[] tree']; [|done].
  simpl snd.
  destruct (simplifyTree tree' new_wildcardVars) as [structure' w].
  simpl snd. intros Ho Hs Hrej.
  destruct (foldConstants (deepClone program)) as [[] codeTree]; [|done].
  destruct (nullish structure'); [done|].
  pose proof (search_rejects fuel opts codeTree structure' w) as H.
  destruct (search fuel opts codeTree structure' w) as [[[]| |] st]; try done.
  by specialize (H st Ho Hs Hrej).
Qed.

Lemma match_trees_thrown fuel program structure opts e :
  match_trees fuel program structure opts = Thrown e -> e = ETypeError.
Proof.
  rewrite match_trees_unfold.
  destruct (foldConstants (deepClone structure)) as [[] tree'];
    [|by intros [= <-]].
  destruct (simplifyTree tree' new_wildcardVars) as [structure' w].
  destruct (foldConstants (deepClone program)) as [[] codeTree];
    [|by intros [= <-]].
  destruct (nullish structure'); [by intros [= <-]|].
  destruct (search fuel opts codeTree structure' w) as [[[]| |] st];
    try done; by intros [= <-].
Qed.

(** *** A round of the loop *)

Lemma anyPossible_loop_S depth codeTree toFind peers cbs single fuel i :
  anyPossible_loop depth codeTree toFind peers cbs single (S fuel) i =
    (reset_later i;;
     st ← get_state;
     let ord := order (wVars st) in
     found ←
       (if (S i =? length ord)%nat
        then try_assignment depth codeTree toFind peers cbs single
        else
          set_skip (nth_var ord (S i)) 0;;
          anyPossible_loop depth codeTree toFind peers cbs single fuel (S i));
     if (found : bool) then mret true
     else
       st1 ← get_state;
       let x := nth_var ord i in
       set_skip x (S (default 0 (skipData (wVars st1) !! x)));;
       st2 ← get_state;
       match values (wVars st2) !! x with
       | Some (_ :: _) =>
           anyPossible_loop depth codeTree toFind peers cbs single fuel i
       | _ => mret false
       end).
Proof. reflexivity. Qed.

Lemma anyPossible_loop_stops depth codeTree toFind peers cbs single fuel i
  st st1 st_a :
  reset_later i st = (Return tt, st1) ->
  (if (S i =? length (order (wVars st1)))%nat
   then try_assignment depth codeTree toFind peers cbs single
   else set_skip (nth_var (order (wVars st1)) (S i)) 0;;
        anyPossible_loop depth codeTree toFind peers cbs single fuel (S i))
    st1 = (Return false, st_a) ->
  idle st_a (nth_var (order (wVars st1)) i) ->
  (anyPossible_loop depth codeTree toFind peers cbs single (S fuel) i st).1
  = Return false.
Proof.
  intros Hr Hinner Hidle. rewrite anyPossible_loop_S.
  unfold mbind at 1, M_bind at 1. rewrite Hr.
  unfold mbind at 1, M_bind at 1, get_state at 1.
  cbv zeta.
  unfold mbind at 1, M_bind at 1. rewrite Hinner.
  unfold set_skip. munfold. simpl.
  unfold idle in Hidle.
  by destruct (values (wVars st_a) !! nth_var (order (wVars st1)) i)
    as [[|? ?]|].
Qed.



(** * Further properties of the code *)

(** ** [deepClone] *)

Lemma clone_fields_json fs :
  Forall (fun kv => kv.2 <> VUndef -> json (deepClone kv.2) = true) fs ->
  forallb (fun kv => json kv.2) (clone_fields deepClone fs) = true.
Proof.
  induction 1 as [|[k v] fs Hv _ IH]; simpl; [done|].
  destruct v; simpl in *; try done; rewrite ?IH, ?Hv; done.
Qed.

Lemma deepClone_json v : v <> VUndef -> json (deepClone v) = true.
Proof.
  induction v as [| |b|n|s|xs IH|fs IH|x] using value_rect'; intros Hv;
    try done.
  - simpl. clear Hv. induction IH as [|x xs Hx _ IHxs]; simpl; [done|].
    rewrite IHxs, andb_true_r. destruct x; try done; by apply Hx.
  - simpl. by apply clone_fields_json.
Qed.

Lemma json_fixed v : json v = true -> deepClone v = v.
Proof.
  induction v as [| |b|n|s|xs IH|fs IH|x] using value_rect'; simpl; try done.
  - intros H. f_equal. induction IH as [|x xs Hx _ IHxs]; simpl; [done|].
    simpl in H. apply andb_prop in H as [H1 H2]. rewrite (IHxs H2).
    f_equal. destruct x; simpl; try done; by apply Hx.
  - intros H. f_equal. induction IH as [|[k v] fs Hx _ IHfs]; simpl; [done|].
    simpl in H. apply andb_prop in H as [H1 H2]. rewrite (IHfs H2).
    simpl in *. destruct v; try done; by rewrite (Hx H1).
Qed.

(** X1: [deepClone] of a value other than [undefined] is a tree that
    [JSON] can write (the properties holding [undefined] are gone, the
    array elements holding it are [null]); such a tree is cloned to
    itself, so a clone of a clone is the clone; and an array keeps its
    length. *)
Theorem X1_deepClone_gives_json_and_keeps_json (v : value) :
  v <> VUndef ->
  json (deepClone v) = true
  /\ (json v = true -> deepClone v = v)
  /\ deepClone (deepClone v) = deepClone v
  /\ (forall xs, v = VArr xs ->
        exists ys, deepClone v = VArr ys /\ length ys = length xs).
Proof.
  intros Hv. split; [by apply deepClone_json|]. split; [apply json_fixed|].
  split; [by apply json_fixed, deepClone_json|].
  intros xs ->. eexists. split; [reflexivity|]. by rewrite length_map.
Qed.

Lemma X1_deepClone_gives_json_and_keeps_json_witness :
  let v := VObj [(KName "a", VUndef); (KName "b", VArr [VUndef; VNum 1])] in
  deepClone v = VObj [(KName "b", VArr [VNull; VNum 1])]
  /\ deepClone (deepClone v) = deepClone v.
Proof.
  split; [reflexivity|].
  apply (X1_deepClone_gives_json_and_keeps_json
           (VObj [(KName "a", VUndef); (KName "b", VArr [VUndef; VNum 1])])).
  discriminate.
Defined.

(** ** [foldConstants] *)

(** X2: folding a tree that has been folded changes nothing and ends as
    the first folding did, also when that one raised half-way: [match]
    may fold its cached program tree on every call. *)
Theorem X2_foldConstants_twice (t : value) :
  foldConstants (foldConstants t).2 = foldConstants t.
Proof.
  destruct (foldConstants t) as [c t1] eqn:E. simpl.
  by apply (foldConstants_idempotent t).
Qed.

Lemma signs_fold ops n raw :
  Forall (fun op => op = "-" \/ op = "+") ops ->
  exists e1, foldConstants (signs ops (Ast.Literal n raw)) = (Normal, e1)
    /\ fold_unary e1 = Some (Ast.Literal (signed ops n) raw).
Proof.
  induction 1 as [|op ops Hop _ IH]; simpl.
  - by eexists.
  - destruct IH as (e1 & E1 & E2).
    assert (Hobj : isObject (signs ops (Ast.Literal n raw)) = true).
    { by destruct ops. }
    rewrite Hobj, E1, E2. simpl. eexists. split; [reflexivity|].
    destruct Hop as [-> | ->]; reflexivity.
Qed.

(** X3: a chain of unary [-] and [+] applied to a numeric literal, held
    in a property, is folded into that one literal: its value is negated
    once per [-], and its [raw] text stays as it was written. *)
Theorem X3_signs_fold_to_one_literal (k : key) (ops : list string) (n : Z)
  (raw : string) :
  Forall (fun op => op = "-" \/ op = "+") ops ->
  foldConstants (VObj [(k, signs ops (Ast.Literal n raw))])
  = (Normal, VObj [(k, Ast.Literal (signed ops n) raw)]).
Proof.
  intros Hops. destruct (signs_fold ops n raw Hops) as (e1 & E1 & E2).
  simpl. assert (Hobj : isObject (signs ops (Ast.Literal n raw)) = true).
  { by destruct ops. }
  by rewrite Hobj, E1, E2.
Qed.

Lemma X3_signs_fold_to_one_literal_witness :
  foldConstants
    (VObj [(KName "expression",
            Ast.UnaryExpression "-"
              (Ast.UnaryExpression "+"
                 (Ast.UnaryExpression "-" (Ast.Literal 7 "7"))))])
  = (Normal, VObj [(KName "expression", Ast.Literal 7 "7")]).
Proof.
  apply (X3_signs_fold_to_one_literal "expression" ["-"; "+"; "-"] 7 "7").
  repeat first [apply List.Forall_nil | apply List.Forall_cons]; auto.
Defined.

Lemma fold_unary_none c : fold_unary c = None <-> lacks_argument c = true.
Proof.
  unfold fold_unary, lacks_argument.
  destruct (is_str (get c "type") "UnaryExpression"); cbn [andb];
    [|split; by intros].
  destruct (nullish (get c "argument")); [done|].
  split; [|by intros].
  destruct (is_str (get (get c "argument") "type") "Literal");
    [|by intros].
  destruct (get c "argument") as [| |?|?|?|?|fs|?]; try (by intros).
  destruct (get (VObj fs) "value"); try (by intros).
  destruct (is_str (get c "operator") "-"); [by intros|].
  destruct (is_str (get c "operator") "+"); by intros.
Qed.

Lemma fold_unary_object c c' :
  isObject c = true -> fold_unary c = Some c' -> isObject c' = true.
Proof.
  intros Ho. unfold fold_unary.
  destruct (is_str (get c "type") "UnaryExpression"); [|by intros [= <-]].
  destruct (nullish (get c "argument")); [done|].
  destruct (is_str (get (get c "argument") "type") "Literal");
    [|by intros [= <-]].
  destruct (get c "argument") as [| |?|?|?|?|fs|?]; try (by intros [= <-]).
  destruct (get (VObj fs) "value"); try (by intros [= <-]).
  destruct (is_str (get c "operator") "-"); [by intros [= <-]|].
  destruct (is_str (get c "operator") "+"); by intros [= <-].
Qed.


Lemma alike_refl a : alike a a.
Proof. unfold alike. by destruct (isObject a) eqn:E. Qed.

Lemma fold_props_alike rec (fs : list (key * value)) : forall c fs' k,
  (forall v c' v', rec v = (c', v') -> isObject v' = isObject v) ->
  fold_props snd set_snd rec fs = (c, fs') ->
  alike (default VUndef (assoc k fs)) (default VUndef (assoc k fs')).
Proof.
  induction fs as [|[k0 v] fs IH]; intros c fs' k Hrec E; simpl in E.
  - injection E as <- <-. apply alike_refl.
  - destruct (isObject v) eqn:Ho.
    + destruct (rec v) as [[] ast1] eqn:Er.
      * pose proof (Hrec _ _ _ Er) as Ho1. rewrite Ho in Ho1.
        destruct (fold_unary ast1) as [ast2|] eqn:Eu.
        -- destruct (fold_props snd set_snd rec fs) as [c' fs1] eqn:Et.
           injection E as <- <-. simpl.
           destruct (key_eqb k0 k); simpl.
           ++ unfold alike. rewrite Ho. by apply (fold_unary_object ast1).
           ++ by apply (IH c').
        -- injection E as <- <-. simpl. destruct (key_eqb k0 k); simpl.
           ++ unfold alike. by rewrite Ho.
           ++ apply alike_refl.
      * pose proof (Hrec _ _ _ Er) as Ho1. rewrite Ho in Ho1.
        injection E as <- <-. simpl. destruct (key_eqb k0 k); simpl.
        -- unfold alike. by rewrite Ho.
        -- apply alike_refl.
    + destruct (fold_props snd set_snd rec fs) as [c' fs1] eqn:Et.
      injection E as <- <-. simpl. destruct (key_eqb k0 k); simpl.
      * apply alike_refl.
      * by apply (IH c').
Qed.

Lemma fold_props_length {A} (getv : A -> value) setv rec (ps : list A) :
  forall c ps', fold_props getv setv rec ps = (c, ps') ->
  length ps' = length ps.
Proof.
  induction ps as [|p ps IH]; intros c ps' E; simpl in E.
  - by injection E as <- <-.
  - destruct (isObject (getv p)).
    + destruct (rec (getv p)) as [[] ast1].
      * destruct (fold_unary ast1).
        -- destruct (fold_props getv setv rec ps) as [c' ps1] eqn:Et.
           injection E as <- <-. simpl. f_equal. by apply (IH c').
        -- by injection E as <- <-.
      * by injection E as <- <-.
    + destruct (fold_props getv setv rec ps) as [c' ps1] eqn:Et.
      injection E as <- <-. simpl. f_equal. by apply (IH c').
Qed.

Lemma alike_is_str a b s : alike a b -> is_str b s = is_str a s.
Proof. unfold alike. destruct a; simpl; try (by intros ->); by destruct b. Qed.

Lemma alike_nullish a b : alike a b -> nullish b = nullish a.
Proof. unfold alike. destruct a; simpl; try (by intros ->); by destruct b. Qed.

Lemma foldConstants_lacks c how c1 :
  foldConstants c = (how, c1) -> lacks_argument c1 = lacks_argument c.
Proof.
  destruct c as [| |b|n|s|xs|fs|x]; simpl; try (by intros [= <- <-]).
  - destruct (fold_props id _ foldConstants xs) as [h xs'] eqn:E.
    by intros [= <- <-].
  - destruct (fold_props snd set_snd foldConstants fs) as [h fs'] eqn:E.
    intros [= <- <-]. unfold lacks_argument. simpl.
    pose proof (fun k => fold_props_alike foldConstants fs h fs' k
                  foldConstants_isObject E) as H.
    by rewrite (alike_is_str _ _ _ (H "type")),
               (alike_nullish _ _ (H "argument")).
Qed.

Section fold_props_normal.
Context {A : Type} (getv : A -> value) (setv : A -> value -> A).

Lemma fold_props_normal ps :
  Forall (fun p => (foldConstants (getv p)).1 = Normal
                   <-> foldable (getv p) = true) ps ->
  (fold_props getv setv foldConstants ps).1 = Normal
  <-> forallb (fun p => negb (lacks_argument (getv p)) && foldable (getv p))
        ps = true.
Proof.
  induction 1 as [|p ps Hp _ IH]; simpl; [done|].
  destruct (isObject (getv p)) eqn:Ho.
  - destruct (foldConstants (getv p)) as [[] ast1] eqn:Er; simpl in Hp.
    + rewrite <- (foldConstants_lacks _ _ _ Er).
      rewrite (proj1 Hp eq_refl), andb_true_r.
      destruct (fold_unary ast1) as [ast2|] eqn:Eu.
      * assert (lacks_argument ast1 = false) as ->.
        { apply not_true_is_false. rewrite <- fold_unary_none. congruence. }
        simpl. by destruct (fold_props getv setv foldConstants ps).
      * apply fold_unary_none in Eu. rewrite Eu. simpl. done.
    + assert (foldable (getv p) = false) as ->.
      { apply not_true_is_false. intros H. by apply Hp in H. }
      rewrite andb_false_r. done.
  - assert (lacks_argument (getv p) = false) as ->.
    { unfold lacks_argument. by destruct (getv p). }
    assert (foldable (getv p) = true) as ->. { by destruct (getv p). }
    simpl. by destruct (fold_props getv setv foldConstants ps).
Qed.
End fold_props_normal.

(** X4: [foldConstants] ends normally exactly on the trees that hold,
    below the root, no unary expression whose [argument] is [undefined]
    or [null]; on every other tree it raises a [TypeError].  The root
    itself is never looked at. *)
Theorem X4_foldConstants_raises_on_missing_arguments_only (t : value) :
  (foldConstants t).1 = Normal <-> foldable t = true.
Proof.
  induction t as [| |b|n|s|xs IH|fs IH|x] using value_rect'; try done.
  - simpl.
    pose proof (fold_props_normal id (fun _ v => v) xs IH) as H.
    by destruct (fold_props id _ foldConstants xs).
  - simpl.
    pose proof (fold_props_normal snd set_snd fs IH) as H.
    by destruct (fold_props snd set_snd foldConstants fs).
Qed.

(** ** [simplifyTree] *)

Lemma simplify_child_unmarked rec c w :
  special c = false ->
  simplify_child rec c w =
    if isObject c then let '(c', w') := rec c w in (Some c', w')
    else (Some c, w).
Proof.
  unfold special, simplify_child. destruct (isObject c); [|done]. simpl.
  intros H. apply orb_false_elim in H as [H H3].
  apply orb_false_elim in H as [H1 H2]. by rewrite H1, H2, H3.
Qed.

Lemma simplify_fields_unmarked fs : forall w,
  Forall (fun kv => forall w, unmarked kv.2 = true ->
                      simplifyTree kv.2 w = (kv.2, w)) fs ->
  forallb (fun kv => negb (special kv.2) && unmarked kv.2) fs = true ->
  simplify_fields simplifyTree fs w = (fs, w).
Proof.
  induction fs as [|[k v] fs IH]; intros w HF H; simpl; [done|].
  apply Forall_cons in HF as [Hv HF]. simpl in H, Hv.
  apply andb_prop in H as [H1 H2]. apply andb_prop in H1 as [Hs Hu].
  apply negb_true_iff in Hs.
  rewrite (simplify_child_unmarked _ _ _ Hs).
  destruct (isObject v); [rewrite (Hv w Hu)|]; by rewrite (IH w HF H2).
Qed.

Lemma simplify_elems_unmarked xs : forall w,
  Forall (fun x => forall w, unmarked x = true ->
                     simplifyTree x w = (x, w)) xs ->
  forallb (fun x => negb (special x) && unmarked x) xs = true ->
  simplify_elems simplifyTree false xs w = (xs, w).
Proof.
  induction xs as [|x xs IH]; intros w HF H; simpl; [done|].
  apply Forall_cons in HF as [Hv HF]. simpl in H.
  apply andb_prop in H as [H1 H2]. apply andb_prop in H1 as [Hs Hu].
  apply negb_true_iff in Hs.
  rewrite (simplify_child_unmarked _ _ _ Hs).
  destruct (isObject x); [rewrite (Hv w Hu)|]; by rewrite (IH w HF H2).
Qed.

Lemma simplifyTree_unmarked (t : value) :
  forall w : wildcardVars, unmarked t = true -> simplifyTree t w = (t, w).
Proof.
  induction t as [| |b|n|s|xs IH|fs IH|x] using value_rect'; intros w H;
    try done.
  - simpl. by rewrite (simplify_elems_unmarked xs w IH H).
  - simpl. by rewrite (simplify_fields_unmarked fs w IH H).
Qed.

(** X7: a template that holds no wildcard ([_], a node with an empty
    [body]), no named variable and no empty statement is left as it is by
    [simplifyTree], and so are the variables.  Handed over as an object
    that [JSON] carries and that is folded already, it comes out of
    [parseStructureWithVars] as it went in: it is matched as written. *)
Theorem X7_simplifyTree_keeps_plain_templates (t : value)
  (w : wildcardVars) :
  unmarked t = true ->
  simplifyTree t w = (t, w)
  /\ (json t = true -> settled t = true ->
      forall (esprima_parse : string -> option value) (m : module),
        parseStructureWithVars esprima_parse m (StructureObj t) w
        = (inr (t, w), m)).
Proof.
  intros Hu. split; [by apply simplifyTree_unmarked|].
  intros Hj Hs esprima_parse m.
  unfold parseStructureWithVars, parseStructure.
  rewrite (json_fixed t Hj), (foldConstants_settled t Hs).
  by rewrite (simplifyTree_unmarked t w Hu).
Qed.

Lemma X7_simplifyTree_keeps_plain_templates_witness :
  parseStructureWithVars no_parser (initial_module ∅)
    (StructureObj (Ast.BlockStatement [sum_of "a" "b"; Ast.stmt "c"]))
    new_wildcardVars
  = (inr (Ast.BlockStatement [sum_of "a" "b"; Ast.stmt "c"],
          new_wildcardVars),
     initial_module ∅).
Proof.
  apply (proj2 (X7_simplifyTree_keeps_plain_templates
                  (Ast.BlockStatement [sum_of "a" "b"; Ast.stmt "c"])
                  new_wildcardVars eq_refl) eq_refl eq_refl).
Defined.

Lemma simplify_child_empty rec w :
  simplify_child rec Ast.EmptyStatement w = (None, w).
Proof. reflexivity. Qed.

Lemma simplify_elems_pairs (k : nat) : forall w,
  simplify_elems simplifyTree false
    (replicate (2 * k) Ast.EmptyStatement) w
  = (replicate k Ast.EmptyStatement, w).
Proof.
  induction k as [|k IH]; intros w; [done|].
  replace (2 * S k) with (S (S (2 * k))) by lia.
  cbn [replicate]. cbn [simplify_elems]. rewrite simplify_child_empty.
  cbn [simplify_elems]. by rewrite IH.
Qed.

(** X5: in an array, [simplifyTree] never visits the element that
    follows a removed empty statement ([splice] moves it under the key
    just left): it stays as written, whatever it is.  So of [2k] empty
    statements in a row [k] remain, and in the template [; $x;] the
    statement [$x;] is not made a variable: the template asks for an
    identifier named [$x] and does not match the program [a;], which
    [$x;] alone matches. *)
Theorem X5_simplifyTree_skips_after_an_empty_statement :
  (forall (y : value) (rest : list value) (w : wildcardVars),
      simplifyTree (VArr (Ast.EmptyStatement :: y :: rest)) w =
        let '(rest', w') := simplify_elems simplifyTree false rest w in
        (VArr (y :: rest'), w'))
  /\ (forall (k : nat) (w : wildcardVars),
        simplifyTree (VArr (replicate (2 * k) Ast.EmptyStatement)) w
        = (VArr (replicate k Ast.EmptyStatement), w))
  /\ simplifyTree (Ast.BlockStatement [Ast.EmptyStatement; Ast.stmt "$x"])
       new_wildcardVars
     = (Ast.BlockStatement [Ast.stmt "$x"], new_wildcardVars)
  /\ match_trees 6 (Ast.Program [Ast.stmt "a"])
       (Ast.BlockStatement [Ast.stmt "$x"]) no_options
     = Matched {| underscore := [];
                  vars := {[ "x" := Ast.Identifier "a" ]};
                  root := Some (Ast.stmt "a") |}
  /\ match_trees 6 (Ast.Program [Ast.stmt "a"])
       (Ast.BlockStatement [Ast.EmptyStatement; Ast.stmt "$x"]) no_options
     = NoMatch.
Proof.
  split; [|split; [|split; [|split]]].
  - intros y rest w. cbn [simplifyTree simplify_elems].
    rewrite simplify_child_empty. cbn [simplify_elems].
    by destruct (simplify_elems simplifyTree false rest w).
  - intros k w. cbn [simplifyTree]. by rewrite simplify_elems_pairs.
  - reflexivity.
  - vm_compute. reflexivity.
  - vm_compute. reflexivity.
Qed.

Lemma declare_var_tidy varName w :
  values w !! varName = None -> tidy w -> grows w (declare_var varName w).
Proof.
  intros Hv (Hnd & Hin & Hcell & Hskip & Hl). split; [|by eexists].
  assert (Hnot : varName ∉ order w).
  { intros Hx. apply Hin in Hx as [? ?]. congruence. }
  split; [|split; [|split; [|split]]]; simpl.
  - apply NoDup_app. split; [done|]. split; [|apply NoDup_singleton].
    by intros x Hx ->%list_elem_of_singleton.
  - intros x. rewrite elem_of_app, list_elem_of_singleton.
    destruct (decide (varName = x)) as [->|Hne].
    + rewrite lookup_insert_eq. split; [by eexists|by right].
    + rewrite lookup_insert_ne by done. rewrite <- Hin.
      split; [by intros [?|?]|by left].
  - intros x cell. destruct (decide (varName = x)) as [->|Hne].
    + rewrite lookup_insert_eq. by intros [= <-].
    + rewrite lookup_insert_ne by done. apply Hcell.
  - intros x. destruct (decide (varName = x)) as [->|Hne].
    + by rewrite lookup_insert_eq.
    + rewrite lookup_insert_ne by done.
      intros [Hx| ->%list_elem_of_singleton]%elem_of_app; [by apply Hskip|done].
  - done.
Qed.

Lemma grows_refl w : tidy w -> grows w w.
Proof. by split. Qed.

Lemma grows_trans w1 w2 w3 : grows w1 w2 -> grows w2 w3 -> grows w1 w3.
Proof. intros [_ H1] [H2 H3]. split; [done|]. by etrans. Qed.

Section simplify_tidy.
Variable rec : value -> wildcardVars -> value * wildcardVars.

Lemma simplify_child_tidy child w :
  (forall w, tidy w -> grows w (rec child w).2) ->
  tidy w -> grows w (simplify_child rec child w).2.
Proof.
  intros Hrec Hw. unfold simplify_child.
  destruct (isObject child); [|by apply grows_refl].
  destruct (isWildcard child); [by apply grows_refl|].
  destruct (isWildcardVar child).
  { destruct (get child "name") as [| |?|?|varName|?|?|?];
      try (by apply grows_refl).
    destruct (values w !! varName) eqn:Ev; simpl.
    - by apply grows_refl.
    - by apply declare_var_tidy. }
  destruct (is_str (get child "type") "EmptyStatement");
    [by apply grows_refl|].
  specialize (Hrec w Hw). by destruct (rec child w).
Qed.

Lemma simplify_fields_tidy fs : forall w,
  Forall (fun kv => forall w, tidy w -> grows w (rec kv.2 w).2) fs ->
  tidy w -> grows w (simplify_fields rec fs w).2.
Proof.
  induction fs as [|[k v] fs IH]; intros w Hrec Hw; simpl;
    [by apply grows_refl|].
  apply Forall_cons in Hrec as [Hr1 Hrec].
  pose proof (simplify_child_tidy v w Hr1 Hw) as H1.
  destruct (simplify_child rec v w) as [r w1]. simpl in H1.
  pose proof (IH w1 Hrec (proj1 H1)) as H2.
  destruct (simplify_fields rec fs w1) as [fs1 w2]. simpl in *.
  by apply (grows_trans w w1 w2).
Qed.

Lemma simplify_elems_tidy xs : forall skip w,
  Forall (fun x => forall w, tidy w -> grows w (rec x w).2) xs ->
  tidy w -> grows w (simplify_elems rec skip xs w).2.
Proof.
  induction xs as [|x xs IH]; intros skip w Hrec Hw; simpl;
    [by apply grows_refl|].
  apply Forall_cons in Hrec as [Hr1 Hrec].
  destruct skip.
  - pose proof (IH false w Hrec Hw) as H.
    by destruct (simplify_elems rec false xs w).
  - pose proof (simplify_child_tidy x w Hr1 Hw) as H1.
    destruct (simplify_child rec x w) as [[x'|] w1]; simpl in H1.
    + pose proof (IH false w1 Hrec (proj1 H1)) as H2.
      destruct (simplify_elems rec false xs w1) as [xs1 w2]. simpl in *.
      by apply (grows_trans w w1 w2).
    + apply (grows_trans w w1); [done|]. apply IH; [done|apply H1].
Qed.
End simplify_tidy.

Lemma new_wildcardVars_tidy : tidy new_wildcardVars.
Proof.
  split; [constructor|]. split; [|split; [|split]]; simpl.
  - intros x. split; [by intros ?%elem_of_nil|].
    rewrite lookup_empty. by intros [? ?].
  - intros x cell. by rewrite lookup_empty.
  - by intros x ?%elem_of_nil.
  - done.
Qed.

(** X6: [simplifyTree] keeps the inventory of variables in order: from
    a tidy [wVars] it gives a tidy one, and the variables listed before
    stay where they were, new ones being appended in the order of their
    first occurrence. *)
Theorem X6_simplifyTree_keeps_the_inventory (t : value) (w : wildcardVars) :
  tidy w ->
  tidy (simplifyTree t w).2
  /\ order w `prefix_of` order (simplifyTree t w).2.
Proof.
  revert w.
  induction t as [| |b|n|s|xs IH|fs IH|x] using value_rect'; intros w Hw;
    try (by apply grows_refl).
  - simpl. pose proof (simplify_elems_tidy simplifyTree xs false w IH Hw) as H.
    by destruct (simplify_elems simplifyTree false xs w).
  - simpl. pose proof (simplify_fields_tidy simplifyTree fs w IH Hw) as H.
    by destruct (simplify_fields simplifyTree fs w).
Qed.

Lemma X6_simplifyTree_keeps_the_inventory_witness :
  let w := (simplifyTree
              (Ast.BlockStatement [sum_of "$x" "$y"; sum_of "$y" "$x"])
              new_wildcardVars).2 in
  tidy w /\ order w = ["$x"; "$y"].
Proof.
  split; [|reflexivity].
  apply (X6_simplifyTree_keeps_the_inventory
           (Ast.BlockStatement [sum_of "$x" "$y"; sum_of "$y" "$x"])
           new_wildcardVars).
  apply new_wildcardVars_tidy.
Defined.

(** ** [checkUserVarCallbacks] *)

Lemma callback_arg_run varName st :
  exists st', callback_arg varName st
              = (Return (cell_arg (values (wVars st)) varName), st')
    /\ same_search st st' /\ failure st' = failure st.
Proof.
  unfold callback_arg, cell_arg. munfold.
  destruct (values (wVars st) !! stringLeftTrim varName);
    eexists; (split; [reflexivity|]); by split.
Qed.

Lemma map_M_callback_arg names : forall st,
  exists st', map_M callback_arg names st
              = (Return (map (cell_arg (values (wVars st))) names), st')
    /\ same_search st st' /\ failure st' = failure st.
Proof.
  induction names as [|n names IH]; intros st; simpl.
  - eexists. split; [reflexivity|]. by split.
  - munfold. destruct (callback_arg_run n st) as (st1 & -> & [Hw Hr] & Hf).
    destruct (IH st1) as (st2 & -> & [Hw2 Hr2] & Hf2). rewrite Hw.
    eexists. split; [reflexivity|]. split; [split|]; congruence.
Qed.

Lemma check_callback_run entry st :
  exists st', check_callback tt entry st
              = (Return (if accepts (values (wVars st)) entry then inl tt
                         else inr false), st')
    /\ same_search st st'
    /\ failure st' = if accepts (values (wVars st)) entry then failure st
                     else match has_failure (answer_of (values (wVars st)) entry)
                          with Some msg => Some msg | None => failure st end.
Proof.
  unfold check_callback. munfold.
  destruct (map_M_callback_arg (split_comma "" entry.1) st)
    as (st1 & -> & [Hw Hr] & Hf).
  unfold accepts, answer_of, callback_args.
  set (result := entry.2 _).
  destruct (truthy result); simpl.
  - destruct (has_failure result) as [msg|] eqn:Eh; simpl.
    + eexists. split; [reflexivity|]. by split.
    + eexists. split; [reflexivity|]. by split.
  - destruct (has_failure result) as [msg|] eqn:Eh; simpl;
      eexists; (split; [reflexivity|]); by split.
Qed.

Lemma js_for_check_callback_run cbs : forall st,
  exists st', js_for check_callback tt cbs st
              = (Return (if forallb (accepts (values (wVars st))) cbs
                         then inl tt else inr false), st')
    /\ same_search st st'
    /\ failure st' = match failure_of (values (wVars st)) cbs with
                     | Some msg => Some msg
                     | None => failure st
                     end.
Proof.
  induction cbs as [|entry cbs IH]; intros st; simpl.
  - eexists. split; [reflexivity|]. by split.
  - munfold.
    destruct (check_callback_run entry st) as (st1 & -> & [Hw Hr] & Hf).
    unfold failure_of. simpl.
    destruct (accepts (values (wVars st)) entry); simpl.
    + destruct (IH st1) as (st2 & -> & [Hw2 Hr2] & Hf2).
      rewrite Hw in *. eexists. split; [reflexivity|].
      split; [split; congruence|].
      rewrite Hf2, Hf. done.
    + eexists. split; [reflexivity|]. by split.
Qed.

Lemma checkUserVarCallbacks_run (cbs : list (string * callback))
  (st : mstate) :
  let cells := values (wVars st) in
  let r := checkUserVarCallbacks cbs st in
  r.1 = Return (forallb (accepts cells) cbs)
  /\ wVars r.2 = wVars st /\ results r.2 = results st
  /\ failure r.2 = failure_of cells cbs.
Proof.
  simpl. unfold checkUserVarCallbacks, put_failure. munfold.
  destruct (js_for_check_callback_run cbs
              {| wVars := wVars st; results := results st;
                 console := console st; failure := None |})
    as (st' & E & [Hw Hr] & Hf). simpl in *. rewrite E.
  destruct (forallb (accepts (values (wVars st))) cbs); simpl;
    (split; [done|]); (split; [done|]); (split; [done|]);
    rewrite Hf; by destruct (failure_of _ _).
Qed.

(** X11: [checkUserVarCallbacks] answers [true] exactly when every
    callback accepts the clones of the cells of its variables; it asks the
    callbacks in order and stops at the first that does not accept, whose
    [failure] message, if any, is the one left on [varCallbacks] (an older
    message is cleared first); bindings and results are left alone.  The
    callbacks after the first that does not accept are not called: the
    run, with its console, is the run without them. *)
Theorem X11_callbacks_are_asked_in_order
  (cbs : list (string * callback)) (st : mstate) :
  let cells := values (wVars st) in
  let r := checkUserVarCallbacks cbs st in
  (r.1 = Return (forallb (accepts cells) cbs)
   /\ wVars r.2 = wVars st /\ results r.2 = results st
   /\ failure r.2 = failure_of cells cbs)
  /\ (forall (asked : list (string * callback)) (entry : string * callback)
             (later : list (string * callback)),
        cbs = (asked ++ entry :: later)%list ->
        accepts cells entry = false ->
        r = checkUserVarCallbacks (asked ++ [entry])%list st).
Proof.
  intros cells r. split; [apply checkUserVarCallbacks_run|].
  intros asked entry later -> Hrej. subst r cells.
  unfold checkUserVarCallbacks, put_failure. munfold.
  set (st0 := {| wVars := wVars st; results := results st;
                 console := console st; failure := None |}).
  assert (Hw0 : wVars st0 = wVars st) by done.
  clearbody st0. revert st0 Hw0.
  induction asked as [|e asked IH]; intros st0 Hw0.
  - cbn [app]. rewrite !js_for_cons.
    destruct (check_callback_run entry st0) as (st1 & E & _).
    rewrite Hw0, Hrej in E. by rewrite E.
  - cbn [app]. rewrite !js_for_cons.
    destruct (check_callback_run e st0) as (st1 & E & [Hw1 _] & _).
    rewrite E. destruct (accepts _ e); [|done].
    apply IH. congruence.
Qed.

Lemma X11_callbacks_are_asked_in_order_witness :
  checkUserVarCallbacks
    [("$a", fun _ => VBool false); ("$b", fun _ => VBool true)]
    (new_mstate new_wildcardVars)
  = checkUserVarCallbacks [("$a", fun _ => VBool false)]
      (new_mstate new_wildcardVars).
Proof.
  apply (proj2 (X11_callbacks_are_asked_in_order
                  [("$a", fun _ => VBool false); ("$b", fun _ => VBool true)]
                  (new_mstate new_wildcardVars))
           [] ("$a", fun _ => VBool false) [("$b", fun _ => VBool true)]
           eq_refl eq_refl).
Defined.

Lemma string_app_cons x (a b : string) :
  (String x a ++ b = String x (a ++ b))%string.
Proof. reflexivity. Qed.

Lemma string_app_assoc (a b c : string) :
  ((a ++ b) ++ c = a ++ (b ++ c))%string.
Proof.
  induction a as [|x a IH]; [done|]. by rewrite !string_app_cons, IH.
Qed.

Lemma string_app_empty (a : string) : (a ++ "" = a)%string.
Proof.
  induction a as [|x a IH]; [done|]. by rewrite string_app_cons, IH.
Qed.

Lemma split_comma_piece (s : string) : forall cur t,
  has_comma s = false ->
  split_comma cur (s ++ String ","%char t)
  = (cur ++ s)%string :: split_comma "" t.
Proof.
  induction s as [|c s IH]; intros cur t H.
  - change ("" ++ String ","%char t) with (String ","%char t). simpl.
    by rewrite string_app_empty.
  - rewrite string_app_cons. simpl in *.
    apply orb_false_elim in H as [Hc Hs]. rewrite Hc.
    rewrite (IH _ _ Hs). by rewrite string_app_assoc.
Qed.

Lemma split_comma_last (s : string) : forall cur,
  has_comma s = false -> split_comma cur s = [(cur ++ s)%string].
Proof.
  induction s as [|c s IH]; intros cur H; simpl in *.
  - by rewrite string_app_empty.
  - apply orb_false_elim in H as [Hc Hs]. rewrite Hc.
    rewrite (IH _ Hs). by rewrite string_app_assoc.
Qed.

Lemma split_comma_list rest : forall n cur,
  Forall a_name (n :: rest) ->
  split_comma cur (comma_list n rest)
  = (cur ++ n)%string :: map (String " "%char) rest.
Proof.
  induction rest as [|m rest IH]; intros n cur HF; simpl.
  - apply Forall_cons in HF as [[Hn _] _]. by apply split_comma_last.
  - apply Forall_cons in HF as [[Hn _] HF].
    change (n ++ ", " ++ comma_list m rest)
      with (n ++ String ","%char (String " "%char (comma_list m rest))).
    rewrite (split_comma_piece n cur _ Hn). f_equal.
    change (split_comma "" (String " " (comma_list m rest)))
      with (split_comma " " (comma_list m rest)).
    by rewrite (IH m " " HF).
Qed.



(** ** What [anyPossible] reports *)

Lemma failure_of_none cells cbs :
  forallb (accepts cells) cbs = true -> failure_of cells cbs = None.
Proof.
  unfold failure_of. induction cbs as [|e cbs IH]; simpl; [done|].
  intros [He H]%andb_prop. rewrite He. simpl. by apply IH.
Qed.

Section accepted.
Variable depth : nat.
Variables codeTree toFind : value.
Variable peers : list value.
Variable cbs : list (string * callback).
Variable single : bool.

Lemma try_assignment_accepted st st' :
  try_assignment depth codeTree toFind peers cbs single st
  = (Return true, st') -> accepted cbs st'.
Proof.
  unfold try_assignment. munfold.
  destruct (checkMatchTree _ _ _ _ _ _) as [[[[] ps]| |] st1]; try done.
  destruct (checkUserVarCallbacks_run cbs st1) as (E & Hw & _ & Hf).
  destruct (checkUserVarCallbacks cbs st1) as [o st2]. simpl in *.
  intros [= -> ->]. injection E as E. unfold accepted.
  rewrite Hw, Hf. split; [done|]. by apply failure_of_none.
Qed.

Lemma anyPossible_loop_accepted : forall fuel i st st',
  anyPossible_loop depth codeTree toFind peers cbs single fuel i st
  = (Return true, st') -> accepted cbs st'.
Proof.
  induction fuel as [|fuel IH]; intros i st st'; [done|].
  simpl. unfold reset_later, set_skip. munfold. simpl.
  set (st_r := {| wVars := with_skipData (foldl _ _ _) _ |}).
  set (inner := if match length (order (wVars st)) with
                   | 0 => false
                   | S m' => (i =? m')%nat
                   end
                then _ else _).
  assert (Hinner : forall st_a, inner st_r = (Return true, st_a) ->
                     accepted cbs st_a).
  { intros st_a. subst inner.
    destruct (match length _ with 0 => _ | _ => _ end).
    - apply try_assignment_accepted.
    - apply IH. }
  destruct (inner st_r) as [[[]| |] st_a]; simpl; try done.
  - intros [= <-]. by apply Hinner.
  - destruct (values (wVars st_a) !! _) as [[|? ?]|]; try done. apply IH.
Qed.
End accepted.

(** X13: when the search over the variables reports a match, every
    callback has accepted the bindings the search ends with, and no
    failure message is left on [varCallbacks]. *)
Theorem X13_a_reported_match_passed_every_callback
  (fuel : nat) (opts : options) (codeTree structure : value)
  (w : wildcardVars) (st : mstate) :
  order w <> [] -> single opts = false ->
  search fuel opts codeTree structure w = (Return true, st) ->
  forallb (accepts (values (wVars st))) (varCallbacks opts) = true
  /\ failure st = None.
Proof.
  intros Ho Hs. unfold search.
  destruct (targets structure) as [toFind peers]. rewrite Hs.
  destruct (order w) as [|x ord] eqn:E; [done|]. simpl.
  unfold anyPossible, set_skip. munfold. simpl.
  apply anyPossible_loop_accepted.
Qed.

Lemma X13_a_reported_match_passed_every_callback_witness :
  let opts := {| varCallbacks := [("$x", accept_all)]; single := false |} in
  let t := simplifyTree (Ast.BlockStatement [sum_of "$x" "$x"])
             new_wildcardVars in
  let r := search 6 opts (Ast.Program [sum_of "a" "a"]) t.1 t.2 in
  r.1 = Return true
  /\ forallb (accepts (values (wVars r.2))) (varCallbacks opts) = true
  /\ failure r.2 = None.
Proof.
  split; [vm_compute; reflexivity|].
  apply (X13_a_reported_match_passed_every_callback 6
           {| varCallbacks := [("$x", accept_all)]; single := false |}
           (Ast.Program [sum_of "a" "a"])
           (simplifyTree (Ast.BlockStatement [sum_of "$x" "$x"])
              new_wildcardVars).1
           (simplifyTree (Ast.BlockStatement [sum_of "$x" "$x"])
              new_wildcardVars).2).
  - discriminate.
  - reflexivity.
  - vm_compute. reflexivity.
Defined.

(** ** Matching a single node *)

Lemma still_ret {A} (a : A) : still (mret a).
Proof. intros st a' st' _ E. munfold. by injection E as <- <-. Qed.

Lemma still_throw {A} : still (@throw A).
Proof. by intros st a st' _ E. Qed.

Lemma still_out_of_fuel {A} : still (@out_of_fuel A).
Proof. by intros st a st' _ E. Qed.

Lemma still_bind {A B} (m : M A) (f : A -> M B) :
  still m -> (forall a, still (f a)) -> still (m ≫= f).
Proof.
  intros Hm Hf st b st' Hu E. munfold.
  destruct (m st) as [[a| |] st1] eqn:Em; try discriminate.
  pose proof (Hm _ _ _ Hu Em) as H1.
  assert (unset st1) as Hu1 by (unfold unset; by rewrite H1).
  rewrite (Hf a _ _ _ Hu1 E). done.
Qed.

Lemma still_quiet {A} (m : M A) : quiet m -> still m.
Proof.
  intros Hq st a st' _ E. destruct (Hq st) as (a' & st1 & E' & Hw).
  rewrite E' in E. by injection E as <- <-.
Qed.

Lemma still_lift {A} (o : outcome A) : still (lift o).
Proof. intros st a st' _ E. unfold lift in E. by injection E as _ <-. Qed.

Lemma still_js_for {S A R} (body : S -> A -> M (S + R)) (xs : list A) :
  (forall s x, still (body s x)) -> forall s, still (js_for body s xs).
Proof.
  intros Hb. induction xs as [|x xs IH]; intros s; simpl.
  - apply still_ret.
  - apply still_bind; [apply Hb|]. intros [s'|r]; [apply IH|apply still_ret].
Qed.

Ltac still_walk tac :=
  repeat match goal with
  | |- still (mret _) => apply still_ret
  | |- still throw => apply still_throw
  | |- still (lift _) => apply still_lift
  | |- still (match ?x with _ => _ end) => destruct x
  | |- still (_ ≫= _) => apply still_bind; [|intros ?]
  | |- still _ => first [apply still_quiet; by quiet_solve | tac]
  end.

Lemma bind_wildcardVar_still currNode subFind rootToSet :
  still (bind_wildcardVar currNode subFind rootToSet).
Proof.
  intros st b st' Hu. unfold bind_wildcardVar. munfold.
  unfold unset in Hu. by rewrite Hu.
Qed.

Section still.
Variable single : bool.
Variable rec : call -> M answer.
Hypothesis rec_still : forall c, still (rec c).

Lemma emn_key_still currNode toFind rootToSet peers key :
  still (emn_key rec currNode toFind rootToSet peers key).
Proof.
  unfold emn_key.
  still_walk ltac:(first [apply rec_still | apply bind_wildcardVar_still]).
Qed.

Lemma exactMatchNode_still currNode toFind peers :
  still (exactMatchNode rec currNode toFind peers).
Proof.
  unfold exactMatchNode.
  still_walk ltac:(apply still_js_for; intros; apply emn_key_still).
Qed.

Lemma cmt_child_still toFind peers kv :
  still (cmt_child rec toFind peers kv).
Proof. unfold cmt_child. still_walk ltac:(apply rec_still). Qed.

Lemma checkMatchTree_body_still currTree toFind peers :
  still (checkMatchTree_body single rec currTree toFind peers).
Proof.
  unfold checkMatchTree_body.
  still_walk ltac:(first [apply exactMatchNode_still
                         | apply still_js_for; intros; apply cmt_child_still]).
Qed.

Lemma cna_elem_still s x : still (cna_elem rec s x).
Proof.
  destruct s as [[toFind curGlob] peers]. unfold cna_elem.
  still_walk ltac:(apply rec_still).
Qed.

Lemma checkNodeArray_body_still nodeArr toFind peers :
  still (checkNodeArray_body rec nodeArr toFind peers).
Proof.
  unfold checkNodeArray_body.
  still_walk ltac:(apply still_js_for; intros; apply cna_elem_still).
Qed.
End still.

Lemma engine_still single fuel : forall c, still (engine single fuel c).
Proof.
  induction fuel as [|fuel IH]; intros c; simpl.
  - apply still_out_of_fuel.
  - destruct c.
    + by apply checkMatchTree_body_still.
    + by apply checkNodeArray_body_still.
Qed.

Lemma marker_raises rec currNode x peers st :
  isObject currNode = true ->
  nullish (get currNode "wildcardVar") = true ->
  unset st ->
  (exactMatchNode rec currNode (marker x) peers st).1 = TypeError.
Proof.
  intros Hobj Hlack Hu. unfold unset in Hu.
  assert (Hnn : nullish currNode = false) by (by destruct currNode).
  unfold exactMatchNode, marker. munfold. simpl.
  destruct (root (results st)); simpl.
  - unfold emn_key. munfold. simpl. rewrite Hnn, Hlack. simpl.
    unfold bind_wildcardVar. munfold. by rewrite Hu.
  - rewrite Hnn. destruct (is_str _ _); simpl;
      unfold emn_key; munfold; simpl; rewrite Hnn, Hlack; simpl;
      unfold bind_wildcardVar; munfold; by rewrite Hu.
Qed.

Lemma checkMatchTree_body_raises single rec currTree toFind peers st :
  isArray toFind = false ->
  (exactMatchNode rec currTree toFind peers st).1 = TypeError ->
  (checkMatchTree_body single rec currTree toFind peers st).1 = TypeError.
Proof.
  intros Ha H. unfold checkMatchTree_body. munfold. rewrite Ha.
  by destruct (exactMatchNode rec currTree toFind peers st) as [[[? ?]| |] ?].
Qed.

Lemma statement_raises rec (fs : list (key * value)) st :
  root (results st) = None ->
  (rec (CheckMatchTree (VObj fs) (marker "$x") []) st).1 = TypeError ->
  (exactMatchNode rec (Ast.ExpressionStatement (VObj fs))
     (Ast.ExpressionStatement (marker "$x")) [] st).1 = TypeError.
Proof.
  intros Hroot H. unfold exactMatchNode. munfold. rewrite Hroot. simpl.
  unfold emn_key. munfold. simpl.
  by destruct (rec (CheckMatchTree (VObj fs) (marker "$x") []) st)
    as [[[? ?]| |] ?].
Qed.

Lemma single_statement_raises fuel opts (fs : list (key * value)) w :
  single opts = true -> leftToSkip w = None ->
  nullish (default VUndef (assoc "wildcardVar" fs)) = true ->
  (search (S (S fuel)) opts (Ast.ExpressionStatement (VObj fs))
     (Ast.BlockStatement [Ast.ExpressionStatement (marker "$x")]) w).1
  = TypeError.
Proof.
  intros Hs Hw Hlack. unfold search.
  change (targets (Ast.BlockStatement [Ast.ExpressionStatement (marker "$x")]))
    with (Ast.ExpressionStatement (marker "$x"), @nil value).
  rewrite Hs, orb_true_r. unfold checkMatchTree.
  assert (H : (engine true (S (S fuel))
                 (CheckMatchTree (Ast.ExpressionStatement (VObj fs))
                    (Ast.ExpressionStatement (marker "$x")) [])
                 (new_mstate w)).1 = TypeError).
  { change (engine true (S (S fuel)) ?c)
      with (match c with
            | CheckMatchTree currTree toFind peersToFind =>
                checkMatchTree_body true (engine true (S fuel)) currTree
                  toFind peersToFind
            | CheckNodeArray nodeArr toFind peersToFind =>
                checkNodeArray_body (engine true (S fuel)) nodeArr toFind
                  peersToFind
            end).
    cbv iota. apply checkMatchTree_body_raises; [done|].
    apply statement_raises; [done|].
    change (engine true (S fuel) ?c)
      with (match c with
            | CheckMatchTree currTree toFind peersToFind =>
                checkMatchTree_body true (engine true fuel) currTree
                  toFind peersToFind
            | CheckNodeArray nodeArr toFind peersToFind =>
                checkNodeArray_body (engine true fuel) nodeArr toFind
                  peersToFind
            end).
    cbv iota. apply checkMatchTree_body_raises; [done|].
    by apply marker_raises. }
  by destruct (engine _ _ _ _) as [[[? ?]| |] ?].
Qed.

(** X8: with [options.single] ([matchNode]) the matcher runs without
    [anyPossible], so [wVars.leftToSkip] is never assigned: a run that
    returns has bound no variable and left every cell as it was, and a
    comparison that reaches the marker of a variable raises a [TypeError];
    so does the whole search, for the template [$x;], on any statement
    [e;] whose expression [e] is an object. *)
Theorem X8_single_node_matching_binds_no_variable
  (fuel : nat) (opts : options) (codeTree structure : value)
  (w : wildcardVars) :
  single opts = true -> leftToSkip w = None ->
  (forall (b : bool) (st : mstate),
      search fuel opts codeTree structure w = (Return b, st) ->
      wVars st = w)
  /\ (forall (rec : call -> M answer) (currNode : value) (x : string)
             (peers : list value),
        isObject currNode = true ->
        nullish (get currNode "wildcardVar") = true ->
        (exactMatchNode rec currNode (marker x) peers (new_mstate w)).1
        = TypeError)
  /\ (forall (fs : list (key * value)) (n : nat),
        nullish (default VUndef (assoc "wildcardVar" fs)) = true ->
        (search (S (S n)) opts (Ast.ExpressionStatement (VObj fs))
           (Ast.BlockStatement [Ast.ExpressionStatement (marker "$x")]) w).1
        = TypeError).
Proof.
  intros Hs Hw. split; [|split].
  - intros b st. unfold search.
    destruct (targets structure) as [toFind peers]. rewrite Hs, orb_true_r.
    pose proof (engine_still true fuel (CheckMatchTree codeTree toFind peers)
                  (new_mstate w)) as H.
    unfold checkMatchTree.
    destruct (engine _ _ _ _) as [[[found ps]| |] st1]; try done.
    intros [= <- <-]. by apply (H (found, ps)).
  - intros rec currNode x peers Hobj Hlack. by apply marker_raises.
  - intros fs n Hlack. by apply single_statement_raises.
Qed.

Lemma X8_single_node_matching_binds_no_variable_witness :
  (search 2 {| varCallbacks := []; single := true |}
     (Ast.ExpressionStatement (VObj [(KName "type", VStr "Identifier");
                                     (KName "name", VStr "a")]))
     (Ast.BlockStatement [Ast.ExpressionStatement (marker "$x")])
     (declare_var "$x" new_wildcardVars)).1
  = TypeError.
Proof.
  apply (proj2 (proj2 (X8_single_node_matching_binds_no_variable 0
                         {| varCallbacks := []; single := true |}
                         (Ast.Identifier "a") VUndef
                         (declare_var "$x" new_wildcardVars)
                         eq_refl eq_refl))
           [(KName "type", VStr "Identifier"); (KName "name", VStr "a")] 0).
  reflexivity.
Defined.

Lemma kept_refl st : kept st st.
Proof. by repeat split. Qed.

Lemma kept_trans st1 st2 st3 : kept st1 st2 -> kept st2 st3 -> kept st1 st3.
Proof.
  intros (Hw1 & Hu1 & Hv1 & Hr1) (Hw2 & Hu2 & Hv2 & Hr2).
  repeat split; try congruence.
  intros Hs. rewrite Hr2; [by apply Hr1|]. by rewrite Hr1.
Qed.

Lemma rooted_kept t st1 st2 st3 :
  rooted t st1 st2 -> kept st2 st3 -> rooted t st1 st3.
Proof.
  intros Hr (_ & _ & _ & Hk) H1 H2 H3.
  specialize (Hr H1 H2 H3). rewrite Hk; [done|]. by rewrite Hr.
Qed.

Lemma isGlob_with_ordinary f g x :
  ordinary x = true -> isGlob_with f x = isGlob_with g x.
Proof.
  induction x as [| |b|n|s|xs IH|fs IH|y] using value_rect'; try done.
  simpl. intros [_ Hp]%andb_prop.
  destruct (glob_name _) as [[?|]|]; try done.
  induction IH as [|[k e] fs He _ IHfs]; simpl in *; [done|].
  apply andb_prop in Hp as [H1 H2].
  destruct (key_eqb k "expression"); [|by apply IHfs].
  destruct (truthy e); [by apply He|done].
Qed.

Lemma unglobbed_isGlob cells x :
  ordinary x = true -> unglobbed x = true -> isGlob cells x = Return None.
Proof.
  intros Ho Hu. unfold unglobbed in Hu. unfold isGlob in *.
  rewrite (isGlob_with_ordinary _
             (fun y => isGlob_with (fun _ => Return None)
                         (VObj (default [] ((∅ : gmap string (list (key * value))) !! y))))
             x Ho).
  by destruct (isGlob_with _ x) as [[?|]| |].
Qed.

Lemma assoc_in (ps : list (key * value)) k v :
  NoDup (map fst ps) -> (k, v) ∈ ps -> assoc k ps = Some v.
Proof.
  induction ps as [|[k0 v0] ps IH]; simpl; [by intros _ ?%elem_of_nil|].
  intros [Hk Hnd]%NoDup_cons [[= -> ->]|Hin]%elem_of_cons.
  - by destruct (key_eqb_spec k0 k0).
  - destruct (key_eqb_spec k0 k) as [->|]; [|by apply IH].
    exfalso. apply Hk. apply list_elem_of_fmap. by exists (k, v).
Qed.

Lemma indexed_NoDup (xs : list value) : NoDup (map fst (indexed xs)).
Proof.
  unfold indexed. rewrite fmap_imap.
  apply NoDup_alt. intros i j k. rewrite !list_lookup_imap.
  destruct (xs !! i), (xs !! j); simpl; congruence.
Qed.

Lemma indexed_get (xs : list value) k v :
  (k, v) ∈ indexed xs -> element xs k = v.
Proof.
  unfold indexed. intros (i & y & [= -> ->] & Hy)%elem_of_lookup_imap.
  simpl. by rewrite Hy.
Qed.

Lemma own_props_lookup t k v :
  ordinary t = true -> (k, v) ∈ own_props t ->
  assoc k (own_props t) = Some v /\ get t k = v /\ ordinary v = true.
Proof.
  destruct t as [| |b|n|s|xs|fs|x]; simpl; try (by intros _ ?%elem_of_nil).
  - intros _ Hin. split; [by apply assoc_in; [apply indexed_NoDup|]|].
    split; [by apply indexed_get|].
    apply indexed_elem in Hin. clear -Hin.
    induction s; simpl in *; [by apply elem_of_nil in Hin|].
    apply elem_of_cons in Hin as [->|?]; auto.
  - intros Ho Hin. split; [by apply assoc_in; [apply indexed_NoDup|]|].
    split; [by apply indexed_get|].
    apply indexed_elem in Hin. rewrite forallb_forall in Ho.
    apply list_elem_of_In, Ho in Hin. by apply andb_prop in Hin as [_ ?].
  - intros [Hd Hp]%andb_prop Hin. apply distinct_NoDup in Hd.
    rewrite (assoc_in fs k v Hd Hin). split; [done|]. split; [done|].
    rewrite forallb_forall in Hp. by apply list_elem_of_In, Hp in Hin.
Qed.

Lemma jstype_eqb_refl a : jstype_eqb a a = true.
Proof. by destruct a. Qed.

Lemma bool_eqb_refl b : Bool.eqb b b = true.
Proof. by destruct b. Qed.

Section self.
Variable single : bool.
Variable rec : call -> M answer.
Variable n : nat.
Hypothesis rec_self :
  forall c, self_call c -> measure c < n -> matches_itself (rec c) c.

Lemma emn_key_self t rootToSet peers k v st :
  nullish t = false ->
  assoc k (props_of st t) = Some v -> get t k = v -> ordinary v = true ->
  (isObject v = true -> height v < n) ->
  exists st', emn_key rec t t rootToSet peers k st
              = (Return (inl peers), st') /\ kept st st'.
Proof.
  intros Hn Ha Hg Ho Hh. unfold emn_key. munfold. rewrite Ha, Hn, Hg.
  destruct v as [| |b|z|s|xs|fs|x]; try done.
  - eexists. split; [reflexivity|apply kept_refl].
  - simpl. rewrite bool_eqb_refl. eexists. split; [reflexivity|apply kept_refl].
  - simpl. rewrite Z.eqb_refl. eexists. split; [reflexivity|apply kept_refl].
  - simpl. rewrite String.eqb_refl.
    eexists. split; [reflexivity|apply kept_refl].
  - simpl. destruct xs as [|x rest].
    + eexists. split; [reflexivity|apply kept_refl].
    + destruct (rec_self (CheckNodeArray (x :: rest) x rest)
                  (conj eq_refl Ho) (Hh eq_refl) st) as (st' & E & Hk & _).
      rewrite E. simpl. by eexists.
  - simpl.
    destruct (rec_self (CheckMatchTree (VObj fs) (VObj fs) peers)
                (conj eq_refl (conj Ho eq_refl)) (Hh eq_refl) st)
      as (st' & E & Hk & _).
    rewrite E. simpl. by eexists.
Qed.

Lemma keys_self t rootToSet peers : forall ks st,
  nullish t = false -> (forall st, props_of st t = own_props t) ->
  (forall k, k ∈ ks -> exists v,
      assoc k (own_props t) = Some v /\ get t k = v /\ ordinary v = true
      /\ (isObject v = true -> height v < n)) ->
  exists st', js_for (emn_key rec t t rootToSet) peers ks st
              = (Return (inl peers), st') /\ kept st st'.
Proof.
  induction ks as [|k ks IH]; intros st Hn Hp Hks.
  - rewrite js_for_nil. eexists. split; [reflexivity|apply kept_refl].
  - rewrite js_for_cons.
    destruct (Hks k) as (v & Ha & Hg & Ho & Hh); [by left|].
    rewrite <- (Hp st) in Ha.
    destruct (emn_key_self t rootToSet peers k v st Hn Ha Hg Ho Hh)
      as (st1 & -> & Hk1).
    destruct (IH st1 Hn Hp) as (st2 & E2 & Hk2).
    { intros k' Hk'. apply Hks. by right. }
    exists st2. split; [done|]. by apply (kept_trans st st1).
Qed.

Lemma exactMatchNode_self t peers :
  ordinary t = true -> nullish t = false -> height t <= n ->
  forall st, exists st',
    exactMatchNode rec t t peers st = (Return (true, peers), st')
    /\ kept st st' /\ rooted t st st'.
Proof.
  intros Ho Hn Hh st.
  assert (Hp : forall st, props_of st t = own_props t).
  { intros st0. by destruct t. }
  assert (Hks : forall k, k ∈ map fst (own_props t) -> exists v,
             assoc k (own_props t) = Some v /\ get t k = v
             /\ ordinary v = true /\ (isObject v = true -> height v < n)).
  { intros k ([k' v] & -> & Hin)%list_elem_of_fmap. simpl.
    destruct (own_props_lookup t k' v Ho Hin) as (Ha & Hg & Hv).
    exists v. repeat split; try done.
    intros Hobj. pose proof (height_own_props t k' v Hin Hobj). lia. }
  unfold exactMatchNode. munfold. rewrite Hn, Hp.
  destruct (root (results st)) as [r|] eqn:Hroot.
  - destruct (keys_self t None peers _ st Hn Hp Hks) as (st1 & -> & Hk).
    exists st1. split; [by destruct t|]. split; [done|].
    intros H. congruence.
  - set (rootToSet := if is_str (get t "type") "Program" then None
                      else Some t).
    assert (E0 : ((if is_str (get t "type") "Program"
                   then mret None else mret (Some t)) : M (option value)) st
                 = (Return rootToSet, st)).
    { subst rootToSet. by destruct (is_str _ _). }
    munfold. rewrite E0.
    destruct (keys_self t rootToSet peers _ st Hn Hp Hks) as (st1 & -> & Hk).
    assert (E1 : (match t with
                  | VUndef => push_underscore t
                  | _ => (mret tt : M unit)
                  end) st1 = (Return tt, st1)).
    { by destruct t. }
    munfold. rewrite E1. unfold set_root. subst rootToSet.
    destruct Hk as (Hw & Hu & Hv & Hr).
    destruct (is_str (get t "type") "Program") eqn:Ep.
    + exists st1. split; [done|]. split; [by repeat split|].
      intros _ H. congruence.
    + destruct (truthy t) eqn:Et.
      * munfold. simpl. eexists. split; [reflexivity|].
        split; [repeat split; simpl; try done|].
        -- intros [? H]. congruence.
        -- by intros _ _ _.
      * exists st1. split; [done|]. split; [by repeat split|].
        intros _ _ H. congruence.
Qed.

Lemma checkMatchTree_body_self t peers :
  ordinary t = true -> nullish t = false -> height t <= n ->
  matches_itself (checkMatchTree_body single rec t t peers)
    (CheckMatchTree t t peers).
Proof.
  intros Ho Hn Hh st. unfold checkMatchTree_body. munfold.
  destruct (isArray t); unfold console_error; munfold; simpl;
    match goal with
    | |- context [exactMatchNode rec t t peers ?s] =>
        destruct (exactMatchNode_self t peers Ho Hn Hh s)
          as (st2 & -> & Hk2 & Hr2)
    end;
    (exists st2; split; [done|]; split;
     [destruct Hk2 as (? & ? & ? & ?); by repeat split|];
     intros H1 H2 H3; by apply Hr2).
Qed.

Lemma scan_self : forall rest x st,
  ordinary (VArr (x :: rest)) = true -> height (VArr (x :: rest)) <= n ->
  exists st', js_for (cna_elem rec) (x, false, rest) (x :: rest) st
              = (Return (inr (true, [])), st')
    /\ kept st st' /\ rooted x st st'.
Proof.
  induction rest as [|next rest IH]; intros x st Ho Hh.
  - rewrite js_for_cons. unfold cna_elem. munfold.
    simpl in Ho. rewrite andb_true_r in Ho.
    apply andb_prop in Ho as [Hx Hox]. apply andb_prop in Hx as [Hnx Hgx].
    apply negb_true_iff in Hnx.
    rewrite (unglobbed_isGlob _ x Hox Hgx). unfold lift.
    destruct (rec_self (CheckMatchTree x x [])
                (conj eq_refl (conj Hox Hnx))) with (st := st)
      as (st1 & -> & Hk & Hr).
    { simpl. pose proof (height_elem [x] x). simpl in *.
      assert (height x <= list_max [height x]) by (simpl; lia). simpl in *. lia. }
    simpl. by eexists.
  - rewrite js_for_cons. unfold cna_elem at 1. munfold.
    assert (Ho' := Ho). simpl in Ho.
    apply andb_prop in Ho as [Hx Hrest].
    apply andb_prop in Hx as [Hx Hox]. apply andb_prop in Hx as [Hnx Hgx].
    apply negb_true_iff in Hnx.
    rewrite (unglobbed_isGlob _ x Hox Hgx). unfold lift.
    destruct (rec_self (CheckMatchTree x x (next :: rest))
                (conj eq_refl (conj Hox Hnx))) with (st := st)
      as (st1 & -> & Hk & Hr).
    { simpl in *. lia. }
    cbn -[js_for cna_elem].
    destruct (IH next st1) as (st2 & -> & Hk2 & Hr2).
    { exact Hrest. }
    { simpl in *. lia. }
    exists st2. split; [done|]. split; [by apply (kept_trans st st1)|].
    by apply (rooted_kept x st st1 st2).
Qed.

Lemma checkNodeArray_body_self x rest :
  ordinary (VArr (x :: rest)) = true -> height (VArr (x :: rest)) <= n ->
  matches_itself (checkNodeArray_body rec (x :: rest) x rest)
    (CheckNodeArray (x :: rest) x rest).
Proof.
  intros Ho Hh st. unfold checkNodeArray_body. munfold.
  destruct (scan_self rest x st Ho Hh) as (st' & -> & Hk & Hr).
  by exists st'.
Qed.
End self.

Lemma engine_self single fuel : forall c,
  self_call c -> measure c < fuel -> matches_itself (engine single fuel c) c.
Proof.
  induction fuel as [|fuel IH]; intros c Hc Hm; [lia|].
  destruct c as [t t' peers|xs x rest]; simpl in Hc, Hm.
  - destruct Hc as (-> & Ho & Hn).
    apply (checkMatchTree_body_self single (engine single fuel) fuel IH);
      [done|done|lia].
  - destruct Hc as (-> & Ho).
    apply (checkNodeArray_body_self (engine single fuel) fuel IH);
      [done|simpl in *; lia].
Qed.

Lemma first_key_differs rec (s : string) (fs : list (key * value))
  (body : list value) peers st :
  String.eqb s "Program" = false ->
  exactMatchNode rec (Ast.Program body) (Ast.node s fs) peers st
  = (Return (false, peers), st).
Proof.
  intros Hs.
  assert (Hne : strict_eq_scalar (VStr "Program") (VStr s) = false).
  { change (String.eqb "Program" s = false). by rewrite String.eqb_sym. }
  unfold exactMatchNode. munfold. cbn -[strict_eq_scalar].
  destruct (root (results st)); cbn -[strict_eq_scalar];
    unfold emn_key; munfold; cbn -[strict_eq_scalar];
    rewrite Hne; reflexivity.
Qed.

Lemma checkMatchTree_body_children rec currTree toFind peers st :
  isArray toFind = false ->
  exactMatchNode rec currTree toFind peers st = (Return (false, peers), st) ->
  checkMatchTree_body false rec currTree toFind peers st =
    (r ← js_for (cmt_child rec toFind) peers (own_props currTree);
     match r with
     | inr a => mret a
     | inl peers' => mret (false, peers')
     end) st.
Proof.
  intros Ha E. unfold checkMatchTree_body. munfold. by rewrite Ha, E.
Qed.

Lemma program_children rec body toFind peers st st' :
  rec (CheckNodeArray body toFind peers) st = (Return (true, []), st') ->
  js_for (cmt_child rec toFind) peers (own_props (Ast.Program body)) st
  = (Return (inr (true, [])), st').
Proof.
  intros H. simpl. unfold cmt_child. munfold. simpl. by rewrite H.
Qed.

Lemma program_matches_its_body fuel (s : string)
  (fs : list (key * value)) (rest : list value) st :
  let x := Ast.node s fs in
  String.eqb s "Program" = false ->
  ordinary (VArr (x :: rest)) = true ->
  height (Ast.Program (x :: rest)) < fuel ->
  root (results st) = None ->
  exists st',
    checkMatchTree false fuel (Ast.Program (x :: rest)) x rest st
    = (Return (true, []), st')
    /\ kept st st' /\ root (results st') = Some x.
Proof.
  intros x Hs Ho Hh Hroot. destruct fuel as [|fuel]; [lia|].
  unfold checkMatchTree.
  change (engine false (S fuel) ?c)
    with (match c with
          | CheckMatchTree currTree toFind peersToFind =>
              checkMatchTree_body false (engine false fuel) currTree
                toFind peersToFind
          | CheckNodeArray nodeArr toFind peersToFind =>
              checkNodeArray_body (engine false fuel) nodeArr toFind
                peersToFind
          end).
  cbv iota.
  rewrite checkMatchTree_body_children;
    [|done|by apply first_key_differs].
  destruct (engine_self false fuel (CheckNodeArray (x :: rest) x rest)
              (conj eq_refl Ho)) with (st := st) as (st' & E & Hk & Hr).
  { simpl in *. lia. }
  munfold. rewrite (program_children _ _ _ _ _ _ E).
  exists st'. split; [done|]. split; [done|].
  apply Hr; [done| |done]. subst x. cbn -[String.eqb]. done.
Qed.

Lemma json_statements type body :
  json (Ast.node type [(KName "body", VArr body)]) = json (VArr body).
Proof. simpl. by rewrite andb_true_r. Qed.

Lemma settled_statements type body :
  settled (Ast.node type [(KName "body", VArr body)]) = settled (VArr body).
Proof. simpl. by rewrite andb_true_r. Qed.

Lemma unmarked_statements type body :
  unmarked (Ast.node type [(KName "body", VArr body)]) = unmarked (VArr body).
Proof. simpl. by rewrite andb_true_r. Qed.

(** X9: matching is reflexive on everyday trees.  A node [t] that is an
    object, holds no [undefined], no [null] array element and no glob
    marker, is found by [checkMatchTree] when it is looked for in itself,
    with the peers still to find handed back untouched and nothing bound
    or recorded; and [match] finds the statements of a program in that
    program (the template being the block of the same statements), the
    root of the match being the first statement. *)
Theorem X9_a_program_matches_itself (fuel : nat) (s : string)
  (fs : list (key * value)) (rest : list value) (opts : options) :
  let body := Ast.node s fs :: rest in
  String.eqb s "Program" = false ->
  everyday body = true ->
  single opts = false ->
  height (Ast.Program body) < fuel ->
  (forall (one : bool) (t : value) (peers : list value) (st : mstate),
      ordinary t = true -> nullish t = false -> height t < fuel ->
      exists st',
        checkMatchTree one fuel t t peers st = (Return (true, peers), st')
        /\ wVars st' = wVars st
        /\ underscore (results st') = underscore (results st)
        /\ vars (results st') = vars (results st))
  /\ match_trees fuel (Ast.Program body) (Ast.BlockStatement body) opts
     = Matched {| underscore := []; vars := ∅;
                  root := Some (Ast.node s fs) |}.
Proof.
  intros body Hs He Hsingle Hh. split.
  - intros one t peers st Ho Hn Ht.
    destruct (engine_self one fuel (CheckMatchTree t t peers)
                (conj eq_refl (conj Ho Hn)) Ht st)
      as (st' & E & (Hw & Hu & Hv & _) & _).
    by exists st'.
  - unfold everyday in He.
    apply andb_prop in He as [He Ho]. apply andb_prop in He as [He Hu].
    apply andb_prop in He as [Hj Hf].
    rewrite match_trees_unfold.
    rewrite (json_fixed (Ast.BlockStatement body))
      by (unfold Ast.BlockStatement; by rewrite json_statements).
    rewrite (foldConstants_settled (Ast.BlockStatement body))
      by (unfold Ast.BlockStatement; by rewrite settled_statements).
    rewrite (simplifyTree_unmarked (Ast.BlockStatement body))
      by (unfold Ast.BlockStatement; by rewrite unmarked_statements).
    rewrite (json_fixed (Ast.Program body))
      by (unfold Ast.Program; by rewrite json_statements).
    rewrite (foldConstants_settled (Ast.Program body))
      by (unfold Ast.Program; by rewrite settled_statements).
    cbn [nullish Ast.BlockStatement Ast.node]. unfold search.
    rewrite Hsingle. cbn [order new_wildcardVars length Nat.eqb orb].
    replace (targets (Ast.BlockStatement body)) with (Ast.node s fs, rest)
      by reflexivity.
    destruct (program_matches_its_body fuel s fs rest
                (new_mstate new_wildcardVars) Hs Ho Hh eq_refl)
      as (st' & E & (Hw & Hun & Hv & _) & Hr).
    unfold body. cbv zeta in E. rewrite E.
    f_equal. destruct st' as [w [u v r] c f]. simpl in *. by subst.
Qed.

Lemma X9_a_program_matches_itself_witness :
  match_trees 9 (Ast.Program [Ast.stmt "a"; Ast.stmt "b"])
    (Ast.BlockStatement [Ast.stmt "a"; Ast.stmt "b"]) no_options
  = Matched {| underscore := []; vars := ∅; root := Some (Ast.stmt "a") |}.
Proof.
  apply (proj2 (X9_a_program_matches_itself 9 "ExpressionStatement"
                  [(KName "expression", Ast.Identifier "a")]
                  [Ast.stmt "b"] no_options
                  eq_refl eq_refl eq_refl ltac:(vm_compute; lia))).
Defined.

(** ** A peer taken inside a block is not given back *)

Lemma type_differs rec (t s : string) (fs1 fs : list (key * value)) peers st :
  String.eqb s t = false ->
  exactMatchNode rec (Ast.node t fs1) (Ast.node s fs) peers st
  = (Return (false, peers), st).
Proof.
  intros Hs.
  assert (Hne : strict_eq_scalar (VStr t) (VStr s) = false).
  { change (String.eqb t s = false). by rewrite String.eqb_sym. }
  unfold exactMatchNode. munfold. cbn -[strict_eq_scalar String.eqb].
  destruct (root (results st)); [|destruct (is_str _ "Program")];
    cbn -[strict_eq_scalar];
    unfold emn_key; munfold; cbn -[strict_eq_scalar];
    rewrite Hne; reflexivity.
Qed.

Lemma body_children rec t body toFind peers st :
  js_for (cmt_child rec toFind) peers
    (own_props (Ast.node t [(KName "body", VArr body)])) st
  = match rec (CheckNodeArray body toFind peers) st with
    | (Return (true, ps), st') => (Return (inr (true, ps)), st')
    | (Return (false, ps), st') => (Return (inl ps), st')
    | (TypeError, st') => (TypeError, st')
    | (OutOfFuel, st') => (OutOfFuel, st')
    end.
Proof.
  simpl. unfold cmt_child. munfold. simpl.
  by destruct (rec _ st) as [[[[] ?]| |] ?].
Qed.

Lemma engine_step single fuel c :
  engine single (S fuel) c =
    match c with
    | CheckMatchTree currTree toFind peersToFind =>
        checkMatchTree_body single (engine single fuel) currTree
          toFind peersToFind
    | CheckNodeArray nodeArr toFind peersToFind =>
        checkNodeArray_body (engine single fuel) nodeArr toFind
          peersToFind
    end.
Proof. reflexivity. Qed.

(** In a body that is the one statement [x] the search for [x] with the
    peer [y] finds [x], takes [y] off the peers and fails for want of a
    second statement. *)
Lemma body_takes_the_peer fuel (t s : string) (fs : list (key * value))
  (y : value) st :
  let x := Ast.node s fs in
  String.eqb s t = false ->
  String.eqb s "Program" = false ->
  ordinary (VArr [x; y]) = true ->
  height x < fuel ->
  root (results st) = None ->
  exists st',
    checkMatchTree false (S (S fuel))
      (Ast.node t [(KName "body", VArr [x])]) x [y] st
    = (Return (false, []), st')
    /\ kept st st' /\ root (results st') = Some x.
Proof.
  intros x Hb Hp Ho Hh Hroot. unfold checkMatchTree.
  rewrite engine_step.
  rewrite checkMatchTree_body_children; [|done|by apply type_differs].
  munfold. rewrite body_children. rewrite engine_step.
  unfold checkNodeArray_body. munfold. rewrite js_for_cons.
  unfold cna_elem at 1. munfold.
  cbn [ordinary forallb] in Ho. rewrite andb_true_r in Ho.
  apply andb_prop in Ho as [Hx Hy].
  apply andb_prop in Hx as [Hx Hox]. apply andb_prop in Hx as [Hnx Hgx].
  apply andb_prop in Hy as [Hy Hoy]. apply andb_prop in Hy as [Hny Hgy].
  fold ordinary in Hox, Hoy.
  rewrite (unglobbed_isGlob _ x Hox Hgx). unfold lift.
  destruct (engine_self false fuel (CheckMatchTree x x [y])
              (conj eq_refl (conj Hox eq_refl)) Hh st)
    as (st1 & -> & Hk & Hr).
  cbn [self_answer]. cbv iota beta. rewrite js_for_nil.
  rewrite (unglobbed_isGlob _ y Hoy Hgy).
  exists st1. split; [done|]. split; [done|].
  apply Hr; [done| |done]. subst x. cbn -[String.eqb]. done.
Qed.

(** The program [{ x } x] against the statements [x; y]. *)
Lemma peer_is_lost fuel (s : string) (fs : list (key * value))
  (y : value) st :
  let x := Ast.node s fs in
  String.eqb s "BlockStatement" = false ->
  String.eqb s "Program" = false ->
  ordinary (VArr [x; y]) = true ->
  height x < fuel ->
  root (results st) = None ->
  exists st',
    checkMatchTree false (S (S (S (S fuel))))
      (Ast.Program [Ast.BlockStatement [x]; x]) x [y] st
    = (Return (true, []), st')
    /\ kept st st' /\ root (results st') = Some x.
Proof.
  intros x Hb Hp Ho Hh Hroot. unfold checkMatchTree.
  rewrite engine_step.
  rewrite checkMatchTree_body_children; [|done|by apply type_differs].
  destruct (body_takes_the_peer fuel "BlockStatement" s fs y st
              Hb Hp Ho Hh Hroot)
    as (st1 & E1 & Hk1 & Hr1).
  fold x in E1, Hr1. unfold checkMatchTree in E1.
  assert (ordinary x = true /\ unglobbed x = true) as [Hox Hgx].
  { cbn [ordinary forallb] in Ho.
    apply andb_prop in Ho as [Hx _].
    apply andb_prop in Hx as [Hx Hox]. apply andb_prop in Hx as [_ Hgx].
    done. }
  assert (Hm : measure (CheckMatchTree x x []) < S (S fuel))
    by (simpl in *; lia).
  destruct (engine_self false (S (S fuel)) (CheckMatchTree x x [])
              (conj eq_refl (conj Hox eq_refl)) Hm st1)
    as (st2 & E2 & Hk2 & _).
  munfold.
  erewrite program_children.
  - exists st2. split; [done|]. split; [by eapply kept_trans|].
    destruct Hk2 as (_ & _ & _ & Hk2). rewrite Hk2; [done|]. by rewrite Hr1.
  - rewrite engine_step. unfold checkNodeArray_body. munfold.
    rewrite js_for_cons. unfold cna_elem at 1. munfold.
    rewrite (unglobbed_isGlob _ x Hox Hgx). unfold lift.
    unfold Ast.BlockStatement. rewrite E1. rewrite js_for_cons. unfold cna_elem at 1. munfold.
    rewrite (unglobbed_isGlob _ x Hox Hgx). unfold lift.
    by rewrite E2.
Qed.


Lemma everyday_pair x y :
  everyday [x; y] = true ->
  (json x = true /\ json y = true)
  /\ (node_settled x = true /\ settled x = true
      /\ node_settled y = true /\ settled y = true)
  /\ unmarked (VArr [x; y]) = true /\ ordinary (VArr [x; y]) = true.
Proof.
  unfold everyday. intros He.
  apply andb_prop in He as [He Ho]. apply andb_prop in He as [He Hu].
  apply andb_prop in He as [Hj Hf].
  cbn [json forallb] in Hj. cbn [settled forallb] in Hf.
  rewrite andb_true_r in Hj, Hf.
  apply andb_prop in Hj as [Hjx Hjy]. apply andb_prop in Hf as [Hfx Hfy].
  apply andb_prop in Hfx as [? ?]. apply andb_prop in Hfy as [? ?].
  done.
Qed.

Lemma match_trees_everyday fuel program (x : value) (rest : list value)
  opts :
  json program = true -> settled program = true ->
  everyday (x :: rest) = true -> single opts = false ->
  match_trees fuel program (Ast.BlockStatement (x :: rest)) opts
  = match checkMatchTree false fuel program x rest
            (new_mstate new_wildcardVars) with
    | (Return (true, _), st) => Matched (results st)
    | (Return (false, _), _) => NoMatch
    | (TypeError, _) => Thrown ETypeError
    | (OutOfFuel, _) => Diverged
    end.
Proof.
  intros Hjp Hfp He Hsingle. unfold everyday in He.
  apply andb_prop in He as [He Ho]. apply andb_prop in He as [He Hu].
  apply andb_prop in He as [Hj Hf].
  rewrite match_trees_unfold.
  rewrite (json_fixed (Ast.BlockStatement (x :: rest)))
    by (unfold Ast.BlockStatement; by rewrite json_statements).
  rewrite (foldConstants_settled (Ast.BlockStatement (x :: rest)))
    by (unfold Ast.BlockStatement; by rewrite settled_statements).
  rewrite (simplifyTree_unmarked (Ast.BlockStatement (x :: rest)))
    by (unfold Ast.BlockStatement; by rewrite unmarked_statements).
  rewrite (json_fixed program Hjp), (foldConstants_settled program Hfp).
  cbn [nullish Ast.BlockStatement Ast.node]. unfold search.
  rewrite Hsingle. cbn [order new_wildcardVars length Nat.eqb orb].
  replace (targets (Ast.BlockStatement (x :: rest)))
    with (x, rest) by reflexivity.
  by destruct (checkMatchTree _ _ _ _ _ _) as [[[[] ?]| |] ?].
Qed.

(** X10: the peers still to find are one array, shared by every level of
    the search, and [checkNodeArray] takes the next peer off it when it
    finds a statement.  So the statements [x; y] are not found in the
    program [x], yet they are reported found in the program [{ x } x],
    whatever the statement [y] is: the search inside the block takes [y]
    off the peers and fails, and the second [x] is then looked for with no
    peer left. *)
Theorem X10_a_peer_taken_inside_a_block_is_lost (fuel : nat) (s : string)
  (fs : list (key * value)) (y : value) (opts : options) :
  let x := Ast.node s fs in
  String.eqb s "BlockStatement" = false ->
  String.eqb s "Program" = false ->
  everyday [x; y] = true ->
  single opts = false ->
  height x + 4 < fuel ->
  match_trees fuel (Ast.Program [x]) (Ast.BlockStatement [x; y]) opts
  = NoMatch
  /\ match_trees fuel (Ast.Program [Ast.BlockStatement [x]; x])
       (Ast.BlockStatement [x; y]) opts
     = Matched {| underscore := []; vars := ∅; root := Some x |}.
Proof.
  intros x Hb Hp He Hsingle Hh.
  destruct (everyday_pair x y He)
    as ((Hjx & Hjy) & (Hnx & Hfx & Hny & Hfy) & Hu & Ho).
  destruct fuel as [|[|[|[|fuel]]]]; try lia.
  assert (Hx : height x < S (S fuel)) by lia.
  assert (Hx' : height x < fuel) by lia.
  split.
  - rewrite match_trees_everyday; try done.
    + destruct (body_takes_the_peer (S (S fuel)) "Program" s fs y
                  (new_mstate new_wildcardVars) Hp Hp Ho Hx eq_refl)
        as (st' & E & _).
      unfold Ast.Program. cbv zeta in E. fold x in E. by rewrite E.
    + unfold Ast.Program. rewrite json_statements.
      cbn [json forallb]. fold json. by rewrite Hjx.
    + unfold Ast.Program. rewrite settled_statements.
      cbn [settled forallb]. fold settled. by rewrite Hnx, Hfx.
  - rewrite match_trees_everyday; try done.
    + destruct (peer_is_lost fuel s fs y (new_mstate new_wildcardVars)
                  Hb Hp Ho Hx' eq_refl)
        as (st' & E & (Hw & Hun & Hv & _) & Hr).
      cbv zeta in E. fold x in E. rewrite E.
      f_equal. destruct st' as [w [u v r] c f]. simpl in *. by subst.
    + clearbody x. simpl. by rewrite Hjx.
    + clearbody x. simpl. by rewrite Hnx, Hfx.
Qed.

Lemma X10_a_peer_taken_inside_a_block_is_lost_witness :
  match_trees 9 (Ast.Program [Ast.stmt "a"])
    (Ast.BlockStatement [Ast.stmt "a"; Ast.stmt "b"]) no_options
  = NoMatch
  /\ match_trees 9 (Ast.Program [Ast.BlockStatement [Ast.stmt "a"];
                                 Ast.stmt "a"])
       (Ast.BlockStatement [Ast.stmt "a"; Ast.stmt "b"]) no_options
     = Matched {| underscore := []; vars := ∅; root := Some (Ast.stmt "a") |}.
Proof.
  apply (X10_a_peer_taken_inside_a_block_is_lost 9 "ExpressionStatement"
           [(KName "expression", Ast.Identifier "a")] (Ast.stmt "b")
           no_options eq_refl eq_refl eq_refl eq_refl).
  vm_compute. lia.
Defined.

(** ** A cached program tree is not read again from the caller *)

Section stale.
Variable esprima_parse : string -> option value.

Lemma parseStructure_reads_its_cache m m' structure :
  structureCache m' = structureCache m ->
  (parseStructure esprima_parse m' structure).1
  = (parseStructure esprima_parse m structure).1
  /\ structureCache (parseStructure esprima_parse m' structure).2
     = structureCache (parseStructure esprima_parse m structure).2.
Proof.
  intros Hc. unfold parseStructure. destruct structure as [s|v]; [|done].
  rewrite Hc. destruct (structureCache m !! s); [done|].
  destruct (esprima_parse _) as [fullTree|]; [|done].
  destruct (match get_of fullTree "body" with Some _ => _ | None => _ end)
    as [expression|]; [|done].
  destruct (nullish expression); [done|].
  by destruct (_ || _).
Qed.

Lemma parseStructureWithVars_reads_its_cache m m' structure w :
  structureCache m' = structureCache m ->
  (parseStructureWithVars esprima_parse m' structure w).1
  = (parseStructureWithVars esprima_parse m structure w).1
  /\ structureCache (parseStructureWithVars esprima_parse m' structure w).2
     = structureCache (parseStructureWithVars esprima_parse m structure w).2.
Proof.
  intros Hc. unfold parseStructureWithVars.
  destruct (parseStructure_reads_its_cache m m' structure Hc) as [H1 H2].
  destruct (parseStructure esprima_parse m' structure) as [x' m1'].
  destruct (parseStructure esprima_parse m structure) as [x m1].
  simpl in H1, H2. subst x'.
  destruct x as [e|tree]; [done|].
  by destruct (foldConstants tree) as [[] ?].
Qed.

(** On a cache hit the result is read off the cached location alone. *)
Lemma match_reads_its_cache fuel m m' c l structure opts :
  structureCache m' = structureCache m ->
  cachedCode m = Some c -> cachedCode m' = Some c ->
  cachedCodeTree m = Some l -> cachedCodeTree m' = Some l ->
  heap m' !! l = heap m !! l ->
  (match_ esprima_parse fuel m' c structure opts).1
  = (match_ esprima_parse fuel m c structure opts).1.
Proof.
  intros Hs Hc Hc' Ht Ht' Hl. unfold match_.
  destruct (parseStructureWithVars_reads_its_cache m m' structure
              new_wildcardVars Hs) as [H1 _].
  pose proof (parseStructureWithVars_frame esprima_parse m structure
                new_wildcardVars) as (Hh & Hct & Hcc).
  pose proof (parseStructureWithVars_frame esprima_parse m' structure
                new_wildcardVars) as (Hh' & Hct' & Hcc').
  destruct (parseStructureWithVars esprima_parse m' structure
              new_wildcardVars) as [x' m1'].
  destruct (parseStructureWithVars esprima_parse m structure
              new_wildcardVars) as [x m1].
  simpl in *. subst x'. destruct x as [e|[structure' w]]; [done|].
  unfold obtain_codeTree.
  rewrite Hcc, Hcc', Hc, Hc', code_eqb_refl, Hct, Hct', Ht, Ht'. simpl.
  rewrite Hh, Hh', Hl.
  destruct (foldConstants (default VUndef (heap m !! l))) as [[] codeTree];
    [|done].
  destruct (nullish structure'); [done|].
  by destruct (search fuel opts codeTree structure' w) as [[[]| |] ?].
Qed.

(** A call that returned has cached the program it was given. *)
Lemma match_caches fuel m c structure opts :
  returned (match_ esprima_parse fuel m c structure opts).1 ->
  cachedCode (match_ esprima_parse fuel m c structure opts).2 = Some c
  /\ is_Some (cachedCodeTree (match_ esprima_parse fuel m c structure opts).2).
Proof.
  unfold match_.
  destruct (parseStructureWithVars esprima_parse m structure
              new_wildcardVars) as [[e|[structure' w]] m1]; [done|].
  destruct (obtain_codeTree esprima_parse m1 c) as [[l h]|]; [|done].
  destruct (foldConstants (default VUndef (h !! l))) as [[] codeTree];
    [|done].
  destruct (nullish structure'); [done|].
  by destruct (search fuel opts codeTree structure' w) as [[[]| |] ?].
Qed.
End stale.

(** X14: [match] recognises a program object by reference and then works
    on the tree it cached at the first call.  So once a call on the
    caller's object [o] has returned, what the caller assigns to [o]
    afterwards is not seen: every later call on [o] gives the result it
    would have given without the assignment, and (the parser building
    plain trees) the same template still gives the first result. *)
Theorem X14_a_changed_object_is_matched_as_it_was
  (esprima_parse : string -> option value) (fuel : nat) (m : module)
  (o : loc) (structure : rawStructure) (opts : options) :
  cachedCodeTree m <> Some o ->
  is_Some (heap m !! o) ->
  let first := match_ esprima_parse fuel m (CodeObj o) structure opts in
  returned first.1 ->
  forall t' : value,
    (forall structure' opts',
        (match_ esprima_parse fuel (write o t' first.2) (CodeObj o)
           structure' opts').1
        = (match_ esprima_parse fuel first.2 (CodeObj o) structure' opts').1)
    /\ ((forall s t, esprima_parse s = Some t -> plain t) ->
        (match_ esprima_parse fuel (write o t' first.2) (CodeObj o)
           structure opts).1 = first.1).
Proof.
  intros Hc Ho first Hr t'.
  destruct (match_frame esprima_parse fuel m (CodeObj o) structure opts o
              Hc Ho) as [_ Hne].
  destruct (match_caches esprima_parse fuel m (CodeObj o) structure opts Hr)
    as [Hcode [l Hl]].
  fold first in Hne, Hcode, Hl.
  assert (Hlo : l <> o) by congruence.
  assert (Hsame : forall structure' opts',
             (match_ esprima_parse fuel (write o t' first.2) (CodeObj o)
                structure' opts').1
             = (match_ esprima_parse fuel first.2 (CodeObj o) structure'
                  opts').1).
  { intros structure' opts'.
    apply (match_reads_its_cache esprima_parse fuel first.2
             (write o t' first.2) (CodeObj o) l); try done.
    simpl. by rewrite lookup_insert_ne. }
  split; [exact Hsame|].
  intros Hp. rewrite Hsame. by apply match_twice.
Qed.

Lemma X14_a_changed_object_is_matched_as_it_was_witness :
  let first := match_ no_parser 5
                 (initial_module {[ 0%nat := Ast.Program [Ast.stmt "a"] ]})
                 (CodeObj 0)
                 (StructureObj (Ast.BlockStatement [Ast.stmt "a"]))
                 no_options in
  (match_ no_parser 5 (write 0 (Ast.Program [Ast.stmt "b"]) first.2)
     (CodeObj 0) (StructureObj (Ast.BlockStatement [Ast.stmt "a"]))
     no_options).1
  = first.1.
Proof.
  intros first.
  refine (proj2 (X14_a_changed_object_is_matched_as_it_was no_parser 5
                   (initial_module {[ 0%nat := Ast.Program [Ast.stmt "a"] ]})
                   0%nat (StructureObj (Ast.BlockStatement [Ast.stmt "a"]))
                   no_options _ _ _ (Ast.Program [Ast.stmt "b"])) _).
  - discriminate.
  - simpl. rewrite lookup_singleton_eq. by eexists.
  - vm_compute. exact I.
  - intros s t. discriminate.
Defined.

(** ** The results are never reset *)

Lemma trail_refl st : trail st st.
Proof. by repeat split. Qed.

Lemma trail_trans st1 st2 st3 : trail st1 st2 -> trail st2 st3 -> trail st1 st3.
Proof.
  intros (Hr1 & Hu1 & Hv1) (Hr2 & Hu2 & Hv2). split; [|split].
  - intros Hs. rewrite Hr2; [by apply Hr1|]. by rewrite Hr1.
  - lia.
  - set_solver.
Qed.

Lemma lasting_adds {A} st0 (m : M A) : adds m -> lasting st0 m.
Proof. intros Hm st a st' Ht E. eapply trail_trans; [done|by eapply Hm]. Qed.

Lemma adds_lasting {A} (m : M A) : (forall st0, lasting st0 m) -> adds m.
Proof. intros Hm st a st' E. by apply (Hm st st a st' (trail_refl st)). Qed.

Lemma lasting_ret {A} st0 (a : A) : lasting st0 (mret a).
Proof. intros st a' st' Ht E. munfold. by injection E as _ <-. Qed.

Lemma lasting_throw {A} st0 : lasting st0 (@throw A).
Proof. by intros st a st' Ht E. Qed.

Lemma lasting_out_of_fuel {A} st0 : lasting st0 (@out_of_fuel A).
Proof. by intros st a st' Ht E. Qed.

Lemma lasting_lift {A} st0 (o : outcome A) : lasting st0 (lift o).
Proof. intros st a st' Ht E. unfold lift in E. by injection E as _ <-. Qed.

Lemma lasting_bind {A B} st0 (m : M A) (f : A -> M B) :
  lasting st0 m -> (forall a, lasting st0 (f a)) -> lasting st0 (m ≫= f).
Proof.
  intros Hm Hf st b st' Ht E. munfold.
  destruct (m st) as [[a| |] st1] eqn:Em; try discriminate.
  exact (Hf a _ _ _ (Hm _ _ _ Ht Em) E).
Qed.

Lemma lasting_get {B} st0 (f : mstate -> M B) :
  (forall st, trail st0 st -> lasting st0 (f st)) ->
  lasting st0 (get_state ≫= f).
Proof. intros Hf st b st' Ht E. munfold. exact (Hf st Ht _ _ _ Ht E). Qed.

Lemma lasting_js_for {S A R} st0 (body : S -> A -> M (S + R)) (xs : list A) :
  (forall s x, lasting st0 (body s x)) ->
  forall s, lasting st0 (js_for body s xs).
Proof.
  intros Hb. induction xs as [|x xs IH]; intros s; simpl.
  - apply lasting_ret.
  - apply lasting_bind; [apply Hb|].
    intros [s'|r]; [apply IH|apply lasting_ret].
Qed.

Lemma lasting_map_M {A B} st0 (f : A -> M B) (xs : list A) :
  (forall x, lasting st0 (f x)) -> lasting st0 (map_M f xs).
Proof.
  intros Hf. induction xs as [|x xs IH]; simpl; [apply lasting_ret|].
  apply lasting_bind; [apply Hf|]. intros y.
  apply lasting_bind; [apply IH|]. intros ys. apply lasting_ret.
Qed.

(** The writes to the state. *)
Ltac adds_done :=
  let st := fresh "st" in let a := fresh "a" in let st' := fresh "st'" in
  let E := fresh "E" in
  intros st a st' E; munfold; simpl in E;
  repeat match type of E with
         | context [if ?b then _ else _] => destruct b
         | context [match ?x with _ => _ end] => destruct x
         end;
  simplify_eq; by repeat split.

Lemma adds_get_state : adds get_state.
Proof. adds_done. Qed.
Lemma adds_put_wVars w : adds (put_wVars w).
Proof. adds_done. Qed.
Lemma adds_console_error v : adds (console_error v).
Proof. adds_done. Qed.
Lemma adds_put_failure f : adds (put_failure f).
Proof. adds_done. Qed.

Lemma adds_push_underscore v : adds (push_underscore v).
Proof.
  intros st a st' E. unfold push_underscore in E. munfold.
  injection E as _ <-. repeat split; simpl; try done.
  rewrite length_app. lia.
Qed.

Lemma adds_set_var k v : adds (set_var k v).
Proof.
  intros st a st' E. unfold set_var in E. munfold.
  injection E as _ <-. repeat split; simpl; try done.
  rewrite dom_insert. set_solver.
Qed.

Lemma push_into_last_length x l : length (push_into_last x l) = length l.
Proof.
  induction l as [|v l IH]; [done|].
  destruct v, l; simpl in *; try done; by rewrite IH.
Qed.

Lemma adds_record_glob globName v : adds (record_glob globName v).
Proof.
  intros st a st' E. unfold record_glob in E. munfold.
  destruct (String.eqb globName "_"); injection E as _ <-;
    repeat split; simpl; try done.
  - rewrite length_app. lia.
  - rewrite dom_insert. set_solver.
Qed.

Lemma adds_glob_push globName x : adds (glob_push globName x).
Proof.
  intros st a st' E. unfold glob_push in E. munfold.
  destruct (String.eqb globName "_").
  - injection E as _ <-. repeat split; simpl; try done.
    by rewrite push_into_last_length.
  - destruct (vars (results st) !! globName) as [[]|];
      injection E as _ <-; try apply trail_refl.
    repeat split; simpl; try done. rewrite dom_insert. set_solver.
Qed.

Lemma lasting_set_root st0 rootToSet :
  rootToSet = None \/ root (results st0) = None ->
  lasting st0 (set_root rootToSet).
Proof.
  intros H st a st' Ht E. unfold set_root in E. munfold.
  destruct rootToSet as [v|]; [|by injection E as _ <-].
  destruct H as [|H0]; [done|].
  destruct (truthy v); injection E as _ <-; [|done].
  destruct Ht as (Hr & Hu & Hv). split; [|done].
  rewrite H0. by intros [? ?].
Qed.

Ltac adds_solve :=
  first [ apply adds_get_state | apply adds_put_wVars
        | apply adds_console_error | apply adds_put_failure
        | apply adds_push_underscore | apply adds_set_var
        | apply adds_record_glob | apply adds_glob_push ].

Ltac lasting_walk tac :=
  repeat match goal with
  | |- lasting _ (mret _) => apply lasting_ret
  | |- lasting _ throw => apply lasting_throw
  | |- lasting _ (lift _) => apply lasting_lift
  | |- lasting _ (match ?x with _ => _ end) => destruct x
  | |- lasting _ (_ ≫= _) => apply lasting_bind; [|intros ?]
  | |- lasting _ _ => first [apply lasting_adds; by adds_solve | tac]
  end.

Lemma lasting_bind_wildcardVar st0 currNode subFind rootToSet :
  rootToSet = None \/ root (results st0) = None ->
  lasting st0 (bind_wildcardVar currNode subFind rootToSet).
Proof.
  intros H. unfold bind_wildcardVar.
  lasting_walk ltac:(by apply lasting_set_root).
Qed.

Section lasting.
Variable single : bool.
Variable rec : call -> M answer.
Hypothesis rec_lasting : forall st0 c, lasting st0 (rec c).

Lemma emn_key_lasting st0 currNode toFind rootToSet peers key :
  rootToSet = None \/ root (results st0) = None ->
  lasting st0 (emn_key rec currNode toFind rootToSet peers key).
Proof.
  intros H. unfold emn_key.
  lasting_walk ltac:(first [apply rec_lasting
                           | by apply lasting_bind_wildcardVar]).
Qed.

Lemma exactMatchNode_lasting st0 currNode toFind peers :
  lasting st0 (exactMatchNode rec currNode toFind peers).
Proof.
  unfold exactMatchNode. apply lasting_get. intros st Ht.
  assert (Hroot : forall rootToSet : option value,
            match root (results st) with
            | Some _ => rootToSet = None
            | None => True
            end ->
            rootToSet = None \/ root (results st0) = None).
  { intros rootToSet H. destruct Ht as (Hr & _).
    destruct (root (results st0)) as [r|] eqn:E0; [|by right].
    rewrite Hr in H by done. by left. }
  assert (Hrest : forall rootToSet : option value,
            rootToSet = None \/ root (results st0) = None ->
            lasting st0
              (r ← js_for (emn_key rec currNode toFind rootToSet) peers
                     (map fst (props_of st toFind));
               match r with
               | inr a => mret a
               | inl peers0 =>
                   (match toFind with
                    | VUndef => push_underscore currNode
                    | _ => mret tt
                    end);;
                   set_root rootToSet;;
                   mret (true, peers0)
               end)).
  { intros rootToSet H.
    lasting_walk ltac:(first [ by apply lasting_set_root
                             | apply lasting_js_for; intros;
                               by apply emn_key_lasting ]). }
  destruct (root (results st)) as [r|].
  - intros st1 a st' Ht1 E. munfold.
    apply (Hrest None (or_introl eq_refl) st1 a st' Ht1). munfold. exact E.
  - destruct (nullish currNode); [by intros ? ? ? ? ?|].
    destruct (is_str _ "Program").
    + intros st1 a st' Ht1 E. munfold.
      apply (Hrest None (or_introl eq_refl) st1 a st' Ht1). munfold. exact E.
    + intros st1 a st' Ht1 E. munfold.
      apply (Hrest (Some currNode) (Hroot _ I) st1 a st' Ht1).
      munfold. exact E.
Qed.

Lemma cmt_child_lasting st0 toFind peers kv :
  lasting st0 (cmt_child rec toFind peers kv).
Proof. unfold cmt_child. lasting_walk ltac:(apply rec_lasting). Qed.

Lemma checkMatchTree_body_lasting st0 currTree toFind peers :
  lasting st0 (checkMatchTree_body single rec currTree toFind peers).
Proof.
  unfold checkMatchTree_body.
  lasting_walk ltac:(first [ apply exactMatchNode_lasting
                           | apply lasting_js_for; intros;
                             apply cmt_child_lasting ]).
Qed.

Lemma cna_elem_lasting st0 s x : lasting st0 (cna_elem rec s x).
Proof.
  destruct s as [[toFind curGlob] peers]. unfold cna_elem.
  lasting_walk ltac:(apply rec_lasting).
Qed.

Lemma checkNodeArray_body_lasting st0 nodeArr toFind peers :
  lasting st0 (checkNodeArray_body rec nodeArr toFind peers).
Proof.
  unfold checkNodeArray_body.
  lasting_walk ltac:(apply lasting_js_for; intros; apply cna_elem_lasting).
Qed.
End lasting.

Lemma engine_lasting single fuel : forall st0 c,
  lasting st0 (engine single fuel c).
Proof.
  induction fuel as [|fuel IH]; intros st0 c; simpl.
  - apply lasting_out_of_fuel.
  - destruct c.
    + by apply checkMatchTree_body_lasting.
    + by apply checkNodeArray_body_lasting.
Qed.

Lemma checkUserVarCallbacks_lasting st0 cbs :
  lasting st0 (checkUserVarCallbacks cbs).
Proof.
  unfold checkUserVarCallbacks.
  lasting_walk ltac:(apply lasting_js_for; intros [] [k f];
                     unfold check_callback).
  all: lasting_walk ltac:(apply lasting_map_M; intros; unfold callback_arg).
  all: lasting_walk idtac.
Qed.

Section lasting_search.
Variable depth : nat.
Variables codeTree toFind : value.
Variable peers : list value.
Variable varCallbacks : list (string * callback).
Variable single : bool.

Lemma try_assignment_lasting st0 :
  lasting st0 (try_assignment depth codeTree toFind peers varCallbacks single).
Proof.
  unfold try_assignment, checkMatchTree.
  lasting_walk ltac:(first [ apply engine_lasting
                           | apply checkUserVarCallbacks_lasting ]).
Qed.

Lemma anyPossible_loop_lasting st0 fuel : forall i,
  lasting st0
    (anyPossible_loop depth codeTree toFind peers varCallbacks single fuel i).
Proof.
  induction fuel as [|fuel IH]; intros i; simpl.
  - apply lasting_out_of_fuel.
  - unfold reset_later, set_skip.
    lasting_walk ltac:(first [ apply try_assignment_lasting | apply IH ]).
Qed.

Lemma anyPossible_lasting st0 fuel i :
  lasting st0
    (anyPossible depth codeTree toFind peers varCallbacks single fuel i).
Proof.
  unfold anyPossible, set_skip.
  lasting_walk ltac:(apply anyPossible_loop_lasting).
Qed.
End lasting_search.

(** X15: [matchResults] is one object for the whole search and nothing
    resets it.  Across any call of the matcher, and across the whole
    backtracking search with its callbacks, a [root] that is set stays as
    it is, [_] never gets shorter and [vars] loses no name; so what a
    comparison wrote before it failed is part of the answer.  The template
    [_ + c + 2] is found in the second statement of
    [a + c + 1; b + c + 2], and the answer has the [a] of the first
    statement in [_] and the [a + c] of the first statement as [root]. *)
Theorem X15_results_are_never_reset :
  (forall (single : bool) (fuel : nat) (c : call) (st st' : mstate)
          (a : answer),
      engine single fuel c st = (Return a, st') -> trail st st')
  /\ (forall (depth : nat) (codeTree toFind : value) (peers : list value)
             (cbs : list (string * callback)) (single : bool)
             (fuel i : nat) (st st' : mstate) (b : bool),
        anyPossible depth codeTree toFind peers cbs single fuel i st
        = (Return b, st') ->
        trail st st')
  /\ (forall (a b : string) (fuel : nat) (opts : options),
        single opts = false -> 8 <= fuel ->
        let sum x n :=
          Ast.ExpressionStatement
            (Ast.BinaryExpression "+"
               (Ast.BinaryExpression "+" (Ast.Identifier x)
                  (Ast.Identifier "c"))
               (Ast.Literal n "")) in
        match_trees fuel (Ast.Program [sum a 1%Z; sum b 2%Z])
          (Ast.BlockStatement [sum "_" 2%Z]) opts
        = Matched
            {| underscore := [Ast.Identifier a; Ast.Identifier b];
               vars := ∅;
               root := Some (Ast.BinaryExpression "+" (Ast.Identifier a)
                               (Ast.Identifier "c")) |}).
Proof.
  split; [|split].
  - intros single fuel c st st' a E.
    exact (engine_lasting single fuel st c st a st' (trail_refl st) E).
  - intros depth codeTree toFind peers cbs single fuel i st st' b E.
    exact (anyPossible_lasting depth codeTree toFind peers cbs single st
             fuel i st b st' (trail_refl st) E).
  - intros a b fuel [cbs single] Hs Hf sum. simpl in Hs. subst single.
    do 8 (destruct fuel as [|fuel]; [lia|]).
    vm_compute. reflexivity.
Qed.

Lemma X15_results_are_never_reset_witness :
  match_trees 8
    (Ast.Program
       [Ast.ExpressionStatement
          (Ast.BinaryExpression "+"
             (Ast.BinaryExpression "+" (Ast.Identifier "a")
                (Ast.Identifier "c"))
             (Ast.Literal 1 ""));
        Ast.ExpressionStatement
          (Ast.BinaryExpression "+"
             (Ast.BinaryExpression "+" (Ast.Identifier "b")
                (Ast.Identifier "c"))
             (Ast.Literal 2 ""))])
    (Ast.BlockStatement
       [Ast.ExpressionStatement
          (Ast.BinaryExpression "+"
             (Ast.BinaryExpression "+" (Ast.Identifier "_")
                (Ast.Identifier "c"))
             (Ast.Literal 2 ""))])
    no_options
  = Matched
      {| underscore := [Ast.Identifier "a"; Ast.Identifier "b"];
         vars := ∅;
         root := Some (Ast.BinaryExpression "+" (Ast.Identifier "a")
                         (Ast.Identifier "c")) |}.
Proof.
  apply (proj2 (proj2 X15_results_are_never_reset) "a" "b" 8 no_options
           eq_refl).
  lia.
Defined.

(** ** Calls that throw, and the caches *)

Section failing.
Variable esprima_parse : string -> option value.

Lemma parseStructure_throws m structure e m1 :
  parseStructure esprima_parse m structure = (inl e, m1) ->
  m1 = m
  /\ exists s, structure = StructureText s /\ structureCache m !! s = None.
Proof.
  unfold parseStructure. destruct structure as [s|v]; [|done].
  destruct (structureCache m !! s) eqn:Ec; [done|].
  destruct (esprima_parse _) as [fullTree|].
  2: { intros [= <- <-]. split; [done|]. by exists s. }
  destruct (match get_of fullTree "body" with Some _ => _ | None => _ end)
    as [expression|].
  2: { intros [= <- <-]. split; [done|]. by exists s. }
  destruct (nullish expression).
  { intros [= <- <-]. split; [done|]. by exists s. }
  destruct (_ || _); [|done].
  intros [= <- <-]. split; [done|]. by exists s.
Qed.

Lemma parseStructure_caches m structure :
  structureCache m ⊆ structureCache (parseStructure esprima_parse m structure).2.
Proof.
  unfold parseStructure. destruct structure as [s|v]; [|done].
  destruct (structureCache m !! s) eqn:Ec; [done|].
  destruct (esprima_parse _) as [fullTree|]; [|done].
  destruct (match get_of fullTree "body" with Some _ => _ | None => _ end)
    as [expression|]; [|done].
  destruct (nullish expression); [done|].
  destruct (_ || _); [done|]. simpl. by apply insert_subseteq.
Qed.

End failing.

(** X16: what a call that throws leaves behind.  A template text once
    cached is never dropped.  When [match] throws for a poorly formatted
    template, the text was not cached and the module is exactly as it
    was.  When it throws for a text the parser rejects, the cached program
    and the heap are as they were.  In every other case in which the
    program given is not the cached one afterwards, the call threw and the
    cached program and the heap are as they were; a call that returns has
    cached the program it was given. *)
Theorem X16_what_a_failed_call_leaves
  (esprima_parse : string -> option value) (fuel : nat) (m : module)
  (c : code) (structure : rawStructure) (opts : options) :
  let r := match_ esprima_parse fuel m c structure opts in
  structureCache m ⊆ structureCache r.2
  /\ (r.1 = Thrown EStructure ->
      r.2 = m
      /\ exists s, structure = StructureText s
                   /\ structureCache m !! s = None)
  /\ (r.1 = Thrown EParse ->
      cachedCode r.2 = cachedCode m /\ cachedCodeTree r.2 = cachedCodeTree m
      /\ heap r.2 = heap m)
  /\ (cachedCode r.2 = Some c
      \/ (exists e, r.1 = Thrown e) /\ cachedCode r.2 = cachedCode m
         /\ cachedCodeTree r.2 = cachedCodeTree m /\ heap r.2 = heap m)
  /\ (returned r.1 -> cachedCode r.2 = Some c).
Proof.
  intros r. subst r. unfold match_, parseStructureWithVars.
  pose proof (parseStructure_caches esprima_parse m structure) as Hsub.
  pose proof (parseStructure_frame esprima_parse m structure)
    as (Hh & Ht & Hc).
  destruct (parseStructure esprima_parse m structure) as [[e|tree] m0] eqn:Ep;
    simpl in Hsub, Hh, Ht, Hc.
  { apply parseStructure_throws in Ep as [-> Hs]. simpl.
    split; [done|]. split; [by intros _|]. split; [done|].
    split; [|done]. right. split; [by exists e|done]. }
  destruct (foldConstants tree) as [[] tree'].
  2: { simpl. split; [done|]. split; [done|]. split; [done|].
       split; [|done]. right. split; [by eexists|done]. }
  destruct (simplifyTree tree' new_wildcardVars) as [structure' w].
  destruct (obtain_codeTree esprima_parse m0 c) as [[l h]|] eqn:Eo.
  2: { simpl. split; [done|]. split; [by destruct c|]. split; [done|].
       split; [|done]. right. split; [by eexists|done]. }
  destruct (foldConstants (default VUndef (h !! l))) as [[] codeTree]; simpl.
  2: { split; [done|]. split; [done|]. split; [done|]. split; [by left|done]. }
  destruct (nullish structure'); simpl.
  { split; [done|]. split; [done|]. split; [done|]. split; [by left|done]. }
  destruct (search fuel opts codeTree structure' w) as [[[]| |] st]; simpl;
    (split; [done|]); (split; [done|]); (split; [done|]);
    (split; [by left|done]).
Qed.

Lemma X16_what_a_failed_call_leaves_witness :
  (match_ (fun _ => Some (Ast.Program [Ast.stmt "a"])) 5 (initial_module ∅)
     (CodeText "a;") (StructureText "a") no_options).2
  = initial_module ∅.
Proof.
  apply (proj1 (proj2 (X16_what_a_failed_call_leaves
                         (fun _ => Some (Ast.Program [Ast.stmt "a"])) 5
                         (initial_module ∅) (CodeText "a;")
                         (StructureText "a") no_options))).
  reflexivity.
Defined.

(** ** [addStyling] *)

Lemma string_app_nil (a : string) : ("" ++ a = a)%string.
Proof. reflexivity. Qed.

Lemma string_length_app (a b : string) :
  String.length (a ++ b) = String.length a + String.length b.
Proof.
  induction a as [|c a IH]; [done|]. rewrite string_app_cons. simpl.
  by rewrite IH.
Qed.

Lemma lacks_app c (a b : string) :
  lacks c (a ++ b) = lacks c a && lacks c b.
Proof.
  induction a as [|d a IH]; [done|]. rewrite string_app_cons. simpl.
  by rewrite IH, andb_assoc.
Qed.

Lemma alnums_lacks (w : string) c :
  is_alnum c = false -> alnums w = true -> lacks c w = true.
Proof.
  intros Hc. induction w as [|d w IH]; [done|]. simpl.
  intros [Hd Hw]%andb_prop. rewrite (IH Hw), andb_true_r.
  apply negb_true_iff. destruct (Ascii.eqb_spec d c) as [->|]; [|done].
  congruence.
Qed.

Lemma replace_blanks_lacks (s : string) : forall at_start,
  lacks "_"%char s = true -> replace_blanks 0 at_start s = s.
Proof.
  induction s as [|c s IH]; intros at_start H; [done|].
  simpl in H. apply andb_prop in H as [Hc Hs]. apply negb_true_iff in Hc.
  cbn [replace_blanks]. rewrite Hc, andb_false_r. cbn [andb].
  destruct s as [|u s'].
  - rewrite andb_false_r. by rewrite IH.
  - simpl in Hs. apply andb_prop in Hs as [Hu Hs'].
    apply negb_true_iff in Hu. rewrite Hu. cbn [andb].
    rewrite andb_false_r. rewrite IH; [done|]. simpl.
    by rewrite Hu, Hs'.
Qed.

Lemma word_run_name (w rest : string) :
  alnums w = true -> starts_open rest = true -> word_run (w ++ rest) = w.
Proof.
  intros Hw Hr. induction w as [|c w IH].
  - rewrite string_app_nil. destruct rest as [|d rest]; [done|].
    simpl in *. apply negb_true_iff in Hr. by rewrite Hr.
  - rewrite string_app_cons. simpl in *.
    apply andb_prop in Hw as [Hc Hw]. unfold is_word. rewrite Hc. simpl.
    by rewrite (IH Hw).
Qed.

Section styling.
Variable inherited : string -> option string.

Lemma position_app_in w (seen more : list string) i :
  position w seen = Some i -> position w (seen ++ more) = Some i.
Proof.
  revert i. induction seen as [|v seen IH]; intros i; simpl; [done|].
  destruct (String.eqb v w); [done|].
  destruct (position w seen) as [j|]; simpl; [|done].
  intros [= <-]. by rewrite (IH j eq_refl).
Qed.

Lemma position_in w (seen : list string) :
  w ∈ seen -> is_Some (position w seen).
Proof.
  induction seen as [|v seen IH]; [by intros ?%elem_of_nil|].
  simpl. destruct (String.eqb_spec v w) as [->|Hne]; [by eexists|].
  intros [->|Hin]%elem_of_cons; [done|].
  destruct (IH Hin) as [i ->]. by eexists.
Qed.

Lemma position_notin w (seen : list string) :
  w ∉ seen -> position w seen = None.
Proof.
  induction seen as [|v seen IH]; [done|].
  intros [Hne Hnin]%not_elem_of_cons. simpl.
  destruct (String.eqb_spec v w) as [->|_]; [done|]. by rewrite (IH Hnin).
Qed.

Lemma position_snoc w (seen : list string) :
  w ∉ seen -> position w (seen ++ [w]) = Some (length seen).
Proof.
  induction seen as [|v seen IH]; simpl.
  - intros _. by rewrite String.eqb_refl.
  - intros [Hne Hnin]%not_elem_of_cons.
    destruct (String.eqb_spec v w) as [->|_]; [done|].
    by rewrite (IH Hnin).
Qed.

Lemma position_snoc_other w v (seen : list string) :
  v <> w -> position w (seen ++ [v]) = position w seen.
Proof.
  intros Hne. induction seen as [|u seen IH]; simpl.
  - by destruct (String.eqb_spec v w).
  - destruct (String.eqb u w); [done|]. by rewrite IH.
Qed.

Lemma pick_style (n : nat) :
  (if (n <? length styles)%nat then default "undefined" (styles !! n)
   else "extra") = style_at n.
Proof. unfold style_at. do 7 (destruct n as [|n]; [done|]). done. Qed.

(** The function handed to [replace], on a name [Object.prototype] does
    not have. *)
Lemma style_variable_styled prev w seen fn :
  inherited w = None -> styled seen fn ->
  exists fn',
    style_variable inherited prev w fn
    = (prev ++ var_span (style_of w (note w seen)), fn')
    /\ styled (note w seen) fn'.
Proof.
  intros Hi [Hc Hm]. unfold style_variable, style_in, note.
  rewrite pick_style, Hi, (Hm w).
  destruct (decide (w ∈ seen)) as [Hin|Hnin].
  - rewrite (bool_decide_eq_true_2 _ Hin).
    destruct (position_in w seen Hin) as [i Hp]. rewrite Hp.
    rewrite (bool_decide_eq_true_2 (is_Some (style_at <$> Some i)))
      by (by eexists).
    cbn [orb]. exists fn. split; [|by split].
    unfold style_get, style_of, var_span. by rewrite (Hm w), Hp.
  - rewrite (bool_decide_eq_false_2 _ Hnin).
    rewrite (position_notin w seen Hnin).
    rewrite !(bool_decide_eq_false_2 (is_Some None))
      by (by intros [? ?]).
    cbn [orb]. rewrite Hc. eexists. split; [|split].
    + unfold style_get, style_of, var_span. simpl.
      by rewrite lookup_insert_eq, (position_snoc w seen Hnin).
    + simpl. rewrite length_app. simpl. lia.
    + intros v. simpl. destruct (decide (v = w)) as [->|Hne].
      * by rewrite lookup_insert_eq, (position_snoc w seen Hnin).
      * rewrite lookup_insert_ne by done.
        rewrite (position_snoc_other v w seen) by done. apply Hm.
Qed.

Lemma replace_variables_skip (w rest : string) fn :
  replace_variables inherited (String.length w) false (w ++ rest) fn
  = replace_variables inherited 0 false rest fn.
Proof.
  induction w as [|c w IH]; [by destruct rest|].
  rewrite string_app_cons. simpl. destruct w; [by destruct rest|exact IH].
Qed.

Lemma replace_variables_lacks (s : string) : forall at_start fn,
  lacks "$"%char s = true ->
  replace_variables inherited 0 at_start s fn = (s, fn).
Proof.
  induction s as [|c s IH]; intros at_start fn H; [done|].
  simpl in H. apply andb_prop in H as [Hc Hs]. apply negb_true_iff in Hc.
  cbn [replace_variables]. rewrite Hc, andb_false_r. cbn [andb].
  rewrite (IH false fn Hs).
  destruct s as [|d s']; [by rewrite andb_false_r|].
  simpl in Hs. apply andb_prop in Hs as [Hd _]. apply negb_true_iff in Hd.
  rewrite Hd. cbn [andb]. by rewrite andb_false_r.
Qed.

(** Up to the first variable of a listing. *)
Lemma replace_variables_token (sep w rest : string) seen :
  forall at_start fn,
  lacks "$"%char sep = true -> ends_open sep = true ->
  variable_name w = true -> inherited w = None ->
  starts_open rest = true -> styled seen fn ->
  exists fn1,
    styled (note w seen) fn1
    /\ replace_variables inherited 0 at_start (sep ++ "$" ++ w ++ rest) fn
       = let '(more, fn2) := replace_variables inherited 0 false rest fn1 in
         (sep ++ var_span (style_of w (note w seen)) ++ more, fn2).
Proof.
  intros at_start fn Hl He Hw Hi Hr Hs.
  apply andb_prop in Hw as [Hne Ha].
  revert at_start. induction sep as [|c sep IH]; intros at_start; [done|].
  simpl in Hl. apply andb_prop in Hl as [Hc Hl]. apply negb_true_iff in Hc.
  rewrite string_app_cons. cbn [replace_variables].
  rewrite Hc, andb_false_r. cbn [andb].
  destruct sep as [|d sep'].
  - rewrite string_app_nil.
    change ("$" ++ w ++ rest) with (String "$"%char (w ++ rest)).
    simpl in He. rewrite He. cbn [andb Ascii.eqb Bool.eqb string_drop].
    rewrite (word_run_name w rest Ha Hr), Hne. cbn [andb].
    destruct (style_variable_styled (String c "") w seen fn Hi Hs)
      as (fn1 & -> & Hs1).
    exists fn1. split; [done|].
    change (replace_variables inherited (1 + String.length w) false
              (String "$"%char (w ++ rest)) fn1)
      with (replace_variables inherited (String.length w) false
              (w ++ rest) fn1).
    rewrite replace_variables_skip.
    destruct (replace_variables inherited 0 false rest fn1) as [more fn2].
    by rewrite !string_app_cons, string_app_nil, <- !string_app_assoc.
  - simpl in Hl. apply andb_prop in Hl as [Hd Hl].
    apply negb_true_iff in Hd.
    rewrite string_app_cons. rewrite Hd. cbn [andb].
    rewrite andb_false_r. cbn [andb].
    destruct (IH ltac:(simpl; by rewrite Hd, Hl) He false) as (fn1 & Hs1 & E).
    rewrite string_app_cons in E. rewrite E.
    exists fn1. split; [done|].
    destruct (replace_variables inherited 0 false rest fn1) as [more fn2].
    by rewrite !string_app_cons.
Qed.

(** Text before the first separator. *)
Lemma replace_variables_head (head rest : string) : forall at_start fn,
  lacks "$"%char head = true ->
  (forall r, rest <> String "$"%char r) ->
  exists at_start',
    replace_variables inherited 0 at_start (head ++ rest) fn
    = let '(more, fn') := replace_variables inherited 0 at_start' rest fn in
      (head ++ more, fn').
Proof.
  intros at_start fn Hl Hr. revert at_start.
  induction head as [|c head IH]; intros at_start.
  - exists at_start. rewrite string_app_nil.
    by destruct (replace_variables inherited 0 at_start rest fn).
  - simpl in Hl. apply andb_prop in Hl as [Hc Hl]. apply negb_true_iff in Hc.
    rewrite string_app_cons. cbn [replace_variables].
    rewrite Hc, andb_false_r. cbn [andb].
    destruct (IH Hl false) as (at_start' & E). exists at_start'.
    assert (Hnext : match head ++ rest with
                    | String d rest' =>
                        Ascii.eqb d "$"%char
                        && negb (String.eqb (word_run rest') "")
                    | EmptyString => false
                    end = false).
    { destruct head as [|d head].
      - rewrite string_app_nil. destruct rest as [|d rest]; [done|].
        destruct (Ascii.eqb_spec d "$"%char) as [->|]; [|done].
        by destruct (Hr rest).
      - rewrite string_app_cons. simpl in Hl.
        apply andb_prop in Hl as [Hd _]. apply negb_true_iff in Hd.
        by rewrite Hd. }
    rewrite Hnext, andb_false_r, E.
    destruct (replace_variables inherited 0 at_start' rest fn) as [more fn'].
    by rewrite string_app_cons.
Qed.
End styling.

Lemma listing_lacks c ts tail :
  is_alnum c = false ->
  Forall (fun t => lacks c t.1 = true /\ alnums t.2 = true) ts ->
  c <> "$"%char -> lacks c tail = true ->
  lacks c (listing ts tail) = true.
Proof.
  intros Hc Hts Hne Ht. induction Hts as [|[sep w] ts [Hsep Hw] _ IH];
    [done|].
  cbn [listing fst snd] in *.
  rewrite !lacks_app, Hsep, (alnums_lacks w c Hc Hw), IH.
  cbn [lacks andb]. rewrite !andb_true_r. apply negb_true_iff.
  by destruct (Ascii.eqb_spec "$"%char c).
Qed.

Lemma listing_starts_open ts tail :
  Forall (fun t => token t = true) ts -> starts_open tail = true ->
  starts_open (listing ts tail) = true.
Proof.
  intros Hts Ht. destruct Hts as [|[sep w] ts Hsep _]; [done|].
  unfold token, separator in Hsep. simpl in *.
  apply andb_prop in Hsep as [Hsep _]. apply andb_prop in Hsep as [Hsep He].
  apply andb_prop in Hsep as [_ Hso].
  destruct sep as [|c sep]; [done|]. by rewrite string_app_cons.
Qed.

Lemma listing_first ts tail r :
  Forall (fun t => token t = true) ts -> lacks "$"%char tail = true ->
  listing ts tail <> String "$"%char r.
Proof.
  intros Hts Ht. destruct Hts as [|[sep w] ts Hsep _].
  - simpl. intros ->. done.
  - unfold token, separator, unmarked_text in Hsep. simpl in *.
    apply andb_prop in Hsep as [Hsep _]. apply andb_prop in Hsep as [Hsep He].
    apply andb_prop in Hsep as [Hsep _]. apply andb_prop in Hsep as [Hl _].
    destruct sep as [|c sep]; [done|]. rewrite string_app_cons.
    intros [= -> _]. done.
Qed.

Lemma replace_variables_listing inherited ts tail : forall seen fn at_start,
  Forall (fun t => token t = true /\ inherited t.2 = None) ts ->
  unmarked_text tail = true -> starts_open tail = true ->
  styled seen fn ->
  exists fn',
    replace_variables inherited 0 at_start (listing ts tail) fn
    = (styled_listing seen ts tail, fn')
    /\ styled (seen_after seen ts) fn'.
Proof.
  intros seen fn at_start Hts Ht Hto. revert seen fn at_start.
  induction Hts as [|[sep w] ts [Hsep Hi] Hts IH]; intros seen fn at_start Hs.
  - simpl. apply andb_prop in Ht as [Ht _].
    rewrite (replace_variables_lacks inherited tail at_start fn Ht).
    by exists fn.
  - unfold token, separator, unmarked_text in Hsep. simpl in Hsep, Hi.
    apply andb_prop in Hsep as [Hsep Hw].
    apply andb_prop in Hsep as [Hsep He].
    apply andb_prop in Hsep as [Hsep Hso].
    apply andb_prop in Hsep as [Hl _].
    cbn [listing styled_listing seen_after].
    destruct (replace_variables_token inherited sep w (listing ts tail) seen
                at_start fn Hl He Hw Hi) as (fn1 & Hs1 & ->); [|done|].
    { apply listing_starts_open; [|done].
      eapply Forall_impl; [exact Hts|]. by intros t [? _]. }
    destruct (IH (note w seen) fn1 false Hs1) as (fn' & -> & Hs').
    by exists fn'.
Qed.

(** X17: [addStyling] on a text [head sep1 $w1 sep2 $w2 ... tail], where
    the names are letters and digits that [Object.prototype] does not
    have, and the texts around them hold no [$] and no [_] and, after a
    name, begin outside a word and, before one, end outside a word.  Every
    [$w] is replaced by an empty span, the other text is kept, and the
    class of the span is the one of the name's rank among the names in
    the order of their first occurrence: [one] to [seven], then [extra];
    a name met again gets the class it has.  With [maintainStyles] the
    ranks go on from the names of the earlier calls, without it they start
    anew. *)
Theorem X17_addStyling_styles_by_first_occurrence
  (inherited : string -> option string) (head : string)
  (ts : list (string * string)) (tail : string) (seen : list string)
  (fn : styling) :
  unmarked_text head = true ->
  Forall (fun t => token t = true /\ inherited t.2 = None) ts ->
  unmarked_text tail = true -> starts_open tail = true ->
  styled seen fn ->
  (exists fn',
      addStyling inherited (head ++ listing ts tail) true fn
      = (head ++ styled_listing seen ts tail, fn')
      /\ styled (seen_after seen ts) fn')
  /\ (forall fn0, exists fn',
        addStyling inherited (head ++ listing ts tail) false fn0
        = (head ++ styled_listing [] ts tail, fn')
        /\ styled (seen_after [] ts) fn').
Proof.
  intros Hh Hts Ht Hto Hs.
  apply andb_prop in Hh as [Hhd Hhu].
  assert (Htok : Forall (fun t => token t = true) ts).
  { eapply Forall_impl; [exact Hts|]. by intros t [? _]. }
  assert (Hb : replace_blanks 0 true (head ++ listing ts tail)
               = head ++ listing ts tail).
  { apply replace_blanks_lacks. rewrite lacks_app, Hhu.
    apply listing_lacks; try done.
    - eapply Forall_impl; [exact Htok|]. intros [sep w] Ht1.
      unfold token, separator, unmarked_text, variable_name in Ht1.
      simpl in *. apply andb_prop in Ht1 as [Hsep Hw].
      apply andb_prop in Hw as [_ Hw].
      apply andb_prop in Hsep as [Hsep _].
      apply andb_prop in Hsep as [Hsep _].
      by apply andb_prop in Hsep as [_ Hsep].
    - by apply andb_prop in Ht as [_ Ht]. }
  assert (Hfirst : forall r, listing ts tail <> String "$"%char r).
  { intros r. apply listing_first; [done|].
    by apply andb_prop in Ht as [Ht _]. }
  unfold addStyling. rewrite Hb. split.
  - destruct (replace_variables_head inherited head (listing ts tail) true
                fn Hhd Hfirst) as (at_start' & ->).
    destruct (replace_variables_listing inherited ts tail seen fn at_start'
                Hts Ht Hto Hs) as (fn' & -> & Hs').
    by exists fn'.
  - intros _.
    destruct (replace_variables_head inherited head (listing ts tail) true
                initial_styling Hhd Hfirst) as (at_start' & ->).
    destruct (replace_variables_listing inherited ts tail [] initial_styling
                at_start' Hts Ht Hto) as (fn' & -> & Hs'); [done|].
    by exists fn'.
Qed.

Lemma X17_addStyling_styles_by_first_occurrence_witness :
  exists fn',
    addStyling (fun _ => None) "var x = f($a, $b) + $a;" false
      initial_styling
    = ("var x = f" ++ "(" ++ var_span "one" ++ ", " ++ var_span "two"
         ++ ") + " ++ var_span "one" ++ ";", fn')
    /\ styled ["a"; "b"] fn'.
Proof.
  refine (proj2 (X17_addStyling_styles_by_first_occurrence (fun _ => None)
                   "var x = f" [("(", "a"); (", ", "b"); (") + ", "a")] ";"
                   [] initial_styling eq_refl _ eq_refl eq_refl _)
            initial_styling).
  - repeat first [apply List.Forall_nil | apply List.Forall_cons];
      (split; [vm_compute; reflexivity|reflexivity]).
  - split; [reflexivity|]. intros w. apply lookup_empty.
Defined.

Lemma replace_blanks_gap (g rest : string) : forall at_start,
  lacks "_"%char g = true -> g <> "" -> ends_plain g = true ->
  not_alnum_next rest = true ->
  replace_blanks 0 at_start (g ++ "_" ++ rest)
  = g ++ blank_span ++ replace_blanks 0 false rest.
Proof.
  intros at_start Hl Hne He Hr. revert at_start.
  induction g as [|c g IH]; intros at_start; [done|].
  simpl in Hl. apply andb_prop in Hl as [Hc Hl]. apply negb_true_iff in Hc.
  rewrite string_app_cons. cbn [replace_blanks].
  rewrite Hc, andb_false_r. cbn [andb].
  destruct g as [|d g'].
  - rewrite string_app_nil.
    change ("_" ++ rest) with (String "_"%char rest).
    simpl in He. rewrite He, Hr. cbn [andb Ascii.eqb Bool.eqb].
    change (replace_blanks 1 false (String "_"%char rest))
      with (replace_blanks 0 false rest).
    by rewrite !string_app_cons, string_app_nil.
  - simpl in Hl. apply andb_prop in Hl as [Hd Hl].
    apply negb_true_iff in Hd.
    rewrite string_app_cons, Hd. cbn [andb]. rewrite andb_false_r.
    rewrite <- string_app_cons.
    rewrite (IH ltac:(simpl; by rewrite Hd, Hl) ltac:(done) He false).
    by rewrite !string_app_cons.
Qed.

Lemma replace_blanks_gaps (gs : list string) (tail : string) :
  Forall (fun g => gap g = true) gs ->
  lacks "_"%char tail = true -> not_alnum_next tail = true ->
  forall at_start, replace_blanks 0 at_start (gaps gs tail) = blanked gs tail.
Proof.
  intros Hgs Ht Hn. induction Hgs as [|g gs Hg Hgs IH]; intros at_start.
  - by apply replace_blanks_lacks.
  - unfold gap, unmarked_text in Hg.
    apply andb_prop in Hg as [Hg He]. apply andb_prop in Hg as [Hg Hnx].
    apply andb_prop in Hg as [Hg Hne]. apply andb_prop in Hg as [_ Hl].
    cbn [gaps blanked]. rewrite replace_blanks_gap; try done.
    + by rewrite IH.
    + intros ->. done.
    + destruct Hgs as [|g' gs Hg' _]; [done|].
      unfold gap in Hg'. apply andb_prop in Hg' as [Hg' _].
      apply andb_prop in Hg' as [Hg' Hnx']. apply andb_prop in Hg' as [_ Hne'].
      simpl. destruct g' as [|c g']; [done|]. by rewrite string_app_cons.
Qed.

Lemma blanked_lacks (gs : list string) (tail : string) :
  Forall (fun g => gap g = true) gs -> lacks "$"%char tail = true ->
  lacks "$"%char (blanked gs tail) = true.
Proof.
  intros Hgs Ht. induction Hgs as [|g gs Hg _ IH]; [done|].
  unfold gap, unmarked_text in Hg.
  apply andb_prop in Hg as [Hg _]. apply andb_prop in Hg as [Hg _].
  apply andb_prop in Hg as [Hg _]. apply andb_prop in Hg as [Hl _].
  cbn [blanked]. by rewrite !lacks_app, Hl, IH.
Qed.

(** X18: [addStyling] on a text [head _ gap1 _ gap2 _ ... tail] that holds
    no [$], every [_] of which stands between characters that are not
    letters or digits (or at the start or the end of the text): every
    [_] is replaced by an empty blank span, the other text is kept, and
    the styles of the variables are as they were, or cleared without
    [maintainStyles].  An [_] that follows another [_] directly is not
    replaced, since the first match has taken the character before it:
    [__] gives a span and [_]. *)
Theorem X18_addStyling_blanks
  (inherited : string -> option string) (head : string)
  (gs : list string) (tail : string) (maintainStyles : bool)
  (fn : styling) :
  unmarked_text head = true -> ends_plain head = true ->
  Forall (fun g => gap g = true) gs ->
  unmarked_text tail = true -> not_alnum_next tail = true ->
  addStyling inherited (head ++ "_" ++ gaps gs tail) maintainStyles fn
  = (head ++ blank_span ++ blanked gs tail,
     if maintainStyles then fn else initial_styling)
  /\ addStyling inherited "__" maintainStyles fn
     = (blank_span ++ "_", if maintainStyles then fn else initial_styling).
Proof.
  intros Hh He Hgs Ht Hn.
  apply andb_prop in Hh as [Hhd Hhu]. apply andb_prop in Ht as [Htd Htu].
  assert (Hnext : not_alnum_next (gaps gs tail) = true).
  { destruct Hgs as [|g gs Hg _]; [done|].
    unfold gap in Hg. apply andb_prop in Hg as [Hg _].
    apply andb_prop in Hg as [Hg Hnx]. apply andb_prop in Hg as [_ Hne].
    simpl. destruct g as [|c g]; [done|]. by rewrite string_app_cons. }
  assert (Hb : replace_blanks 0 true (head ++ "_" ++ gaps gs tail)
               = head ++ blank_span ++ blanked gs tail).
  { destruct head as [|c head].
    - rewrite !string_app_nil.
      change ("_" ++ gaps gs tail) with (String "_"%char (gaps gs tail)).
      cbn [replace_blanks]. rewrite Hnext. cbn [andb Ascii.eqb Bool.eqb].
      by rewrite (replace_blanks_gaps gs tail Hgs Htu Hn).
    - rewrite replace_blanks_gap; try done.
      by rewrite (replace_blanks_gaps gs tail Hgs Htu Hn). }
  split; [|by destruct maintainStyles].
  unfold addStyling. rewrite Hb.
  apply replace_variables_lacks.
  rewrite !lacks_app, Hhd. cbn [andb].
  change (lacks "$"%char blank_span) with true. cbn [andb].
  by apply blanked_lacks.
Qed.

Lemma X18_addStyling_blanks_witness :
  addStyling (fun _ => None) "if (_) { _; }" false initial_styling
  = ("if (" ++ blank_span ++ ") { " ++ blank_span ++ "; }", initial_styling).
Proof.
  apply (proj1 (X18_addStyling_blanks (fun _ => None) "if (" [") { "] "; }"
                  false initial_styling eq_refl eq_refl
                  ltac:(repeat constructor) eq_refl eq_refl)).
Defined.

(** ** The wildcard *)

(** The statement [_;] of a template, once simplified. *)
Lemma wildcard_statement rec (e : value) (peers : list value) st :
  nullish e = false ->
  root (results st) = None ->
  exactMatchNode rec (Ast.ExpressionStatement e)
    (Ast.node "ExpressionStatement" [(KName "expression", VUndef)]) peers st
  = (Return (true, peers),
     {| wVars := wVars st;
        results :=
          {| underscore :=
               underscore (results st)
               ++ (if truthy (get e "body") then [] else [e]);
             vars := vars (results st);
             root := Some (Ast.ExpressionStatement e) |};
        console := console st; failure := failure st |}).
Proof.
  intros Hn Hroot. unfold exactMatchNode. munfold. rewrite Hroot.
  unfold emn_key. munfold. cbn -[nullish truthy]. rewrite Hn.
  change (nullish (Ast.ExpressionStatement e)) with false.
  change (nullish (VStr "ExpressionStatement")) with false.
  unfold set_root, push_underscore. munfold.
  change (truthy (Ast.ExpressionStatement e)) with true.
  destruct (truthy (get e "body")); cbn; [|done].
  by rewrite app_nil_r.
Qed.

(** X19: the wildcard.  The template statement [_;] is found in the
    program [e;] whatever the expression [e] is, so long as it is not
    [null] or [undefined]: nothing of [e] is compared.  The statement is
    the root of the match, and [e] is recorded in [_] unless it has a
    truthy [body]. *)
Theorem X19_wildcard_matches_without_looking (fuel : nat) (e : value)
  (opts : options) :
  nullish e = false ->
  json e = true -> node_settled e = true -> settled e = true ->
  single opts = false -> 2 < fuel ->
  match_trees fuel (Ast.Program [Ast.ExpressionStatement e])
    (Ast.BlockStatement [Ast.stmt "_"]) opts
  = Matched {| underscore := if truthy (get e "body") then [] else [e];
               vars := ∅;
               root := Some (Ast.ExpressionStatement e) |}.
Proof.
  intros Hn Hj Hns Hs Hsingle Hf.
  rewrite match_trees_unfold.
  rewrite (json_fixed (Ast.Program [Ast.ExpressionStatement e]))
    by (simpl; by rewrite Hj).
  rewrite (foldConstants_settled (Ast.Program [Ast.ExpressionStatement e]))
    by (simpl; by rewrite Hns, Hs).
  assert (Ht : foldConstants (deepClone (Ast.BlockStatement [Ast.stmt "_"]))
               = (Normal, Ast.BlockStatement [Ast.stmt "_"])) by reflexivity.
  assert (Hw : simplifyTree (Ast.BlockStatement [Ast.stmt "_"])
                 new_wildcardVars
               = (Ast.BlockStatement
                    [Ast.node "ExpressionStatement"
                       [(KName "expression", VUndef)]],
                  new_wildcardVars)) by reflexivity.
  rewrite Ht, Hw. clear Ht Hw.
  change (nullish (Ast.BlockStatement _)) with false.
  cbv iota. unfold search.
  replace (targets (Ast.BlockStatement
                      [Ast.node "ExpressionStatement"
                         [(KName "expression", VUndef)]]))
    with (Ast.node "ExpressionStatement" [(KName "expression", VUndef)],
          @nil value) by reflexivity.
  rewrite Hsingle. cbn [order new_wildcardVars length Nat.eqb orb].
  do 3 (destruct fuel as [|fuel]; [lia|]).
  unfold checkMatchTree. rewrite engine_step.
  rewrite checkMatchTree_body_children; [|done|by apply type_differs].
  assert (E : engine false (S (S fuel))
                (CheckNodeArray [Ast.ExpressionStatement e]
                   (Ast.node "ExpressionStatement"
                      [(KName "expression", VUndef)]) [])
                (new_mstate new_wildcardVars)
              = (Return (true, []),
                 {| wVars := new_wildcardVars;
                    results :=
                      {| underscore :=
                           if truthy (get e "body") then [] else [e];
                         vars := ∅;
                         root := Some (Ast.ExpressionStatement e) |};
                    console := []; failure := None |})).
  { rewrite engine_step. unfold checkNodeArray_body. munfold.
    rewrite js_for_cons. unfold cna_elem. munfold.
    change (isGlob _ (Ast.node "ExpressionStatement" _))
      with (Return (@None string)).
    unfold lift. rewrite engine_step. unfold checkMatchTree_body. munfold.
    cbn [isArray Ast.node].
    by rewrite wildcard_statement. }
  munfold. by rewrite (program_children _ _ _ _ _ _ E).
Qed.

Lemma X19_wildcard_matches_without_looking_witness :
  match_trees 3 (Ast.Program [Ast.stmt "a"])
    (Ast.BlockStatement [Ast.stmt "_"]) no_options
  = Matched {| underscore := [Ast.Identifier "a"]; vars := ∅;
               root := Some (Ast.stmt "a") |}.
Proof.
  apply (X19_wildcard_matches_without_looking 3 (Ast.Identifier "a")
           no_options eq_refl eq_refl eq_refl eq_refl eq_refl).
  lia.
Defined.

(** ** The empty template *)

(** X20: the empty template [function() {}] is found in every program.
    Its body has no first statement, so the node looked for is
    [undefined], which the root of the program matches at once: the
    answer has the whole program tree in [_], no variable, and no [root]
    when the tree is a [Program] (the tree itself otherwise).  This is so
    with and without [options.single]. *)
Theorem X20_the_empty_template_matches_every_program (fuel : nat)
  (fs : list (key * value)) (opts : options) :
  json (VObj fs) = true -> settled (VObj fs) = true -> 0 < fuel ->
  match_trees fuel (VObj fs) (Ast.BlockStatement []) opts
  = Matched {| underscore := [VObj fs]; vars := ∅;
               root := if is_str (get (VObj fs) "type") "Program" then None
                       else Some (VObj fs) |}.
Proof.
  intros Hj Hs Hf. rewrite match_trees_unfold.
  rewrite (json_fixed (VObj fs) Hj), (foldConstants_settled (VObj fs) Hs).
  assert (Ht : foldConstants (deepClone (Ast.BlockStatement []))
               = (Normal, Ast.BlockStatement [])) by reflexivity.
  assert (Hw : simplifyTree (Ast.BlockStatement []) new_wildcardVars
               = (Ast.BlockStatement [], new_wildcardVars)) by reflexivity.
  rewrite Ht, Hw. clear Ht Hw.
  change (nullish (Ast.BlockStatement [])) with false.
  cbv iota. unfold search.
  replace (targets (Ast.BlockStatement [])) with (VUndef, @nil value)
    by reflexivity.
  cbn [order new_wildcardVars length Nat.eqb orb].
  destruct fuel as [|fuel]; [lia|].
  unfold checkMatchTree. rewrite engine_step.
  unfold checkMatchTree_body, exactMatchNode, set_root, push_underscore.
  munfold. cbn -[is_str get].
  by destruct (is_str (get (VObj fs) "type") "Program").
Qed.

Lemma X20_the_empty_template_matches_every_program_witness :
  match_trees 1 (Ast.Program [Ast.stmt "a"]) (Ast.BlockStatement [])
    no_options
  = Matched {| underscore := [Ast.Program [Ast.stmt "a"]]; vars := ∅;
               root := None |}.
Proof.
  apply (X20_the_empty_template_matches_every_program 1
           [(KName "type", VStr "Program");
            (KName "body", VArr [Ast.stmt "a"])]
           no_options eq_refl eq_refl).
  lia.
Defined.

